(** * Block-aware finite-element assembly: [Form] and [Assembler]

    A shallow embedding of [dolfin/fem/Form.cpp] and
    [cpp/dolfin/fem/Assembler.cpp].  The storage back end (PETSc), the
    mesh, the dof maps and the per-cell kernels are collaborators of the
    assembler: they appear here as plain data (records) and as the
    sequence of storage calls the assembler issues. *)

From stdpp Require Import gmap strings list fin_maps pretty.
From Stdlib Require Import ZArith.
From Stdlib Require Import PrimFloat.

(** ** Scalars

    The entries of matrices and vectors are C++ [double]s.  The embedding
    is generic in the scalar type, and a theorem stated for every
    [Scalar] holds of [double] in particular ([binary64] below).  A
    theorem that needs laws of the arithmetic takes them as
    [ScalarLaws]. *)

Class Scalar : Type := {
  double : Type;
  dzero : double;
  done_ : double;
  dadd : double -> double -> double;
  dsub : double -> double -> double;
  dmul : double -> double -> double
}.

(** Laws of exact arithmetic.  IEEE 754 addition is not associative,
    and zero is not neutral for it at the negative zero, so [binary64]
    does not satisfy them: a result that takes [ScalarLaws] is a
    result about exact arithmetic, not about [double]. *)
Class ScalarLaws (S : Scalar) : Prop := {
  dadd_0_l : forall x : double, dadd dzero x = x;
  dadd_0_r : forall x : double, dadd x dzero = x;
  dadd_assoc : forall x y z : double, dadd x (dadd y z) = dadd (dadd x y) z
}.

(** Exact integers, used to run the model on concrete inputs. *)
#[export] Instance Z_Scalar : Scalar := {|
  double := Z;
  dzero := 0%Z;
  done_ := 1%Z;
  dadd := Z.add;
  dsub := Z.sub;
  dmul := Z.mul
|}.

#[export] Instance Z_ScalarLaws : ScalarLaws Z_Scalar.
Proof. split; simpl; intros; lia. Qed.

(** C++ [double]: IEEE 754 binary64 with round-to-nearest-even, as the
    primitive floating-point numbers compute it. *)
Definition binary64 : Scalar := {|
  double := PrimFloat.float;
  dzero := 0%float;
  done_ := 1%float;
  dadd := PrimFloat.add;
  dsub := PrimFloat.sub;
  dmul := PrimFloat.mul
|}.

(** ** Outcomes

    [Ok x]: the call returns.  [Error msg]: a C++ exception
    ([dolfin_error], [std::runtime_error]); [msg] is the reason text.
    [Undefined]: a violated [assert]/[dolfin_assert], a null
    dereference or an out-of-bounds access. *)

Inductive outcome (A : Type) : Type :=
| Ok (x : A)
| Error (msg : string)
| Undefined.

Arguments Ok {A} x.
Arguments Error {A} msg.
Arguments Undefined {A}.

#[export] Instance outcome_ret : MRet outcome := fun _ x => Ok x.
#[export] Instance outcome_bind : MBind outcome := fun _ _ f m =>
  match m with
  | Ok x => f x
  | Error msg => Error msg
  | Undefined => Undefined
  end.

Definition deref {A : Type} (p : option A) : outcome A :=
  match p with
  | Some x => Ok x
  | None => Undefined
  end.

(** Monadic loops over a list, in list order. *)
Fixpoint mapM {A B : Type} (f : A -> outcome B) (l : list A) : outcome (list B) :=
  match l with
  | [] => Ok []
  | x :: l' => y ← f x; ys ← mapM f l'; Ok (y :: ys)
  end.

Fixpoint foldM {A B : Type} (f : B -> A -> outcome B) (l : list A) (b : B) : outcome B :=
  match l with
  | [] => Ok b
  | x :: l' => b' ← f b x; foldM f l' b'
  end.

(** ** Data model *)

(** A mesh object.  [mesh_id] stands for the address of the object:
    two [shared_ptr]s are equal exactly when the records are.
    [mesh_cells] are the cell indices [MeshRange<Cell>] yields, in
    order; [mesh_mpi_size] is [MPI::size(mesh.mpi_comm())]. *)
Record Mesh : Type := {
  mesh_id : nat;
  mesh_cells : list nat;
  mesh_mpi_size : nat
}.

#[export] Instance Mesh_eq_dec : EqDecision Mesh.
Proof. solve_decision. Defined.

Record IndexMap : Type := {
  size_ALL : nat;          (* size(MapSize::ALL): owned + ghost *)
  block_size : nat
}.

#[export] Instance IndexMap_eq_dec : EqDecision IndexMap.
Proof. solve_decision. Defined.

Record GenericDofMap : Type := {
  dofmap_table : list (list nat);   (* cell index -> dofs of the cell *)
  index_map : IndexMap
}.

#[export] Instance GenericDofMap_eq_dec : EqDecision GenericDofMap.
Proof. solve_decision. Defined.

Definition cell_dofs (dm : GenericDofMap) (cell : nat) : list nat :=
  nth cell (dofmap_table dm) [].

Record FiniteElement : Type := { signature : string }.

#[export] Instance FiniteElement_eq_dec : EqDecision FiniteElement.
Proof. solve_decision. Defined.

(** A function space.  [fs_id] stands for the address of the object;
    [fs_root_space_id] and [fs_component] identify it as a sub-space. *)
Record FunctionSpace : Type := {
  fs_id : nat;
  fs_mesh : option Mesh;
  fs_element : option FiniteElement;
  fs_dofmap : GenericDofMap;
  fs_root_space_id : nat;
  fs_component : list nat
}.

#[export] Instance FunctionSpace_eq_dec : EqDecision FunctionSpace.
Proof. solve_decision. Defined.

(** Modelled from the spec: [FunctionSpace::contains] is declared in
    FunctionSpace.h which is not verified here; [V] contains
    [W] when [W] is the same as, or a sub-space of, [V]: same root
    space, and the component path of [V] is a prefix of that of [W]. *)
Definition contains (V W : FunctionSpace) : bool :=
  bool_decide (fs_root_space_id V = fs_root_space_id W)
  && bool_decide (fs_component V `prefix_of` fs_component W).

Record MeshFunction : Type := { mf_mesh : Mesh }.

(** A coefficient: [dynamic_cast<const Function*>] succeeds on
    [Function] only. *)
Inductive GenericFunction : Type :=
| Function (V : FunctionSpace)
| Expression.

Record ufc_form : Type := {
  ufc_rank : nat;
  ufc_num_coefficients : nat;
  ufc_element_signature : nat -> string   (* create_finite_element(i)->signature() *)
}.

Inductive Method : Type := topological | geometric | pointwise.

#[export] Instance Method_eq_dec : EqDecision Method.
Proof. solve_decision. Defined.

(** Modelled from the spec: [BlockType] is declared in Assembler.h,
    which is not verified here; the layout hint ranges
    over nested, monolithic and single. *)
Inductive BlockType : Type := monolithic | nested | single.

#[export] Instance BlockType_eq_dec : EqDecision BlockType.
Proof. solve_decision. Defined.

(** ** [Form] *)

Module Form.
Section WithScalar.
Context {S : Scalar}.

(** [tabulate_tensor cell] is the dense row-major local tensor that the
    kernel of the form writes for [cell]. *)
Record t : Type := {
  _ufc_form : option ufc_form;
  _function_spaces : list (option FunctionSpace);
  _coefficients : list (option GenericFunction);
  _mesh : option Mesh;
  dx : option MeshFunction;
  ds : option MeshFunction;
  dS : option MeshFunction;
  dP : option MeshFunction;
  tabulate_tensor : nat -> list double
}.

Definition rank (f : t) : nat := length (_function_spaces f).

(** [function_space(i)]: the pointer stored at position [i]; it may be
    null.  [dolfin_assert(i < _function_spaces.size())]. *)
Definition function_space (f : t) (i : nat) : outcome (option FunctionSpace) :=
  deref (_function_spaces f !! i).

(** Meshes of the non-null function spaces, in order
    ([dolfin_assert(_function_spaces[i]->mesh())]). *)
Fixpoint function_space_meshes (Vs : list (option FunctionSpace)) : outcome (list Mesh) :=
  match Vs with
  | [] => Ok []
  | None :: Vs' => function_space_meshes Vs'
  | Some V :: Vs' =>
      m ← deref (fs_mesh V);
      ms ← function_space_meshes Vs';
      Ok (m :: ms)
  end.

Definition marker_mesh (d : option MeshFunction) : list Mesh :=
  match d with
  | Some mf => [mf_mesh mf]
  | None => []
  end.

(** The meshes collected before coefficients are looked at: function
    spaces, the mesh set with [set_mesh], then the markers
    [dx], [ds], [dS], [dP]. *)
Definition primary_meshes (f : t) : outcome (list Mesh) :=
  ms ← function_space_meshes (_function_spaces f);
  Ok (ms ++ option_list (_mesh f)
         ++ marker_mesh (dx f) ++ marker_mesh (ds f)
         ++ marker_mesh (dS f) ++ marker_mesh (dP f)).

(** One round of the loop over the coefficients:
    [dynamic_cast<const Function*>(&*_coefficients[i])] dereferences
    the pointer, null or not; the cast succeeds on a [Function], whose
    mesh is taken when its function space has one. *)
Definition coefficient_mesh (c : option GenericFunction) : outcome (list Mesh) :=
  g ← deref c;
  match g with
  | Function V => Ok (option_list (fs_mesh V))
  | Expression => Ok []
  end.

Definition coefficient_meshes (f : t) : outcome (list Mesh) :=
  ms ← mapM coefficient_mesh (_coefficients f);
  Ok (concat ms).

(** The loop [for i = 1 ..: if (meshes[i] != meshes[i - 1]) error]. *)
Fixpoint all_same (ms : list Mesh) : bool :=
  match ms with
  | m0 :: ((m1 :: _) as ms') => bool_decide (m1 = m0) && all_same ms'
  | _ => true
  end.

Definition no_mesh_msg : string :=
  "No mesh was found. Try passing mesh to the assemble function".
Definition non_matching_msg : string :=
  "Non-matching meshes for function spaces and/or measures".

Definition mesh (f : t) : outcome Mesh :=
  meshes ← primary_meshes f;
  meshes ← match meshes with
           | [] => coefficient_meshes f
           | _ => Ok meshes
           end;
  match meshes with
  | [] => Error no_mesh_msg
  | m0 :: _ => if all_same meshes then Ok m0 else Error non_matching_msg
  end.

(** The reasons of the errors of [check], with the [%d] of the format
    strings replaced by the numbers printed. *)
Definition rank_msg (expected given : nat) : string :=
  "Expecting " +:+ pretty expected +:+ " function spaces (not " +:+ pretty given +:+ ")".
Definition coefficient_msg (expected given : nat) : string :=
  "Expecting " +:+ pretty expected +:+ " coefficient (not " +:+ pretty given +:+ ")".
Definition argument_msg (i : nat) : string :=
  "Wrong type of function space for argument " +:+ pretty i.

(** The loop of [check] over the argument function spaces, from
    position [i] on. *)
Fixpoint check_arguments (u : ufc_form) (i : nat) (Vs : list (option FunctionSpace))
  : outcome unit :=
  match Vs with
  | [] => Ok tt
  | p :: Vs' =>
      V ← deref p;
      e ← deref (fs_element V);
      if bool_decide (ufc_element_signature u i = signature e)
      then check_arguments u (Datatypes.S i) Vs'
      else Error (argument_msg i)
  end.

Definition check (f : t) : outcome unit :=
  u ← deref (_ufc_form f);
  if negb (bool_decide (ufc_rank u = length (_function_spaces f)))
  then Error (rank_msg (ufc_rank u) (length (_function_spaces f)))
  else if negb (bool_decide (ufc_num_coefficients u = length (_coefficients f)))
  then Error (coefficient_msg (ufc_num_coefficients u) (length (_coefficients f)))
  else check_arguments u 0 (_function_spaces f).

(** *** The remaining members of [Form] *)

(** [Form(rank, num_coefficients)]: [rank] null function spaces and
    [num_coefficients] null coefficients; [kernel] is the
    [tabulate_tensor] of the object. *)
Definition make (rank num_coefficients : nat) (kernel : nat -> list double) : t :=
  {| _ufc_form := None;
     _function_spaces := replicate rank None;
     _coefficients := replicate num_coefficients None;
     _mesh := None; dx := None; ds := None; dS := None; dP := None;
     tabulate_tensor := kernel |}.

(** [Form(ufc_form, function_spaces)], with
    [dolfin_assert(ufc_form->rank() == function_spaces.size())]. *)
Definition make_ufc (u : ufc_form) (Vs : list (option FunctionSpace))
    (kernel : nat -> list double) : outcome t :=
  if bool_decide (ufc_rank u = length Vs)
  then Ok {| _ufc_form := Some u;
             _function_spaces := Vs;
             _coefficients := replicate (ufc_num_coefficients u) None;
             _mesh := None; dx := None; ds := None; dS := None; dP := None;
             tabulate_tensor := kernel |}
  else Undefined.

Definition num_coefficients (f : t) : outcome nat :=
  match _ufc_form f with
  | None => Ok (length (_coefficients f))
  | Some u =>
      if bool_decide (ufc_num_coefficients u = length (_coefficients f))
      then Ok (length (_coefficients f))
      else Undefined
  end.

Definition set_mesh (f : t) (m : option Mesh) : t :=
  {| _ufc_form := _ufc_form f; _function_spaces := _function_spaces f;
     _coefficients := _coefficients f; _mesh := m;
     dx := dx f; ds := ds f; dS := dS f; dP := dP f;
     tabulate_tensor := tabulate_tensor f |}.

Definition function_spaces (f : t) : list (option FunctionSpace) := _function_spaces f.

(** [_coefficients[i] = coefficient], with
    [dolfin_assert(i < _coefficients.size())]. *)
Definition set_coefficient (f : t) (i : nat) (c : option GenericFunction) : outcome t :=
  if bool_decide (i < length (_coefficients f))
  then Ok {| _ufc_form := _ufc_form f; _function_spaces := _function_spaces f;
             _coefficients := <[i := c]> (_coefficients f); _mesh := _mesh f;
             dx := dx f; ds := ds f; dS := dS f; dP := dP f;
             tabulate_tensor := tabulate_tensor f |}
  else Undefined.

Definition coefficient (f : t) (i : nat) : outcome (option GenericFunction) :=
  deref (_coefficients f !! i).

Definition coefficients (f : t) : list (option GenericFunction) := _coefficients f.

(** [name << "w" << i]: the letter, then [i] in decimal. *)
Definition coefficient_name (i : nat) : string := "w" +:+ pretty i.

Definition cell_domains (f : t) : option MeshFunction := dx f.
Definition exterior_facet_domains (f : t) : option MeshFunction := ds f.
Definition interior_facet_domains (f : t) : option MeshFunction := dS f.
Definition vertex_domains (f : t) : option MeshFunction := dP f.

Definition set_cell_domains (f : t) (d : option MeshFunction) : t :=
  {| _ufc_form := _ufc_form f; _function_spaces := _function_spaces f;
     _coefficients := _coefficients f; _mesh := _mesh f;
     dx := d; ds := ds f; dS := dS f; dP := dP f;
     tabulate_tensor := tabulate_tensor f |}.

Definition set_exterior_facet_domains (f : t) (d : option MeshFunction) : t :=
  {| _ufc_form := _ufc_form f; _function_spaces := _function_spaces f;
     _coefficients := _coefficients f; _mesh := _mesh f;
     dx := dx f; ds := d; dS := dS f; dP := dP f;
     tabulate_tensor := tabulate_tensor f |}.

Definition set_interior_facet_domains (f : t) (d : option MeshFunction) : t :=
  {| _ufc_form := _ufc_form f; _function_spaces := _function_spaces f;
     _coefficients := _coefficients f; _mesh := _mesh f;
     dx := dx f; ds := ds f; dS := d; dP := dP f;
     tabulate_tensor := tabulate_tensor f |}.

Definition set_vertex_domains (f : t) (d : option MeshFunction) : t :=
  {| _ufc_form := _ufc_form f; _function_spaces := _function_spaces f;
     _coefficients := _coefficients f; _mesh := _mesh f;
     dx := dx f; ds := ds f; dS := dS f; dP := d;
     tabulate_tensor := tabulate_tensor f |}.

(** Arithmetic of [std::size_t]. *)
Definition size_t_modulus : Z := 2 ^ 64.

Definition coloring_msg : string :=
  "Only cell and facet coloring are currently supported".

(** [coloring(entity_dim)]; [topology_dim m] is
    [m.topology().dim()], and [cell_dim - 1] is computed in
    [std::size_t]. *)
Definition coloring (topology_dim : Mesh -> Z) (f : t) (entity_dim : Z)
  : outcome (list Z) :=
  m ← mesh f;
  let cell_dim := topology_dim m in
  let facet_dim := ((cell_dim - 1) mod size_t_modulus)%Z in
  if bool_decide (entity_dim = cell_dim)
  then Ok [cell_dim; 0%Z; cell_dim]
  else if bool_decide (entity_dim = facet_dim)
  then Ok [facet_dim; cell_dim; 0%Z; cell_dim; facet_dim]
  else Error coloring_msg.

End WithScalar.
Arguments t : clear implicits.
Arguments t {S}.
End Form.

(** ** Boundary conditions *)

Section BoundaryConditions.
Context {S : Scalar}.

(** [bc_local_values]: the constrained local dofs of this process and
    their prescribed values; [bc_remote_values]: the constrained dofs
    that other processes own and send on [gather]. *)
Record DirichletBC : Type := {
  bc_function_space : FunctionSpace;
  method : Method;
  bc_local_values : gmap nat double;
  bc_remote_values : gmap nat double
}.

(** Modelled from the spec: [DirichletBC::get_boundary_values] and
    [DirichletBC::gather] are defined in DirichletBC.cpp, which is not
    verified here.  The first merges the local
    constrained-dof to value mapping of the condition into the
    accumulated map; the second completes the map with the constrained
    dofs received from the other processes. *)
Definition get_boundary_values (bc : DirichletBC) (boundary_values : gmap nat double)
  : gmap nat double :=
  bc_local_values bc ∪ boundary_values.

Definition gather (bc : DirichletBC) (boundary_values : gmap nat double)
  : gmap nat double :=
  boundary_values ∪ bc_remote_values bc.

(** The body of the loops over [bcs] that collect boundary values for
    the function space [V], on a communicator of [mpi_size]
    processes. *)
Definition collect_bc (mpi_size : nat) (V : FunctionSpace)
    (boundary_values : gmap nat double) (bc : DirichletBC) : gmap nat double :=
  if contains V (bc_function_space bc) then
    let boundary_values := get_boundary_values bc boundary_values in
    if bool_decide (1 < mpi_size) && negb (bool_decide (method bc = pointwise))
    then gather bc boundary_values
    else boundary_values
  else boundary_values.

(** [boundary_values.find(ii) != boundary_values.end()] *)
Definition constrained (boundary_values : gmap nat double) (ii : nat) : bool :=
  bool_decide (is_Some (boundary_values !! ii)).

End BoundaryConditions.

(** ** Dense local tensors *)

Section LocalTensors.
Context {S : Scalar}.

(** A dense row-major matrix: [coeff i j] is read at
    [data()[i * cols + j]]. *)
Record EigenRowMatrixXd : Type := {
  rows : nat;
  cols : nat;
  coeff : nat -> nat -> double
}.

(** [Ae.resize(n0, n1); Ae.setZero(); a.tabulate_tensor(Ae.data(), ..)]:
    the kernel writes its values from the start of the zeroed buffer;
    writing more than [n0 * n1] values overruns it. *)
Definition tabulate_matrix (a : Form.t) (cell n0 n1 : nat) : outcome EigenRowMatrixXd :=
  let values := Form.tabulate_tensor a cell in
  if bool_decide (length values ≤ n0 * n1)
  then Ok {| rows := n0; cols := n1;
             coeff := fun i j => nth (i * n1 + j) values dzero |}
  else Undefined.

(** [be.resize(n); be.setZero(); L.tabulate_tensor(be.data(), ..)] *)
Definition tabulate_vector (L : Form.t) (cell n : nat) : outcome (list double) :=
  let values := Form.tabulate_tensor L cell in
  if bool_decide (length values ≤ n)
  then Ok (values ++ replicate (n - length values) dzero)
  else Undefined.

Definition row_setZero (i : nat) (Ae : EigenRowMatrixXd) : EigenRowMatrixXd :=
  {| rows := rows Ae; cols := cols Ae;
     coeff := fun i' j' => if bool_decide (i' = i) then dzero else coeff Ae i' j' |}.

Definition col_setZero (j : nat) (Ae : EigenRowMatrixXd) : EigenRowMatrixXd :=
  {| rows := rows Ae; cols := cols Ae;
     coeff := fun i' j' => if bool_decide (j' = j) then dzero else coeff Ae i' j' |}.

(** Zero rows for Dirichlet bcs: the loop over [i < Ae.rows()]. *)
Definition zero_bc_rows (boundary_values : gmap nat double) (dmap0 : list nat)
    (Ae : EigenRowMatrixXd) : EigenRowMatrixXd :=
  fold_left (fun Ae i =>
               if constrained boundary_values (nth i dmap0 0)
               then row_setZero i Ae else Ae)
            (seq 0 (rows Ae)) Ae.

(** Zero columns for Dirichlet bcs: the loop over [j < Ae.cols()]. *)
Definition zero_bc_cols (boundary_values : gmap nat double) (dmap1 : list nat)
    (Ae : EigenRowMatrixXd) : EigenRowMatrixXd :=
  fold_left (fun Ae j =>
               if constrained boundary_values (nth j dmap1 0)
               then col_setZero j Ae else Ae)
            (seq 0 (cols Ae)) Ae.

End LocalTensors.

(** ** The storage collaborator *)

Section Storage.
Context {S : Scalar}.

(** The physical matrix objects of one call: the matrix [A] passed to
    the assembler, and the sub-matrices of a MATNEST matrix. *)
Inductive MatId : Type := Parent | Sub (i j : nat).

#[export] Instance MatId_eq_dec : EqDecision MatId.
Proof. solve_decision. Defined.

Inductive MatType : Type := MATNEST | MATAIJ.

#[export] Instance MatType_eq_dec : EqDecision MatType.
Proof. solve_decision. Defined.

Inductive AssemblyType : Type := FINAL | FLUSH.

#[export] Instance AssemblyType_eq_dec : EqDecision AssemblyType.
Proof. solve_decision. Defined.

(** The allocation the assembler asks for when [A.empty()]. *)
Inductive MatInit : Type :=
| init_nest_matrix (forms : list (list (option Form.t)))
| init_monolithic_matrix (forms : list (list (option Form.t)))
| init_matrix (a : Form.t).

(** Modelled from the spec: the allocation functions are defined in
    utils.cpp, which is not verified here.  The nested
    allocation yields one physical sub-object per block (MATNEST); the
    other two yield one physical object. *)
Definition MatInit_type (init : MatInit) : MatType :=
  match init with
  | init_nest_matrix _ => MATNEST
  | _ => MATAIJ
  end.

(** The calls the assembler issues on the storage back end.  The
    entries of one [add_local]/[set_local] call are listed one by one,
    row-major, with the indices of the physical object they reach. *)
Inductive MatOp : Type :=
| MatAllocate (init : MatInit)
| MatAdd (m : MatId) (row col : nat) (v : double)
| MatSet (m : MatId) (row col : nat) (v : double)
| MatApply (m : MatId) (type : AssemblyType).

(** A matrix handle as the unblocked core receives it: a physical
    object, or the view [MatGetLocalSubMatrix(A, is0, is1)] of one,
    whose local index [k] stands for local index [is[k]] of [A]. *)
Inductive PETScMatrix : Type :=
| Mat (m : MatId)
| LocalSubMatrix (m : MatId) (is0 is1 : list nat).

Definition mat_id (A : PETScMatrix) : MatId :=
  match A with
  | Mat m => m
  | LocalSubMatrix m _ _ => m
  end.

Definition mat_row (A : PETScMatrix) (k : nat) : outcome nat :=
  match A with
  | Mat _ => Ok k
  | LocalSubMatrix _ is0 _ => deref (is0 !! k)
  end.

Definition mat_col (A : PETScMatrix) (k : nat) : outcome nat :=
  match A with
  | Mat _ => Ok k
  | LocalSubMatrix _ _ is1 => deref (is1 !! k)
  end.

(** [ISCreateBlock(comm, bs, n, idx, ..)]: index [b] of [idx] stands
    for the [bs] indices [b * bs, .., b * bs + bs - 1]. *)
Definition ISCreateBlock (bs : nat) (idx : list nat) : list nat :=
  flat_map (fun b => map (fun k => b * bs + k) (seq 0 bs)) idx.

(** [A.add_local(Ae.data(), n0, rows, n1, cols)] *)
Definition add_local (A : PETScMatrix) (Ae : EigenRowMatrixXd) (rows_ cols_ : list nat)
  : outcome (list MatOp) :=
  mapM (fun ij : nat * nat =>
          r ← mat_row A (nth ij.1 rows_ 0);
          c ← mat_col A (nth ij.2 cols_ 0);
          Ok (MatAdd (mat_id A) r c (coeff Ae ij.1 ij.2)))
       (flat_map (fun i => map (fun j => (i, j)) (seq 0 (length cols_)))
                 (seq 0 (length rows_))).

(** The entries of the physical matrices, by local index. *)
Definition MatState : Type := MatId -> nat -> nat -> double.

Definition zero_state : MatState := fun _ _ _ => dzero.

Definition run_op (op : MatOp) (st : MatState) : MatState :=
  match op with
  | MatAllocate _ => zero_state
  | MatAdd m r c v =>
      fun m' r' c' =>
        if bool_decide (m' = m /\ r' = r /\ c' = c) then dadd (st m' r' c') v
        else st m' r' c'
  | MatSet m r c v =>
      fun m' r' c' =>
        if bool_decide (m' = m /\ r' = r /\ c' = c) then v else st m' r' c'
  | MatApply _ _ => st
  end.

Definition run_ops (ops : list MatOp) (st : MatState) : MatState :=
  fold_left (fun st op => run_op op st) ops st.

(** A distributed vector by local index, with the number of [apply]
    calls made on it. *)
Record PETScVector : Type := {
  vec_values : nat -> double;
  vec_applied : nat
}.

Definition vec_update (f : double -> double) (k : nat) (b : PETScVector) : PETScVector :=
  {| vec_values := fun k' => if bool_decide (k' = k) then f (vec_values b k')
                             else vec_values b k';
     vec_applied := vec_applied b |}.

(** [b.add_local(values, n, rows)] and [b.set_local(values, n, rows)] *)
Definition vec_add_local (values : list double) (rows_ : list nat) (b : PETScVector)
  : PETScVector :=
  fold_left (fun b i => vec_update (fun x => dadd x (nth i values dzero)) (nth i rows_ 0) b)
            (seq 0 (length rows_)) b.

Definition vec_set_local (values : list double) (rows_ : list nat) (b : PETScVector)
  : PETScVector :=
  fold_left (fun b i => vec_update (fun _ => nth i values dzero) (nth i rows_ 0) b)
            (seq 0 (length values)) b.

Definition vec_apply (b : PETScVector) : PETScVector :=
  {| vec_values := vec_values b; vec_applied := Datatypes.S (vec_applied b) |}.

End Storage.

(** ** [Assembler] *)

Module Assembler.
Section WithScalar.
Context {S : Scalar}.

Record t : Type := {
  _a : list (list (option Form.t));
  _l : list (option Form.t);
  _bcs : list DirichletBC
}.

(** *** The unblocked core: [assemble(PETScMatrix& A, const Form& a, bcs)] *)

(** The work done for one cell of the cell loop. *)
Definition assemble_matrix_cell (A : PETScMatrix) (a : Form.t) (V0 V1 : FunctionSpace)
    (boundary_values : gmap nat double * gmap nat double) (cell : nat)
  : outcome (list MatOp) :=
  let dmap0 := cell_dofs (fs_dofmap V0) cell in
  let dmap1 := cell_dofs (fs_dofmap V1) cell in
  Ae ← tabulate_matrix a cell (length dmap0) (length dmap1);
  let Ae := zero_bc_rows boundary_values.1 dmap0 Ae in
  let Ae := zero_bc_cols boundary_values.2 dmap1 Ae in
  add_local A Ae dmap0 dmap1.

(** Boundary values by matrix axis. *)
Definition collect_axes (mpi_size : nat) (V0 V1 : FunctionSpace) (bcs : list DirichletBC)
  : gmap nat double * gmap nat double :=
  fold_left (fun bv bc => (collect_bc mpi_size V0 bv.1 bc, collect_bc mpi_size V1 bv.2 bc))
            bcs (∅, ∅).

Definition assemble_matrix_form (A : PETScMatrix) (a : Form.t) (bcs : list DirichletBC)
  : outcome (list MatOp) :=
  mesh ← Form.mesh a;
  p0 ← Form.function_space a 0;
  p1 ← Form.function_space a 1;
  V0 ← deref p0;
  V1 ← deref p1;
  let boundary_values := collect_axes (mesh_mpi_size mesh) V0 V1 bcs in
  opss ← mapM (assemble_matrix_cell A a V0 V1 boundary_values) (mesh_cells mesh);
  Ok (concat opss).

(** The loop over [bcs] that collects the boundary values of the space
    the pointer [p] refers to; [p] is dereferenced once per condition. *)
Definition collect_boundary_values (mpi_size : nat) (p : option FunctionSpace)
    (bcs : list DirichletBC) : outcome (gmap nat double) :=
  foldM (fun bv bc => V ← deref p; Ok (collect_bc mpi_size V bv bc))
        bcs (∅ : gmap nat double).

(** *** [assemble(PETScMatrix& A, BlockType block_type)] *)

Definition null_block_msg : string := "Null block not supported/tested yet.".

(** The array [forms] of raw pointers, of the shape of the first row. *)
Definition matrix_forms (a : list (list (option Form.t))) (n : nat)
  : outcome (list (list (option Form.t))) :=
  mapM (fun row : list (option Form.t) =>
          if bool_decide (length row ≤ n)
          then Ok (row ++ replicate (n - length row) None)
          else Undefined) a.

(** [if (A.empty()) ..]: the allocation that is asked for. *)
Definition assemble_matrix_init (asm : t) (block_type : BlockType) : outcome MatInit :=
  row0 ← deref (_a asm !! 0);
  let block_matrix := bool_decide (1 < length (_a asm)) || bool_decide (1 < length row0) in
  forms ← matrix_forms (_a asm) (length row0);
  if bool_decide (block_type = nested) then Ok (init_nest_matrix forms)
  else if block_matrix && bool_decide (block_type = monolithic)
  then Ok (init_monolithic_matrix forms)
  else
    p ← deref (row0 !! 0);
    a00 ← deref p;
    Ok (init_matrix a00).

(** The nested path: row [i] from column [j] on. *)
Fixpoint nested_row (bcs : list DirichletBC) (i j : nat) (row : list (option Form.t))
  : outcome (list MatOp) :=
  match row with
  | [] => Ok []
  | Some a :: row' =>
      ops ← assemble_matrix_form (Mat (Sub i j)) a bcs;
      ops' ← nested_row bcs i (Datatypes.S j) row';
      Ok (ops ++ ops')
  | None :: row' => nested_row bcs i (Datatypes.S j) row'
  end.

Fixpoint nested_rows (bcs : list DirichletBC) (i : nat) (a : list (list (option Form.t)))
  : outcome (list MatOp) :=
  match a with
  | [] => Ok []
  | row :: a' =>
      ops ← nested_row bcs i 0 row;
      ops' ← nested_rows bcs (Datatypes.S i) a';
      Ok (ops ++ ops')
  end.

(** The index set built for one axis of a block:
    [std::iota] from the running offset, then [ISCreateBlock]. *)
Definition block_index_set (map : IndexMap) (offset : nat) : list nat :=
  ISCreateBlock (block_size map) (seq offset (size_ALL map)).

(** The index map of the function space [i] of a form. *)
Definition form_index_map (a : Form.t) (i : nat) : outcome IndexMap :=
  p ← Form.function_space a i;
  V ← deref p;
  Ok (index_map (fs_dofmap V)).

(** The monolithic path: the loop over the columns of one row. *)
Fixpoint monolithic_row (bcs : list DirichletBC) (offset_row offset_col : nat)
    (row : list (option Form.t)) : outcome (list MatOp) :=
  match row with
  | [] => Ok []
  | Some a :: row' =>
      map0 ← form_index_map a 0;
      map1 ← form_index_map a 1;
      let mat := LocalSubMatrix Parent (block_index_set map0 offset_row)
                                       (block_index_set map1 offset_col) in
      ops ← assemble_matrix_form mat a bcs;
      ops' ← monolithic_row bcs offset_row (offset_col + size_ALL map1) row';
      Ok (ops ++ ops')
  | None :: _ => Error null_block_msg
  end.

(** The monolithic path: the loop over the rows. *)
Fixpoint monolithic_rows (bcs : list DirichletBC) (offset_row : nat)
    (a : list (list (option Form.t))) : outcome (list MatOp) :=
  match a with
  | [] => Ok []
  | row :: a' =>
      ops ← monolithic_row bcs offset_row 0 row;
      p ← deref (row !! 0);
      ai0 ← deref p;
      map0 ← form_index_map ai0 0;
      ops' ← monolithic_rows bcs (offset_row + size_ALL map0) a';
      Ok (ops ++ ops')
  end.

(** The single path: place '1' on the diagonal, after the core. *)
Definition place_ones (world_size : nat) (a : Form.t) (bcs : list DirichletBC)
  : outcome (list MatOp) :=
  p0 ← Form.function_space a 0;
  p1 ← Form.function_space a 1;
  if bool_decide (p0 = p1) then
    boundary_values ← collect_boundary_values world_size p0 bcs;
    Ok (map (fun bc : nat * double => MatSet Parent bc.1 bc.1 done_)
            (map_to_list boundary_values))
  else Ok [].

(** [A] is [None] when [A.empty()], and the type of the matrix
    otherwise; [world_size] is [MPI::size(MPI_COMM_WORLD)]. *)
Definition assemble_matrix (asm : t) (world_size : nat) (A : option MatType)
    (block_type : BlockType) : outcome (list MatOp) :=
  row0 ← deref (_a asm !! 0);
  let block_matrix := bool_decide (1 < length (_a asm)) || bool_decide (1 < length row0) in
  alloc ← match A with
          | Some mat_type => Ok ([], mat_type)
          | None => init ← assemble_matrix_init asm block_type;
                    Ok ([MatAllocate init], MatInit_type init)
          end;
  let is_matnest := bool_decide (alloc.2 = MATNEST) in
  ops ← (if is_matnest then nested_rows (_bcs asm) 0 (_a asm)
         else if block_matrix then
           ops ← monolithic_rows (_bcs asm) 0 (_a asm);
           Ok (ops ++ [MatApply Parent FINAL])
         else
           p ← deref (row0 !! 0);
           a00 ← deref p;
           ops ← assemble_matrix_form (Mat Parent) a00 (_bcs asm);
           ones ← place_ones world_size a00 (_bcs asm);
           Ok (ops ++ ones));
  Ok (alloc.1 ++ ops ++ [MatApply Parent FINAL]).

(** *** [assemble(PETScVector& b, BlockType block_type)]: allocation *)

Inductive VecInit : Type :=
| init_nest (forms : list (option Form.t))
| init_monolithic (forms : list (option Form.t))
| init_vector (L : Form.t).

(** [if (b.empty()) ..]: [forms] has [_a.size()] slots and is filled
    from [_l]. *)
Definition assemble_vector_init (asm : t) (block_type : BlockType) : outcome VecInit :=
  p0 ← deref (_l asm !! 0);
  let block_vector := bool_decide (1 < length (_l asm)) in
  forms ← (if bool_decide (length (_l asm) ≤ length (_a asm))
           then Ok (_l asm ++ replicate (length (_a asm) - length (_l asm)) None)
           else Undefined);
  if bool_decide (block_type = nested) then Ok (init_nest forms)
  else if block_vector && bool_decide (block_type = monolithic)
  then Ok (init_monolithic forms)
  else
    L0 ← deref p0;
    Ok (init_vector L0).

(** *** The unblocked linear-form core:
        [assemble(Eigen::Ref<EigenVectorXd> b, const Form& L)] *)

(** [b[k] += v] *)
Definition add_at (k : nat) (v : double) (b : list double) : outcome (list double) :=
  x ← deref (b !! k);
  Ok (<[k := dadd x v]> b).

Definition assemble_vector_cell (L : Form.t) (V : FunctionSpace) (b : list double)
    (cell : nat) : outcome (list double) :=
  let dmap := cell_dofs (fs_dofmap V) cell in
  be ← tabulate_vector L cell (length dmap);
  foldM (fun b i => add_at (nth i dmap 0) (nth i be dzero) b) (seq 0 (length dmap)) b.

Definition assemble_vector_form (b : list double) (L : Form.t) : outcome (list double) :=
  mesh ← Form.mesh L;
  p ← Form.function_space L 0;
  V ← deref p;
  foldM (assemble_vector_cell L V) (mesh_cells mesh) b.

(** *** [apply_bc] *)

(** Check if bc is applied to cell. *)
Definition has_bc (boundary_values : gmap nat double) (dmap1 : list nat) : bool :=
  existsb (constrained boundary_values) dmap1.

(** [be -= Ae.col(j) * value] *)
Definition sub_col (Ae : EigenRowMatrixXd) (j : nat) (value : double) (be : list double)
  : list double :=
  imap (fun i x => dsub x (dmul (coeff Ae i j) value)) be.

(** The loop over the columns [j] of the cell. *)
Definition lift_cell (boundary_values : gmap nat double) (dmap1 : list nat)
    (Ae : EigenRowMatrixXd) (be : list double) : list double :=
  fold_left (fun be j =>
               match boundary_values !! nth j dmap1 0 with
               | Some value => sub_col Ae j value be
               | None => be
               end)
            (seq 0 (length dmap1)) be.

(** The work done for one cell.  As in the source, [dmap0] is read
    from [dofmap1] ([auto dmap0 = dofmap1->cell_dofs(cell.index())]);
    [dofmap0] is fetched by [apply_bc] and not used. *)
Definition apply_bc_cell (a : Form.t) (dofmap0 dofmap1 : GenericDofMap)
    (boundary_values : gmap nat double) (b : PETScVector) (cell : nat)
  : outcome PETScVector :=
  let dmap1 := cell_dofs dofmap1 cell in
  if has_bc boundary_values dmap1 then
    let dmap0 := cell_dofs dofmap1 cell in
    Ae ← tabulate_matrix a cell (length dmap0) (length dmap1);
    let be := replicate (length dmap0) dzero in
    let be := lift_cell boundary_values dmap1 Ae be in
    Ok (vec_add_local be dmap0 b)
  else Ok b.

Definition apply_bc (b : PETScVector) (a : Form.t) (bcs : list DirichletBC)
  : outcome PETScVector :=
  mesh ← Form.mesh a;
  boundary_values ←
    foldM (fun bv bc =>
             p1 ← Form.function_space a 1;
             V1 ← deref p1;
             Ok (collect_bc (mesh_mpi_size mesh) V1 bv bc))
          bcs (∅ : gmap nat double);
  p0 ← Form.function_space a 0;
  V0 ← deref p0;
  p1 ← Form.function_space a 1;
  V1 ← deref p1;
  b ← foldM (apply_bc_cell a (fs_dofmap V0) (fs_dofmap V1) boundary_values)
            (mesh_cells mesh) b;
  Ok (vec_apply b).

(** *** [set_bc] *)

Definition set_bc (b : PETScVector) (L : Form.t) (bcs : list DirichletBC)
  : outcome PETScVector :=
  mesh ← Form.mesh L;
  V ← Form.function_space L 0;
  boundary_values ← collect_boundary_values (mesh_mpi_size mesh) V bcs;
  let bc := map_to_list boundary_values in
  let rows_ := bc.*1 in
  let values := bc.*2 in
  Ok (vec_apply (vec_set_local values rows_ b)).

(** *** [assemble(PETScVector& b, BlockType block_type)] *)

Inductive VecType : Type := VECNEST | VECMPI.

#[export] Instance VecType_eq_dec : EqDecision VecType.
Proof. solve_decision. Defined.

(** The vector [b] of the call, and the sub-vectors of a VECNEST
    vector. *)
Inductive VecId : Type := VecParent | VecSub (i : nat).

(** The vector as the assembler sees it: its type, and the local,
    ghost-including form of each vector object
    ([VecGhostGetLocalForm]; [None] when it has none). *)
Record VecTarget : Type := {
  vec_type : VecType;
  local_form : VecId -> option (list double)
}.

(** [VecGhostRestoreLocalForm] after the local form was assembled. *)
Definition restore_local_form (v : VecId) (b_local : list double) (b : VecTarget)
  : VecTarget :=
  {| vec_type := vec_type b;
     local_form := fun v' => match v, v' with
                             | VecParent, VecParent => Some b_local
                             | VecSub i, VecSub i' =>
                                 if bool_decide (i' = i) then Some b_local
                                 else local_form b v'
                             | _, _ => local_form b v'
                             end |}.

(** The calls on the vector back end besides the accesses to local
    forms: allocation, the accumulation of ghost values on the owning
    process ([VecGhostUpdateBegin/End] with [ADD_VALUES],
    [SCATTER_REVERSE]), one entry of [b.add(values, n, indices)],
    [b.apply()], and the warning printed for a null form. *)
Inductive VecOp : Type :=
| VecAllocate (init : VecInit)
| VecGhostUpdate (v : VecId)
| VecAdd (index : nat) (value : double)
| VecApply
| VecWarning.

(** The nested path, from block [i] on. *)
Fixpoint nested_vector (i : nat) (l : list (option Form.t)) (b : VecTarget)
  : outcome (VecTarget * list VecOp) :=
  match l with
  | [] => Ok (b, [])
  | Some L :: l' =>
      b_local ← deref (local_form b (VecSub i));
      b_local ← assemble_vector_form b_local L;
      rest ← nested_vector (Datatypes.S i) l'
                (restore_local_form (VecSub i) b_local b);
      Ok (rest.1, VecGhostUpdate (VecSub i) :: rest.2)
  | None :: l' =>
      rest ← nested_vector (Datatypes.S i) l' b;
      Ok (rest.1, VecWarning :: rest.2)
  end.

(** The monolithic path, from block [i] on.  [local_to_global] and
    [get_global_index] are [IndexMap::local_to_global] and
    [fem::get_global_index]. *)
Fixpoint monolithic_vector (local_to_global : IndexMap -> nat -> nat)
    (get_global_index : list IndexMap -> nat -> nat -> nat)
    (index_maps : list IndexMap) (i : nat) (l : list (option Form.t))
  : outcome (list VecOp) :=
  match l with
  | [] => Ok []
  | Some L :: l' =>
      map ← form_index_map L 0;
      let map_size := size_ALL map in
      b_local ← assemble_vector_form (replicate map_size dzero) L;
      rest ← monolithic_vector local_to_global get_global_index index_maps
                (Datatypes.S i) l';
      Ok (List.map (fun k => VecAdd (get_global_index index_maps i (local_to_global map k))
                                    (nth k b_local dzero))
                   (seq 0 map_size)
          ++ rest)
  | None :: l' =>
      monolithic_vector local_to_global get_global_index index_maps (Datatypes.S i) l'
  end.

(** [b] is [None] when [b.empty()]; [allocate] stands for the
    allocation functions [init_nest], [init_monolithic] and
    [init_vector]. *)
Definition assemble_vector (allocate : VecInit -> VecTarget)
    (local_to_global : IndexMap -> nat -> nat)
    (get_global_index : list IndexMap -> nat -> nat -> nat)
    (asm : t) (b : option VecTarget) (block_type : BlockType)
  : outcome (VecTarget * list VecOp) :=
  p0 ← deref (_l asm !! 0);
  let block_vector := bool_decide (1 < length (_l asm)) in
  alloc ← match b with
          | Some b => Ok (b, [])
          | None => init ← assemble_vector_init asm block_type;
                    Ok (allocate init, [VecAllocate init])
          end;
  if bool_decide (vec_type alloc.1 = VECNEST) then
    res ← nested_vector 0 (_l asm) alloc.1;
    Ok (res.1, alloc.2 ++ res.2)
  else if block_vector then
    index_maps ← mapM (fun p : option Form.t => L ← deref p; form_index_map L 0) (_l asm);
    ops ← monolithic_vector local_to_global get_global_index index_maps 0 (_l asm);
    Ok (alloc.1, alloc.2 ++ ops ++ [VecApply])
  else
    L0 ← deref p0;
    b_local ← deref (local_form alloc.1 VecParent);
    b_local ← assemble_vector_form b_local L0;
    Ok (restore_local_form VecParent b_local alloc.1, alloc.2 ++ [VecGhostUpdate VecParent]).

End WithScalar.
Arguments t : clear implicits.
Arguments t {S}.
End Assembler.

(** ** Concrete inputs

    Small meshes, spaces, forms and boundary conditions over exact
    integers, on which the model is run. *)

Module Ex.

(** An interval mesh of four cells and five vertices, one process. *)
Definition mesh4 : Mesh :=
  {| mesh_id := 0; mesh_cells := [0; 1; 2; 3]; mesh_mpi_size := 1 |}.

(** A second mesh object. *)
Definition mesh_other : Mesh :=
  {| mesh_id := 1; mesh_cells := [0]; mesh_mpi_size := 1 |}.

(** Continuous piecewise linears on [mesh4]. *)
Definition P1 : FunctionSpace :=
  {| fs_id := 0; fs_mesh := Some mesh4;
     fs_element := Some {| signature := "P1" |};
     fs_dofmap := {| dofmap_table := [[0; 1]; [1; 2]; [2; 3]; [3; 4]];
                     index_map := {| size_ALL := 5; block_size := 1 |} |};
     fs_root_space_id := 0; fs_component := [] |}.

(** Discontinuous piecewise linears on [mesh4]. *)
Definition DG1 : FunctionSpace :=
  {| fs_id := 1; fs_mesh := Some mesh4;
     fs_element := Some {| signature := "DG1" |};
     fs_dofmap := {| dofmap_table := [[0; 1]; [2; 3]; [4; 5]; [6; 7]];
                     index_map := {| size_ALL := 8; block_size := 1 |} |};
     fs_root_space_id := 1; fs_component := [] |}.

(** Piecewise constants on [mesh4]. *)
Definition DG0 : FunctionSpace :=
  {| fs_id := 2; fs_mesh := Some mesh4;
     fs_element := Some {| signature := "DG0" |};
     fs_dofmap := {| dofmap_table := [[0]; [1]; [2]; [3]];
                     index_map := {| size_ALL := 4; block_size := 1 |} |};
     fs_root_space_id := 2; fs_component := [] |}.

(** Piecewise constant vector fields with two components per cell. *)
Definition DG0v : FunctionSpace :=
  {| fs_id := 3; fs_mesh := Some mesh4;
     fs_element := Some {| signature := "DG0v" |};
     fs_dofmap := {| dofmap_table := [[0; 1]; [2; 3]; [4; 5]; [6; 7]];
                     index_map := {| size_ALL := 8; block_size := 2 |} |};
     fs_root_space_id := 3; fs_component := [] |}.

(** A space on the other mesh. *)
Definition P1_other : FunctionSpace :=
  {| fs_id := 4; fs_mesh := Some mesh_other;
     fs_element := Some {| signature := "P1" |};
     fs_dofmap := {| dofmap_table := [[0; 1]];
                     index_map := {| size_ALL := 2; block_size := 1 |} |};
     fs_root_space_id := 4; fs_component := [] |}.

Definition form (u : option ufc_form) (Vs : list (option FunctionSpace))
    (cs : list (option GenericFunction)) (kernel : nat -> list Z) : Form.t :=
  {| Form._ufc_form := u; Form._function_spaces := Vs; Form._coefficients := cs;
     Form._mesh := None; Form.dx := None; Form.ds := None; Form.dS := None;
     Form.dP := None; Form.tabulate_tensor := kernel |}.

(** The stiffness form of the 1D Poisson problem on [P1]. *)
Definition stiffness : Form.t :=
  form None [Some P1; Some P1] [] (fun _ => [1; -1; -1; 1]%Z).

(** A source term on [P1]. *)
Definition source : Form.t :=
  form None [Some P1] [] (fun _ => [1; 1]%Z).

(** Value 0 at vertex 0 and value 1 at vertex 4. *)
Definition bc_ends : DirichletBC :=
  {| bc_function_space := P1; method := topological;
     bc_local_values := {[ 0 := 0%Z; 4 := 1%Z ]}; bc_remote_values := ∅ |}.

(** A bilinear form with test space [DG1] and trial space [P1]. *)
Definition coupling : Form.t :=
  form None [Some DG1; Some P1] [] (fun _ => [1; 2; 3; 4]%Z).

(** A mass form on [DG0], and one on [DG0v]. *)
Definition mass0 : Form.t :=
  form None [Some DG0; Some DG0] [] (fun _ => [1]%Z).
Definition mass0v : Form.t :=
  form None [Some DG0v; Some DG0v] [] (fun _ => [1; 0; 0; 1]%Z).
Definition cross01 : Form.t :=
  form None [Some DG0; Some DG0v] [] (fun _ => [1; 1]%Z).
Definition cross10 : Form.t :=
  form None [Some DG0v; Some DG0] [] (fun _ => [1; 1]%Z).
Definition cross0P : Form.t :=
  form None [Some DG0; Some P1] [] (fun _ => [1; 1]%Z).
Definition crossP0 : Form.t :=
  form None [Some P1; Some DG0] [] (fun _ => [1; 1]%Z).

(** The stiffness form declared with a quadratic element by its
    generated code. *)
Definition stiffness_P2_expected : Form.t :=
  form (Some {| ufc_rank := 2; ufc_num_coefficients := 0;
                ufc_element_signature := fun _ => "P2" |})
       [Some P1; Some P1] [] (fun _ => [1; -1; -1; 1]%Z).

(** The stiffness form with a coefficient that lives on another mesh. *)
Definition stiffness_foreign_coefficient : Form.t :=
  form None [Some P1; Some P1] [Some (Function P1_other)]
       (fun _ => [1; -1; -1; 1]%Z).

(** The stiffness form with a cell marker that lives on another mesh. *)
Definition stiffness_foreign_marker : Form.t :=
  {| Form._ufc_form := None; Form._function_spaces := [Some P1; Some P1];
     Form._coefficients := []; Form._mesh := None;
     Form.dx := Some {| mf_mesh := mesh_other |};
     Form.ds := None; Form.dS := None; Form.dP := None;
     Form.tabulate_tensor := fun _ => [1; -1; -1; 1]%Z |}.

(** A source term on [P1] in [double] arithmetic, with the local
    vector (1.8, 0.1) on every cell. *)
Definition source_double : @Form.t binary64 :=
  @Form.Build_t binary64 None [Some P1] [] None None None None None
    (fun _ => [0x1.ccccccccccccdp+0%float; 0x1.999999999999ap-4%float]).

(** A one-block system, a 2x2 system with a vector-valued second
    field, and a 2x2 system of scalar fields. *)
Definition poisson : Assembler.t :=
  {| Assembler._a := [[Some stiffness]]; Assembler._l := [Some source];
     Assembler._bcs := [bc_ends] |}.

Definition mixed_vector : Assembler.t :=
  {| Assembler._a := [[Some mass0; Some cross01]; [Some cross10; Some mass0v]];
     Assembler._l := [None; None]; Assembler._bcs := [] |}.

Definition mixed_scalar : Assembler.t :=
  {| Assembler._a := [[Some stiffness; Some crossP0]; [Some cross0P; Some mass0]];
     Assembler._l := [Some source; None]; Assembler._bcs := [bc_ends] |}.

(** The one-block system of the form with the quadratic declaration. *)
Definition poisson_P2_expected : Assembler.t :=
  {| Assembler._a := [[Some stiffness_P2_expected]]; Assembler._l := [Some source];
     Assembler._bcs := [] |}.

(** A 2x2 system without its second diagonal block. *)
Definition null_diagonal : Assembler.t :=
  {| Assembler._a := [[Some stiffness; Some crossP0]; [Some cross0P; None]];
     Assembler._l := [Some source; None]; Assembler._bcs := [bc_ends] |}.

(** A vector that holds 7 everywhere. *)
Definition sevens : PETScVector := {| vec_values := fun _ => 7%Z; vec_applied := 0 |}.

(** A source term on [DG0]. *)
Definition source0 : Form.t :=
  form None [Some DG0] [] (fun _ => [2]%Z).

(** The value 3 prescribed at dof 0 of [DG0]. *)
Definition bc_cell0 : DirichletBC :=
  {| bc_function_space := DG0; method := topological;
     bc_local_values := {[ 0 := 3%Z ]}; bc_remote_values := ∅ |}.

(** A linear form whose function space is a null pointer, with its
    mesh set directly. *)
Definition spaceless : Form.t :=
  Form.set_mesh (form None [None] [] (fun _ => [])) (Some mesh4).

(** The 2x2 system of scalar fields with both linear forms. *)
Definition mixed_loaded : Assembler.t :=
  {| Assembler._a := [[Some stiffness; Some crossP0]; [Some cross0P; Some mass0]];
     Assembler._l := [Some source; Some source0]; Assembler._bcs := [bc_ends] |}.

(** A collection whose second row is longer than its first, and one
    with more linear forms than rows. *)
Definition ragged : Assembler.t :=
  {| Assembler._a := [[Some stiffness]; [Some cross0P; Some mass0]];
     Assembler._l := [Some source; Some source0]; Assembler._bcs := [] |}.

Definition surplus_load : Assembler.t :=
  {| Assembler._a := [[Some stiffness]];
     Assembler._l := [Some source; Some source0]; Assembler._bcs := [] |}.

(** A VECNEST vector with zero sub-vectors for [P1] and [DG0], and a
    plain vector of their combined size. *)
Definition nest_vector : Assembler.VecTarget :=
  {| Assembler.vec_type := Assembler.VECNEST;
     Assembler.local_form := fun v => match v with
                                      | Assembler.VecSub 0 => Some [0; 0; 0; 0; 0]%Z
                                      | Assembler.VecSub 1 => Some [0; 0; 0; 0]%Z
                                      | _ => None
                                      end |}.

Definition plain_vector : Assembler.VecTarget :=
  {| Assembler.vec_type := Assembler.VECMPI;
     Assembler.local_form := fun v => match v with
                                      | Assembler.VecParent => Some (replicate 9 0%Z)
                                      | _ => None
                                      end |}.

Definition allocate (init : Assembler.VecInit) : Assembler.VecTarget :=
  match init with
  | Assembler.init_nest _ => nest_vector
  | _ => plain_vector
  end.

(** Index maps on one process: local indices are global indices, and
    the combined index of block [i] follows the entries of the blocks
    before it. *)
Definition local_to_global (_ : IndexMap) (k : nat) : nat := k.

Definition get_global_index (index_maps : list IndexMap) (i k : nat) : nat :=
  sum_list (size_ALL <$> take i index_maps) + k.

End Ex.

(** ** Notions used in the statements *)

Section Notions.
Context {S : Scalar}.

(** Two forms with the same function spaces, the same mesh set with
    [set_mesh] and the same markers; their coefficients may differ. *)
Definition same_spaces_and_markers (f f' : Form.t) : Prop :=
  Form._function_spaces f' = Form._function_spaces f
  /\ Form._mesh f' = Form._mesh f
  /\ Form.dx f' = Form.dx f /\ Form.ds f' = Form.ds f
  /\ Form.dS f' = Form.dS f /\ Form.dP f' = Form.dP f.

(** [m] is one of the meshes that [mesh()] collects before it looks at
    coefficients: the mesh of a non-null function space of the form,
    the mesh set with [set_mesh], or the mesh of an attached marker. *)
Definition primary_source (f : Form.t) (m : Mesh) : Prop :=
  (exists V, Some V ∈ Form._function_spaces f /\ fs_mesh V = Some m)
  \/ Form._mesh f = Some m
  \/ (exists mf, Some mf ∈ [Form.dx f; Form.ds f; Form.dS f; Form.dP f]
                  /\ mf_mesh mf = m).

(** [m] is the mesh of the function space of a coefficient that is a
    [Function]. *)
Definition coefficient_source (f : Form.t) (m : Mesh) : Prop :=
  exists V, Some (Function V) ∈ Form._coefficients f /\ fs_mesh V = Some m.

(** The assertion of [mesh()] holds: every non-null function space of
    the form has a mesh. *)
Definition spaces_have_meshes (f : Form.t) : Prop :=
  Forall (fun p : option FunctionSpace => forall V, p = Some V -> is_Some (fs_mesh V))
         (Form._function_spaces f).

(** Every coefficient of the form has been set: no pointer is null. *)
Definition coefficients_set (f : Form.t) : Prop :=
  Forall is_Some (Form._coefficients f).

(** Every argument function space of the form is a valid pointer to a
    space that has an element. *)
Definition arguments_valid (f : Form.t) : Prop :=
  Forall (fun p : option FunctionSpace =>
            exists V e, p = Some V /\ fs_element V = Some e)
         (Form._function_spaces f).

(** An additive insertion moved by a row and a column offset. *)
Definition shift_op (offset_row offset_col : nat) (op : MatOp) : MatOp :=
  match op with
  | MatAdd m r c v => MatAdd m (offset_row + r) (offset_col + c) v
  | _ => op
  end.

(** The storage call inserts (adds or sets) at entry [(r, c)] of [m]. *)
Definition inserts_at (m : MatId) (r c : nat) (op : MatOp) : bool :=
  match op with
  | MatAdd m' r' c' _ | MatSet m' r' c' _ => bool_decide (m' = m /\ r' = r /\ c' = c)
  | _ => false
  end.

(** The storage call inserts (adds or sets) in row [r] of [m]. *)
Definition inserts_in_row (m : MatId) (r : nat) (op : MatOp) : bool :=
  match op with
  | MatAdd m' r' _ _ | MatSet m' r' _ _ => bool_decide (m' = m /\ r' = r)
  | _ => false
  end.

(** The storage call touches the object [m]. *)
Definition op_on (m : MatId) (op : MatOp) : bool :=
  match op with
  | MatAdd m' _ _ _ | MatSet m' _ _ _ | MatApply m' _ => bool_decide (m' = m)
  | MatAllocate _ => false
  end.

(** The storage call is the finalizing barrier of the object [m]. *)
Definition is_final (m : MatId) (op : MatOp) : bool :=
  match op with
  | MatApply m' FINAL => bool_decide (m' = m)
  | _ => false
  end.

Definition final_count (m : MatId) (ops : list MatOp) : nat :=
  length (filter (fun op => is_final m op = true) ops).

(** [op'] is the insertion [op] seen through the index sets of a
    view. *)
Definition through_view (is0 is1 : list nat) (op op' : MatOp) : Prop :=
  exists m r c v r' c',
    op = MatAdd m r c v /\ op' = MatAdd m r' c' v
    /\ is0 !! r = Some r' /\ is1 !! c = Some c'.

(** The target is, or is allocated as, a MATNEST matrix; or as one
    physical object. *)
Definition nested_target (A : option MatType) (block_type : BlockType) : Prop :=
  A = Some MATNEST \/ (A = None /\ block_type = nested).

Definition plain_target (A : option MatType) (block_type : BlockType) : Prop :=
  A = Some MATAIJ \/ (A = None /\ block_type <> nested).

(** The collection has more than one row or more than one column. *)
Definition multi_block (a : list (list (option Form.t))) : Prop :=
  exists row0, a !! 0 = Some row0 /\ (1 < length a \/ 1 < length row0).

(** The storage call is an allocation; an insertion. *)
Definition allocation (op : MatOp) : Prop := exists init, op = MatAllocate init.

Definition insertion (m : MatId) (op : MatOp) : Prop :=
  exists r c v, op = MatAdd m r c v \/ op = MatSet m r c v.

(** The storage call is an additive insertion; a finalization; the
    set of a diagonal entry of the matrix to one. *)
Definition additive (op : MatOp) : Prop := exists m r c v, op = MatAdd m r c v.

Definition finalization (op : MatOp) : Prop := exists m ty, op = MatApply m ty.

Definition sets_diagonal_one (op : MatOp) : Prop := exists k, op = MatSet Parent k k done_.

(** The values that the additive insertions of [ops] add to entry
    [(r, c)] of [m], in the order of the calls. *)
Definition contributions (m : MatId) (r c : nat) (ops : list MatOp) : list double :=
  omap (fun op => match op with
                  | MatAdd m' r' c' v =>
                      if bool_decide (m = m' /\ r = r' /\ c = c') then Some v else None
                  | _ => None
                  end) ops.

(** The pairs (dof, value) that the linear-form core adds for one
    cell, in order; the values it adds to entry [k] over the cells of
    the mesh, in the order of the cell loop. *)
Definition cell_contributions (L0 : Form.t) (V : FunctionSpace) (cell : nat)
  : list (nat * double) :=
  let dmap := cell_dofs (fs_dofmap V) cell in
  map (fun i => (nth i dmap 0, nth i (Form.tabulate_tensor L0 cell) dzero))
      (seq 0 (length dmap)).

Definition contributions_at (k : nat) (pairs : list (nat * double)) : list double :=
  omap (fun p : nat * double => if bool_decide (p.1 = k) then Some p.2 else None) pairs.

Definition vector_contributions (L0 : Form.t) (V : FunctionSpace) (mesh : Mesh) (k : nat)
  : list double :=
  contributions_at k (flat_map (cell_contributions L0 V) (mesh_cells mesh)).

(** What the specification asks of [apply_bc] on one cell: the lifted
    local vector is added at the row dofs of the cell, those of
    function space 0 of the form. *)
Definition apply_bc_cell_spec (a : Form.t) (dofmap0 dofmap1 : GenericDofMap)
    (boundary_values : gmap nat double) (b : PETScVector) (cell : nat)
  : outcome PETScVector :=
  let dmap1 := cell_dofs dofmap1 cell in
  if Assembler.has_bc boundary_values dmap1 then
    let dmap0 := cell_dofs dofmap0 cell in
    Ae ← tabulate_matrix a cell (length dmap0) (length dmap1);
    let be := replicate (length dmap0) dzero in
    let be := Assembler.lift_cell boundary_values dmap1 Ae be in
    Ok (vec_add_local be dmap0 b)
  else Ok b.

Definition apply_bc_spec (b : PETScVector) (a : Form.t) (bcs : list DirichletBC)
  : outcome PETScVector :=
  mesh ← Form.mesh a;
  boundary_values ←
    foldM (fun bv bc =>
             p1 ← Form.function_space a 1;
             V1 ← deref p1;
             Ok (collect_bc (mesh_mpi_size mesh) V1 bv bc))
          bcs (∅ : gmap nat double);
  p0 ← Form.function_space a 0;
  V0 ← deref p0;
  p1 ← Form.function_space a 1;
  V1 ← deref p1;
  b ← foldM (apply_bc_cell_spec a (fs_dofmap V0) (fs_dofmap V1) boundary_values)
            (mesh_cells mesh) b;
  Ok (vec_apply b).

(** The insertions that the unblocked matrix core makes for one cell
    on a physical matrix, written out: the dense local tensor of the
    kernel, row-major, with zero in place of the entries of
    constrained row dofs and of constrained column dofs. *)
Definition cell_insertions (m : MatId) (a : Form.t) (V0 V1 : FunctionSpace)
    (bv : gmap nat double * gmap nat double) (cell : nat) : list MatOp :=
  let dmap0 := cell_dofs (fs_dofmap V0) cell in
  let dmap1 := cell_dofs (fs_dofmap V1) cell in
  flat_map (fun i =>
              map (fun j =>
                     MatAdd m (nth i dmap0 0) (nth j dmap1 0)
                       (if constrained bv.1 (nth i dmap0 0)
                           || constrained bv.2 (nth j dmap1 0)
                        then dzero
                        else nth (i * length dmap1 + j) (Form.tabulate_tensor a cell) dzero))
                  (seq 0 (length dmap1)))
           (seq 0 (length dmap0)).

(** The kernel of the form writes, on every cell of the mesh, no more
    values than the local tensor of the cell holds. *)
Definition kernel_fits (a : Form.t) (V0 V1 : FunctionSpace) (mesh : Mesh) : Prop :=
  Forall (fun cell =>
            length (Form.tabulate_tensor a cell)
            <= length (cell_dofs (fs_dofmap V0) cell)
               * length (cell_dofs (fs_dofmap V1) cell))
         (mesh_cells mesh).

(** [m] is the row index map of the first block of a row; the
    column index map of a block. *)
Definition row_index_map (row : list (option Form.t)) (m : IndexMap) : Prop :=
  exists g, row !! 0 = Some (Some g) /\ Assembler.form_index_map g 0 = Ok m.

Definition column_index_map (p : option Form.t) (m : IndexMap) : Prop :=
  exists g, p = Some g /\ Assembler.form_index_map g 1 = Ok m.

(** The kernel of the linear form writes, on every cell, no more
    values than the cell has dofs; every dof of every cell is an index
    of a buffer of [n] entries. *)
Definition vector_kernel_fits (L0 : Form.t) (V : FunctionSpace) (mesh : Mesh) : Prop :=
  Forall (fun cell => length (Form.tabulate_tensor L0 cell)
                      <= length (cell_dofs (fs_dofmap V) cell))
         (mesh_cells mesh).

Definition dofs_in_range (V : FunctionSpace) (mesh : Mesh) (n : nat) : Prop :=
  Forall (fun cell => Forall (fun k => k < n) (cell_dofs (fs_dofmap V) cell))
         (mesh_cells mesh).

(** The call that the nested vector path makes for block [i]: the
    accumulation of the ghost values of sub-vector [i], or the warning
    for a null form. *)
Definition nested_vector_call (i : nat) (p : option Form.t) : Assembler.VecOp :=
  match p with
  | Some _ => Assembler.VecGhostUpdate (Assembler.VecSub i)
  | None => Assembler.VecWarning
  end.

(** The vector is, or is allocated as, a vector that is not VECNEST. *)
Definition plain_vector (allocate : Assembler.VecInit -> Assembler.VecTarget)
    (b : option Assembler.VecTarget) : Prop :=
  match b with
  | Some t => Assembler.vec_type t = Assembler.VECMPI
  | None => forall init, Assembler.vec_type (allocate init) = Assembler.VECMPI
  end.

End Notions.

(** * Properties *)

(** ** Outcomes *)

Lemma bind_Ok {A B : Type} (m : outcome A) (f : A -> outcome B) (y : B) :
  m ≫= f = Ok y <-> exists x, m = Ok x /\ f x = Ok y.
Proof.
  destruct m as [x|msg|]; simpl; split.
  - intros H. exists x. split; [reflexivity | exact H].
  - intros (x' & Hx & Hf). injection Hx as ->. exact Hf.
  - discriminate.
  - intros (x' & Hx & _). discriminate.
  - discriminate.
  - intros (x' & Hx & _). discriminate.
Qed.

(** Invert a hypothesis [H : (x ← m; k) = Ok y] as far as it goes. *)
Ltac ok_inv H :=
  repeat match type of H with
  | mbind _ ?m = Ok _ =>
      let x := fresh "x" in
      let Hx := fresh "Hx" in
      apply bind_Ok in H; destruct H as (x & Hx & H)
  | Ok _ = Ok _ => injection H as H
  end.

Lemma deref_Ok {A : Type} (p : option A) (x : A) : deref p = Ok x <-> p = Some x.
Proof. destruct p; simpl; split; congruence. Qed.



Lemma mapM_Ok_Forall2 {A B : Type} (f : A -> outcome B) (l : list A) (ys : list B) :
  mapM f l = Ok ys <-> Forall2 (fun x y => f x = Ok y) l ys.
Proof.
  revert ys. induction l as [|x l IH]; simpl; intros ys; split.
  - intros H. injection H as <-. constructor.
  - intros H. inversion H. reflexivity.
  - intros H. ok_inv H. subst ys. constructor; [assumption | by apply IH].
  - intros H. inversion H as [|? y ? ys' Hy Hys]; subst.
    rewrite Hy. simpl. apply IH in Hys. rewrite Hys. reflexivity.
Qed.

(** ** [Form::mesh] and [Form::check] *)

Section FormProperties.
Context {S : Scalar}.

Lemma all_same_true (ms : list Mesh) :
  Form.all_same ms = true <-> forall m1 m2, m1 ∈ ms -> m2 ∈ ms -> m1 = m2.
Proof.
  induction ms as [|m0 [|m1 ms] IH].
  - split; [|reflexivity]. intros _ m1 m2 H. inversion H.
  - split; [|reflexivity]. intros _ a b Ha Hb.
    apply list_elem_of_singleton in Ha, Hb. congruence.
  - change (Form.all_same (m0 :: m1 :: ms))
      with (bool_decide (m1 = m0) && Form.all_same (m1 :: ms)).
    rewrite andb_true_iff, bool_decide_eq_true, IH. split.
    + intros [-> H] a b Ha Hb.
      assert (Hall : forall x, x ∈ m0 :: m0 :: ms -> x = m0).
      { intros x Hx. apply elem_of_cons in Hx as [->|Hx]; [reflexivity|].
        apply (H x m0 Hx). left. }
      rewrite (Hall a Ha), (Hall b Hb). reflexivity.
    + intros H. split.
      * apply H; [right; left | left].
      * intros a b Ha Hb. apply H; right; assumption.
Qed.

Lemma all_same_false (ms : list Mesh) :
  Form.all_same ms = false <-> exists m1 m2, m1 ∈ ms /\ m2 ∈ ms /\ m1 <> m2.
Proof.
  split.
  - induction ms as [|m0 [|m1 ms] IH]; try discriminate.
    change (Form.all_same (m0 :: m1 :: ms))
      with (bool_decide (m1 = m0) && Form.all_same (m1 :: ms)).
    rewrite andb_false_iff, bool_decide_eq_false. intros [Hne|H].
    + exists m1, m0. split; [right; left|]. split; [left | assumption].
    + destruct (IH H) as (a & b & Ha & Hb & Hne).
      exists a, b. split; [right; assumption|]. split; [right; assumption | assumption].
  - intros (m1 & m2 & H1 & H2 & Hne).
    destruct (Form.all_same ms) eqn:E; [|reflexivity].
    exfalso. apply Hne. eapply all_same_true; eassumption.
Qed.

Lemma primary_meshes_same (f f' : Form.t) :
  same_spaces_and_markers f f' -> Form.primary_meshes f' = Form.primary_meshes f.
Proof.
  intros (H1 & H2 & H3 & H4 & H5 & H6). unfold Form.primary_meshes.
  rewrite H1, H2, H3, H4, H5, H6. reflexivity.
Qed.

(** The mesh of a form whose function spaces, set mesh or markers
    provide at least one mesh. *)
Lemma mesh_of_primary (f : Form.t) (m0 : Mesh) (ms : list Mesh) :
  Form.primary_meshes f = Ok (m0 :: ms) ->
  Form.mesh f = if Form.all_same (m0 :: ms) then Ok m0 else Error Form.non_matching_msg.
Proof. intros H. unfold Form.mesh. rewrite H. reflexivity. Qed.

(** The mesh of a form whose function spaces, set mesh and markers
    provide no mesh, and whose coefficients can all be looked at. *)
Lemma mesh_of_coefficients (f : Form.t) (ms : list Mesh) :
  Form.primary_meshes f = Ok [] ->
  Form.coefficient_meshes f = Ok ms ->
  Form.mesh f = match ms with
                | [] => Error Form.no_mesh_msg
                | m0 :: _ => if Form.all_same ms then Ok m0
                             else Error Form.non_matching_msg
                end.
Proof. intros H Hc. unfold Form.mesh. rewrite H. simpl. rewrite Hc. reflexivity. Qed.

(** A null coefficient is dereferenced as soon as the coefficients are
    looked at. *)
Lemma coefficient_meshes_null (f : Form.t) :
  None ∈ Form._coefficients f -> Form.coefficient_meshes f = Undefined.
Proof.
  unfold Form.coefficient_meshes. intros Hin.
  assert (H : mapM Form.coefficient_mesh (Form._coefficients f) = Undefined).
  { induction (Form._coefficients f) as [|c cs IH]; [inversion Hin|].
    apply elem_of_cons in Hin as [<- | Hin]; [reflexivity|].
    simpl. destruct (Form.coefficient_mesh c) as [ms| |] eqn:Hc; simpl.
    - rewrite (IH Hin). reflexivity.
    - destruct c as [[V|]|]; discriminate.
    - reflexivity. }
  rewrite H. reflexivity.
Qed.

Lemma option_list_elem {A : Type} (mx : option A) (x : A) :
  x ∈ option_list mx <-> mx = Some x.
Proof.
  destruct mx as [y|]; simpl.
  - rewrite list_elem_of_singleton. split; congruence.
  - split; [intros H; inversion H | discriminate].
Qed.

Lemma function_space_meshes_spec (Vs : list (option FunctionSpace)) :
  Forall (fun p : option FunctionSpace => forall V, p = Some V -> is_Some (fs_mesh V)) Vs ->
  exists ms, Form.function_space_meshes Vs = Ok ms
             /\ forall m, m ∈ ms <-> exists V, Some V ∈ Vs /\ fs_mesh V = Some m.
Proof.
  induction 1 as [|[V|] Vs HV _ (ms & Hms & Hspec)].
  - exists []. split; [reflexivity|]. intros m. split.
    + intros H. inversion H.
    + intros (V & H & _). inversion H.
  - destruct (HV V eq_refl) as [m0 Hm0]. exists (m0 :: ms). split.
    + simpl. rewrite Hm0. simpl. rewrite Hms. reflexivity.
    + intros m. rewrite elem_of_cons, Hspec. split.
      * intros [-> | (W & HW & Hm)]; [exists V | exists W]; split; auto; [left | right; auto].
      * intros (W & HW & Hm). apply elem_of_cons in HW as [[= ->] | HW].
        -- left. congruence.
        -- right. eauto.
  - exists ms. split; [exact Hms|]. intros m. rewrite Hspec. split.
    + intros (W & HW & Hm). exists W. split; [right|]; auto.
    + intros (W & HW & Hm). apply elem_of_cons in HW as [[=] | HW]. eauto.
Qed.

Lemma marker_mesh_elem (d : option MeshFunction) (m : Mesh) :
  m ∈ Form.marker_mesh d <-> exists mf, d = Some mf /\ mf_mesh mf = m.
Proof.
  destruct d as [mf|]; simpl.
  - rewrite list_elem_of_singleton. split.
    + intros ->. eauto.
    + intros (mf' & [= <-] & <-). reflexivity.
  - split; [intros H; inversion H | intros (mf & [=] & _)].
Qed.

(** The meshes collected before the coefficients are looked at are
    those of the function spaces, of [set_mesh] and of the markers. *)
Lemma primary_meshes_spec (f : Form.t) :
  spaces_have_meshes f ->
  exists ms, Form.primary_meshes f = Ok ms /\ forall m, m ∈ ms <-> primary_source f m.
Proof.
  intros Hspaces. destruct (function_space_meshes_spec _ Hspaces) as (ms & Hms & Hspec).
  eexists. split; [unfold Form.primary_meshes; rewrite Hms; reflexivity|].
  intros m. unfold primary_source.
  rewrite !elem_of_app, !marker_mesh_elem, Hspec, option_list_elem.
  split.
  - intros [H | [H | [H | [H | [H | H]]]]]; [left; exact H | right; left; exact H | ..];
      destruct H as (mf & Hd & Hm); right; right; exists mf; (split; [|exact Hm]);
      rewrite <- Hd.
    + apply list_elem_of_here.
    + apply list_elem_of_further, list_elem_of_here.
    + do 2 apply list_elem_of_further. apply list_elem_of_here.
    + do 3 apply list_elem_of_further. apply list_elem_of_here.
  - intros [H | [H | (mf & Hd & Hm)]]; [left; exact H | right; left; exact H |].
    right. right.
    apply elem_of_cons in Hd as [Hd | Hd]; [left; eauto|]. right.
    apply elem_of_cons in Hd as [Hd | Hd]; [left; eauto|]. right.
    apply elem_of_cons in Hd as [Hd | Hd]; [left; eauto|]. right.
    apply list_elem_of_singleton in Hd. eauto.
Qed.

(** The meshes that the coefficients provide, when every coefficient
    is set. *)
Lemma coefficient_meshes_spec (f : Form.t) :
  coefficients_set f ->
  exists ms, Form.coefficient_meshes f = Ok ms
             /\ forall m, m ∈ ms <-> coefficient_source f m.
Proof.
  unfold coefficients_set, Form.coefficient_meshes, coefficient_source.
  induction 1 as [|c cs [g ->] _ (ms & Hms & Hspec)].
  - exists []. split; [reflexivity|]. intros m. split.
    + intros H. inversion H.
    + intros (V & H & _). inversion H.
  - apply bind_Ok in Hms as (mss & Hmss & [= <-]).
    destruct g as [V|].
    + exists (option_list (fs_mesh V) ++ concat mss). split.
      * simpl. rewrite Hmss. reflexivity.
      * intros m. rewrite elem_of_app, option_list_elem, Hspec. split.
        -- intros [Hm | (W & HW & Hm)]; [exists V | exists W]; split; auto; [left | right; auto].
        -- intros (W & HW & Hm). apply elem_of_cons in HW as [[= ->] | HW]; [left; auto|].
           right. eauto.
    + exists (concat mss). split.
      * simpl. rewrite Hmss. reflexivity.
      * intros m. rewrite Hspec. split.
        -- intros (W & HW & Hm). exists W. split; [right|]; auto.
        -- intros (W & HW & Hm). apply elem_of_cons in HW as [[=] | HW]. eauto.
Qed.

(** The outcome of the final check on a list of meshes that holds [m]. *)
Lemma cross_check (ms : list Mesh) (m : Mesh) :
  m ∈ ms ->
  ((forall m', m' ∈ ms -> m' = m) ->
     match ms with
     | [] => Error Form.no_mesh_msg
     | m0 :: _ => if Form.all_same ms then Ok m0 else Error Form.non_matching_msg
     end = Ok m)
  /\ (forall m', m' ∈ ms -> m' <> m ->
        match ms with
        | [] => Error Form.no_mesh_msg
        | m0 :: _ => if Form.all_same ms then Ok m0 else Error Form.non_matching_msg
        end = Error Form.non_matching_msg).
Proof.
  intros Hm. destruct ms as [|m0 ms]; [inversion Hm|]. split.
  - intros Hall.
    assert (Hsame : Form.all_same (m0 :: ms) = true).
    { apply all_same_true. intros m1 m2 H1 H2.
      rewrite (Hall m1 H1), (Hall m2 H2). reflexivity. }
    rewrite Hsame. f_equal. apply Hall. left.
  - intros m' Hm' Hne.
    assert (Hdiff : Form.all_same (m0 :: ms) = false).
    { apply all_same_false. eauto. }
    rewrite Hdiff. reflexivity.
Qed.

(** C10: [Form::mesh] cross-checks the meshes of the function spaces,
    the mesh set with [set_mesh] and the meshes of the markers, and
    only these.  When one of them provides a mesh, the call returns
    that mesh if all of them agree and raises the non-matching error
    as soon as two of them differ, whatever the coefficients are: the
    outcome is the same for every choice of coefficients, so a
    coefficient on another mesh goes unnoticed.  The coefficients are
    looked at only when none of them provides a mesh: then, all
    coefficients being set, the meshes of the coefficients are
    cross-checked in the same way, and the no-mesh error is raised
    when they provide none either; a coefficient that is not set is
    dereferenced then, and only then. *)
Theorem Form_mesh_cross_checks_primary_meshes_only
    (f : Form.t) (Hspaces : spaces_have_meshes f) :
  (forall m, primary_source f m ->
     ((forall m', primary_source f m' -> m' = m) -> Form.mesh f = Ok m)
     /\ (forall m', primary_source f m' -> m' <> m ->
           Form.mesh f = Error Form.non_matching_msg)
     /\ (forall f', same_spaces_and_markers f f' -> Form.mesh f' = Form.mesh f))
  /\ ((forall m, ~ primary_source f m) ->
      coefficients_set f ->
      ((forall m, ~ coefficient_source f m) -> Form.mesh f = Error Form.no_mesh_msg)
      /\ (forall m, coefficient_source f m ->
            ((forall m', coefficient_source f m' -> m' = m) -> Form.mesh f = Ok m)
            /\ (forall m', coefficient_source f m' -> m' <> m ->
                  Form.mesh f = Error Form.non_matching_msg)))
  /\ ((forall m, ~ primary_source f m) ->
      None ∈ Form._coefficients f ->
      Form.mesh f = Undefined).
Proof.
  destruct (primary_meshes_spec f Hspaces) as (ms & Hms & Hspec). split; [|split].
  - intros m Hm. apply Hspec in Hm.
    destruct ms as [|m0 ms']; [inversion Hm|].
    pose proof (mesh_of_primary f m0 ms' Hms) as Hmesh.
    destruct (cross_check (m0 :: ms') m Hm) as [Hagree Hdiffer].
    split; [|split].
    + intros Hall. rewrite Hmesh. apply Hagree. intros m' Hm'. apply Hall, Hspec, Hm'.
    + intros m' Hm' Hne. rewrite Hmesh. apply (Hdiffer m'); [apply Hspec, Hm' | exact Hne].
    + intros f' Hsame. rewrite Hmesh. apply mesh_of_primary.
      rewrite (primary_meshes_same f f' Hsame). exact Hms.
  - intros Hnone Hset.
    assert (ms = []) as ->.
    { destruct ms as [|m0 ms']; [reflexivity|]. exfalso. apply (Hnone m0), Hspec. left. }
    destruct (coefficient_meshes_spec f Hset) as (cms & Hcms & Hcspec).
    pose proof (mesh_of_coefficients f cms Hms Hcms) as Hmesh. split.
    + intros Hnoc. rewrite Hmesh. destruct cms as [|m0 cms']; [reflexivity|].
      exfalso. apply (Hnoc m0), Hcspec. left.
    + intros m Hm. apply Hcspec in Hm.
      destruct (cross_check cms m Hm) as [Hagree Hdiffer]. split.
      * intros Hall. rewrite Hmesh. apply Hagree. intros m' Hm'. apply Hall, Hcspec, Hm'.
      * intros m' Hm' Hne. rewrite Hmesh.
        apply (Hdiffer m'); [apply Hcspec, Hm' | exact Hne].
  - intros Hnone Hnull.
    assert (ms = []) as ->.
    { destruct ms as [|m0 ms']; [reflexivity|]. exfalso. apply (Hnone m0), Hspec. left. }
    unfold Form.mesh. rewrite Hms. simpl.
    rewrite (coefficient_meshes_null f Hnull). reflexivity.
Qed.

(** The loop of [check] stops with an error at the first argument
    whose signature is not the expected one. *)
Lemma check_arguments_mismatch (u : ufc_form) (k i : nat) (Vs : list (option FunctionSpace))
    (V : FunctionSpace) (e : FiniteElement) :
  Forall (fun p : option FunctionSpace =>
            exists V e, p = Some V /\ fs_element V = Some e) Vs ->
  Vs !! i = Some (Some V) ->
  fs_element V = Some e ->
  ufc_element_signature u (k + i) <> signature e ->
  exists j, Form.check_arguments u k Vs = Error (Form.argument_msg j).
Proof.
  revert k i. induction Vs as [|p Vs IH]; intros k i Hvalid Hi He Hsig.
  - discriminate.
  - inversion Hvalid as [|? ? (V0 & e0 & -> & He0) Hvalid']; subst.
    simpl. rewrite He0. simpl. case_bool_decide as Hs; [|eexists; reflexivity].
    destruct i as [|i].
    + simpl in Hi. injection Hi as ->. rewrite Nat.add_0_r in Hsig. congruence.
    + simpl in Hi. apply (IH (Datatypes.S k) i Hvalid' Hi He).
      replace (Datatypes.S k + i) with (k + Datatypes.S i) by lia. exact Hsig.
Qed.

(** C9 (as amended): [Form::check], when it is called on a form that
    has generated code and valid argument spaces, raises an error
    as soon as the expected element signature of one argument differs
    from the signature of the element of its function space. *)
Theorem Form_check_rejects_signature_mismatch
    (f : Form.t) (u : ufc_form) (i : nat) (V : FunctionSpace) (e : FiniteElement)
    (Hufc : Form._ufc_form f = Some u)
    (Hvalid : arguments_valid f)
    (Hi : Form._function_spaces f !! i = Some (Some V))
    (He : fs_element V = Some e)
    (Hsig : ufc_element_signature u i <> signature e) :
  exists msg, Form.check f = Error msg.
Proof.
  unfold Form.check. rewrite Hufc. simpl.
  case_bool_decide; simpl; [|eexists; reflexivity].
  case_bool_decide; simpl; [|eexists; reflexivity].
  destruct (check_arguments_mismatch u 0 i (Form._function_spaces f) V e Hvalid Hi He Hsig)
    as [j Hj].
  exists (Form.argument_msg j). exact Hj.
Qed.

End FormProperties.

(** ** The unblocked cores add, and only add *)

Section Additivity.
Context {S : Scalar}.

Lemma run_ops_app (ops1 ops2 : list MatOp) (st : MatState) :
  run_ops (ops1 ++ ops2) st = run_ops ops2 (run_ops ops1 st).
Proof. apply fold_left_app. Qed.

Lemma add_local_adds (A : PETScMatrix) (Ae : EigenRowMatrixXd) (rows_ cols_ : list nat)
    (ops : list MatOp) :
  add_local A Ae rows_ cols_ = Ok ops ->
  Forall (fun op => exists r c v, op = MatAdd (mat_id A) r c v) ops.
Proof.
  unfold add_local. intros H. apply mapM_Ok_Forall2 in H.
  induction H as [|ij op ijs ops Hop _ IH]; constructor; [|exact IH].
  ok_inv Hop. subst op. eauto.
Qed.

Lemma Forall_concat {A : Type} (P : A -> Prop) (ls : list (list A)) :
  Forall (Forall P) ls -> Forall P (concat ls).
Proof.
  induction 1 as [|l ls Hl _ IH]; simpl; [constructor|].
  apply Forall_app. split; assumption.
Qed.

(** Every storage call of the unblocked matrix core is an additive
    insertion into the object behind the handle. *)
Lemma assemble_matrix_form_adds (A : PETScMatrix) (a : Form.t) (bcs : list DirichletBC)
    (ops : list MatOp) :
  Assembler.assemble_matrix_form A a bcs = Ok ops ->
  Forall (fun op => exists r c v, op = MatAdd (mat_id A) r c v) ops.
Proof.
  unfold Assembler.assemble_matrix_form. intros H. ok_inv H. subst ops.
  apply Forall_concat.
  match goal with Hm : mapM _ _ = Ok _ |- _ => apply mapM_Ok_Forall2 in Hm; rename Hm into HF end.
  induction HF as [|cell ops cells opss Hcell _ IH]; constructor; [|exact IH].
  unfold Assembler.assemble_matrix_cell in Hcell. ok_inv Hcell.
  eapply add_local_adds; eassumption.
Qed.

(** An entry after a sequence of additive insertions holds what it
    held, with the values inserted at the entry added to it one after
    the other. *)
Lemma run_ops_contributions (ops : list MatOp) :
  Forall additive ops ->
  forall (st : MatState) m r c,
    run_ops ops st m r c = fold_left dadd (contributions m r c ops) (st m r c).
Proof.
  induction 1 as [|op ops (m0 & r0 & c0 & v & ->) _ IH]; intros st m r c; [reflexivity|].
  change (run_ops (MatAdd m0 r0 c0 v :: ops) st)
    with (run_ops ops (run_op (MatAdd m0 r0 c0 v) st)).
  rewrite IH. unfold contributions. simpl.
  destruct (decide (m = m0 /\ r = r0 /\ c = c0)) as [Heq | Hne].
  - rewrite !(bool_decide_eq_true_2 _ Heq). reflexivity.
  - rewrite !(bool_decide_eq_false_2 _ Hne). reflexivity.
Qed.

Lemma foldM_ext {A B : Type} (f g : B -> A -> outcome B) (l : list A) (b : B) :
  (forall b x, f b x = g b x) -> foldM f l b = foldM g l b.
Proof.
  intros Hfg. revert b. induction l as [|x l IH]; intros b; [reflexivity|].
  simpl. rewrite Hfg. destruct (g b x); simpl; auto.
Qed.

Lemma foldM_map {A B C : Type} (f : C -> B -> outcome C) (g : A -> B) (l : list A) (c : C) :
  foldM f (map g l) c = foldM (fun c x => f c (g x)) l c.
Proof.
  revert c. induction l as [|x l IH]; intros c; [reflexivity|].
  simpl. destruct (f c (g x)); simpl; auto.
Qed.

Lemma foldM_app {A B : Type} (f : B -> A -> outcome B) (l1 l2 : list A) (b : B) :
  foldM f (l1 ++ l2) b = foldM f l1 b ≫= foldM f l2.
Proof.
  revert b. induction l1 as [|x l1 IH]; intros b; [reflexivity|].
  simpl. destruct (f b x); simpl; auto.
Qed.

(** Adding a list of (index, value) pairs to a buffer, one after the
    other, returns exactly when every index is in range, and leaves in
    every entry what it held with the values of its index added to it
    in order. *)
Lemma add_pairs_total (pairs : list (nat * double)) (c : list double) :
  Forall (fun p : nat * double => p.1 < length c) pairs ->
  foldM (fun b p => Assembler.add_at p.1 p.2 b) pairs c
  = Ok (imap (fun k x => fold_left dadd (contributions_at k pairs) x) c).
Proof.
  revert c. induction pairs as [|[k v] pairs IH]; intros c Hrange.
  - simpl. f_equal. apply list_eq. intros i. rewrite list_lookup_imap.
    destruct (c !! i); reflexivity.
  - inversion Hrange as [|? ? Hk Hrange']; subst. simpl in Hk.
    destruct (lookup_lt_is_Some_2 c k Hk) as [x Hx].
    assert (Hstep : Assembler.add_at k v c = Ok (<[k := dadd x v]> c)).
    { unfold Assembler.add_at. rewrite Hx. reflexivity. }
    simpl. rewrite Hstep. simpl. rewrite IH.
    + f_equal. apply list_eq. intros i. rewrite !list_lookup_imap.
      unfold contributions_at. simpl.
      destruct (decide (k = i)) as [<- | Hne].
      * rewrite list_lookup_insert_eq by exact Hk. rewrite Hx. simpl.
        rewrite (bool_decide_eq_true_2 (k = k) eq_refl). reflexivity.
      * rewrite list_lookup_insert_ne by exact Hne.
        rewrite (bool_decide_eq_false_2 (k = i) Hne). reflexivity.
    + eapply Forall_impl; [exact Hrange'|]. simpl. intros p Hp.
      rewrite length_insert. exact Hp.
Qed.

Lemma add_pairs_range (pairs : list (nat * double)) (b b' : list double) :
  foldM (fun b p => Assembler.add_at p.1 p.2 b) pairs b = Ok b' ->
  Forall (fun p : nat * double => p.1 < length b) pairs.
Proof.
  revert b. induction pairs as [|[k v] pairs IH]; intros b H; [constructor|].
  simpl in H. apply bind_Ok in H as (b1 & Hb1 & H).
  unfold Assembler.add_at in Hb1. apply bind_Ok in Hb1 as (x & Hx & Hb1).
  apply deref_Ok in Hx. injection Hb1 as <-.
  constructor; [simpl; eapply lookup_lt_Some; exact Hx|].
  apply IH in H. eapply Forall_impl; [exact H|]. simpl. intros p Hp.
  rewrite length_insert in Hp. exact Hp.
Qed.

Lemma nth_replicate_default {A : Type} (i n : nat) (d : A) : nth i (replicate n d) d = d.
Proof. revert i. induction n as [|n IH]; intros [|i]; simpl; auto. Qed.

Lemma nth_app_default {A : Type} (i n : nat) (l : list A) (d : A) :
  nth i (l ++ replicate n d) d = nth i l d.
Proof.
  revert i. induction l as [|x l IH]; intros i; simpl.
  - rewrite nth_replicate_default. destruct i; reflexivity.
  - destruct i; [reflexivity | apply IH].
Qed.

(** The linear-form core on one cell adds the pairs of the cell, when
    the kernel fits the dofs of the cell; otherwise the kernel
    overruns the local vector. *)
Lemma assemble_vector_cell_pairs (L0 : Form.t) (V : FunctionSpace) (b : list double)
    (cell : nat) :
  Assembler.assemble_vector_cell L0 V b cell
  = if bool_decide (length (Form.tabulate_tensor L0 cell)
                    ≤ length (cell_dofs (fs_dofmap V) cell))
    then foldM (fun b p => Assembler.add_at p.1 p.2 b) (cell_contributions L0 V cell) b
    else Undefined.
Proof.
  unfold Assembler.assemble_vector_cell, tabulate_vector, cell_contributions.
  case_bool_decide; [|reflexivity]. simpl. rewrite foldM_map.
  apply foldM_ext. intros b0 i. simpl. rewrite nth_app_default. reflexivity.
Qed.

Lemma assemble_vector_cells_pairs (L0 : Form.t) (V : FunctionSpace) (cells : list nat)
    (b : list double) :
  Forall (fun cell => length (Form.tabulate_tensor L0 cell)
                      <= length (cell_dofs (fs_dofmap V) cell)) cells ->
  foldM (Assembler.assemble_vector_cell L0 V) cells b
  = foldM (fun b p => Assembler.add_at p.1 p.2 b)
          (flat_map (cell_contributions L0 V) cells) b.
Proof.
  intros Hfits. revert b. induction Hfits as [|cell cells Hcell _ IH]; intros b;
    [reflexivity|].
  simpl. rewrite foldM_app, assemble_vector_cell_pairs.
  rewrite (bool_decide_eq_true_2 _ Hcell).
  destruct (foldM _ (cell_contributions L0 V cell) b); simpl; auto.
Qed.

Lemma assemble_vector_cells_fit (L0 : Form.t) (V : FunctionSpace) (cells : list nat)
    (b b' : list double) :
  foldM (Assembler.assemble_vector_cell L0 V) cells b = Ok b' ->
  Forall (fun cell => length (Form.tabulate_tensor L0 cell)
                      <= length (cell_dofs (fs_dofmap V) cell)) cells.
Proof.
  revert b. induction cells as [|cell cells IH]; intros b H; [constructor|].
  simpl in H. apply bind_Ok in H as (b1 & Hb1 & H).
  constructor; [|eauto].
  rewrite assemble_vector_cell_pairs in Hb1. case_bool_decide; [assumption | discriminate].
Qed.

(** The linear-form core accumulates: whatever the buffer holds, it
    adds to every entry the same values in the same order. *)
Lemma assemble_vector_form_accumulates (L0 : Form.t) (mesh : Mesh) (V : FunctionSpace)
    (b b' : list double) :
  Form.mesh L0 = Ok mesh ->
  Form.function_space L0 0 = Ok (Some V) ->
  Assembler.assemble_vector_form b L0 = Ok b' ->
  forall c, length c = length b ->
    Assembler.assemble_vector_form c L0
    = Ok (imap (fun k x => fold_left dadd (vector_contributions L0 V mesh k) x) c).
Proof.
  unfold Assembler.assemble_vector_form. intros -> ->. simpl. intros H c Hlen.
  pose proof (assemble_vector_cells_fit _ _ _ _ _ H) as Hfits.
  rewrite (assemble_vector_cells_pairs _ _ _ b Hfits) in H.
  rewrite (assemble_vector_cells_pairs _ _ _ c Hfits).
  apply add_pairs_range in H. apply add_pairs_total.
  rewrite Hlen. exact H.
Qed.

Section Laws.
Context {L : ScalarLaws S}.

(** Additive insertions commute with pre-loading the target. *)
Lemma run_ops_adds (ops : list MatOp) :
  Forall (fun op => exists m r c v, op = MatAdd m r c v) ops ->
  forall (st : MatState) m r c,
    run_ops ops st m r c = dadd (st m r c) (run_ops ops zero_state m r c).
Proof.
  induction 1 as [|op ops (m0 & r0 & c0 & v & ->) _ IH]; intros st m r c.
  - simpl. unfold zero_state. rewrite dadd_0_r. reflexivity.
  - change (run_ops (MatAdd m0 r0 c0 v :: ops) st)
      with (run_ops ops (run_op (MatAdd m0 r0 c0 v) st)).
    change (run_ops (MatAdd m0 r0 c0 v :: ops) zero_state)
      with (run_ops ops (run_op (MatAdd m0 r0 c0 v) zero_state)).
    rewrite IH. rewrite (IH (run_op _ zero_state)). simpl.
    case_bool_decide; unfold zero_state.
    + rewrite dadd_0_l, dadd_assoc. reflexivity.
    + rewrite dadd_0_l. reflexivity.
Qed.

Lemma add_at_shift (k : nat) (v : double) (b b' c : list double) :
  length c = length b ->
  Assembler.add_at k v b = Ok b' ->
  length b' = length b
  /\ Assembler.add_at k v (zip_with dadd c b) = Ok (zip_with dadd c b').
Proof.
  unfold Assembler.add_at. intros Hlen H. ok_inv H.
  apply deref_Ok in Hx. subst b'. split; [apply length_insert|].
  assert (Hk : k < length c) by (rewrite Hlen; eapply lookup_lt_Some; eassumption).
  apply lookup_lt_is_Some in Hk as [y Hy].
  assert (Hz : zip_with dadd c b !! k = Some (dadd y x)).
  { apply lookup_zip_with_Some. eauto. }
  rewrite Hz. simpl. f_equal.
  rewrite <- dadd_assoc, insert_zip_with, (list_insert_id c k y Hy). reflexivity.
Qed.

Lemma foldM_shift {A : Type} (f : list double -> A -> outcome (list double)) (l : list A) :
  (forall x b b' c, length c = length b -> f b x = Ok b' ->
     length b' = length b /\ f (zip_with dadd c b) x = Ok (zip_with dadd c b')) ->
  forall b b' c, length c = length b -> foldM f l b = Ok b' ->
    length b' = length b /\ foldM f l (zip_with dadd c b) = Ok (zip_with dadd c b').
Proof.
  intros Hf. induction l as [|x l IH]; simpl; intros b b' c Hlen H.
  - injection H as <-. auto.
  - ok_inv H. destruct (Hf x b x0 c Hlen Hx) as [Hlen' Hx'].
    rewrite Hx'. simpl. destruct (IH x0 b' c) as [Hl Hr]; [congruence | assumption |].
    split; [congruence | exact Hr].
Qed.

(** Assembling a linear form into a pre-loaded buffer adds the
    contribution of the form to the buffer. *)
Lemma assemble_vector_form_shift (L0 : Form.t) (b b' c : list double) :
  length c = length b ->
  Assembler.assemble_vector_form b L0 = Ok b' ->
  length b' = length b
  /\ Assembler.assemble_vector_form (zip_with dadd c b) L0 = Ok (zip_with dadd c b').
Proof.
  unfold Assembler.assemble_vector_form. intros Hlen H. ok_inv H.
  rewrite Hx; simpl. rewrite Hx0; simpl. rewrite Hx1; simpl.
  revert b b' c Hlen H. apply foldM_shift.
  intros cell b b' c Hlen H. unfold Assembler.assemble_vector_cell in *.
  ok_inv H. rewrite Hx2. simpl.
  revert b b' c Hlen H. apply foldM_shift.
  intros i b b' c Hlen H. eapply add_at_shift; eassumption.
Qed.

Lemma zip_with_dadd_zero (b : list double) (n : nat) :
  length b = n -> zip_with dadd b (replicate n dzero) = b.
Proof.
  intros <-. induction b as [|x b IH]; simpl; [reflexivity|].
  rewrite dadd_0_r, IH. reflexivity.
Qed.

(** In exact arithmetic, assembling a form into a target pre-loaded
    with a first result gives, entry by entry, the sum of two results
    assembled from zero, for the matrix core and for the linear-form
    core. *)
Lemma pre_loaded_assembly_is_the_sum_in_exact_arithmetic :
  (forall (A : PETScMatrix) (a : Form.t) (bcs : list DirichletBC) (ops : list MatOp),
      Assembler.assemble_matrix_form A a bcs = Ok ops ->
      Forall (fun op => exists r c v, op = MatAdd (mat_id A) r c v) ops
      /\ forall m r c,
           run_ops ops (run_ops ops zero_state) m r c
           = dadd (run_ops ops zero_state m r c) (run_ops ops zero_state m r c))
  /\ (forall (L0 : Form.t) (n : nat) (b1 : list double),
      Assembler.assemble_vector_form (replicate n dzero) L0 = Ok b1 ->
      Assembler.assemble_vector_form b1 L0 = Ok (zip_with dadd b1 b1)).
Proof.
  split.
  - intros A a bcs ops H. pose proof (assemble_matrix_form_adds A a bcs ops H) as Hadds.
    split; [exact Hadds|]. intros m r c. apply run_ops_adds.
    eapply Forall_impl; [exact Hadds|]. simpl. intros op (r' & c' & v & ->). eauto.
  - intros L0 n b1 H.
    destruct (assemble_vector_form_shift L0 (replicate n dzero) b1 b1) as [Hlen Hsum];
      [| exact H |].
    + destruct (assemble_vector_form_shift L0 (replicate n dzero) b1 (replicate n dzero))
        as [Hlen _]; [reflexivity | exact H | exact Hlen].
    + rewrite zip_with_dadd_zero in Hsum; [exact Hsum|].
      rewrite Hlen. apply length_replicate.
Qed.

End Laws.
End Additivity.

(** ** Views of the monolithic matrix *)

Section Views.
Context {S : Scalar}.

Lemma add_local_view (m : MatId) (is0 is1 : list nat) (Ae : EigenRowMatrixXd)
    (rows_ cols_ : list nat) (ops' : list MatOp) :
  add_local (LocalSubMatrix m is0 is1) Ae rows_ cols_ = Ok ops' ->
  exists ops, add_local (Mat m) Ae rows_ cols_ = Ok ops
              /\ Forall2 (through_view is0 is1) ops ops'.
Proof.
  unfold add_local. generalize (flat_map (fun i => map (fun j => (i, j)) (seq 0 (length cols_)))
                                         (seq 0 (length rows_))).
  intros ijs. revert ops'. induction ijs as [|ij ijs IH]; intros ops' H; simpl in H.
  - injection H as <-. exists []. split; [reflexivity | constructor].
  - ok_inv H. subst ops'. destruct (IH _ Hx0) as (ops & Hops & HF).
    ok_inv Hx. subst x. apply deref_Ok in Hx1, Hx2.
    exists (MatAdd m (nth ij.1 rows_ 0) (nth ij.2 cols_ 0) (coeff Ae ij.1 ij.2) :: ops).
    split.
    + apply mapM_Ok_Forall2. constructor; [reflexivity|].
      apply mapM_Ok_Forall2. exact Hops.
    + constructor; [|exact HF]. unfold through_view. do 6 eexists.
      split; [reflexivity|]. split; [reflexivity|]. split; eassumption.
Qed.

Lemma Forall2_concat {A B : Type} (R : A -> B -> Prop) (ls : list (list A))
    (ks : list (list B)) :
  Forall2 (Forall2 R) ls ks -> Forall2 R (concat ls) (concat ks).
Proof.
  induction 1 as [|l k ls ks Hlk _ IH]; simpl; [constructor|].
  apply Forall2_app; assumption.
Qed.

Lemma mapM_rel {A B : Type} (R : B -> B -> Prop) (f f' : A -> outcome B) (l : list A) :
  (forall x y', f' x = Ok y' -> exists y, f x = Ok y /\ R y y') ->
  forall ys', mapM f' l = Ok ys' -> exists ys, mapM f l = Ok ys /\ Forall2 R ys ys'.
Proof.
  intros Hf. induction l as [|x l IH]; intros ys' H; simpl in H.
  - injection H as <-. exists []. split; [reflexivity | constructor].
  - apply bind_Ok in H as (y' & Hy' & H). apply bind_Ok in H as (ys0 & Hys0 & H).
    injection H as <-. destruct (Hf x y' Hy') as (y & Hy & HR).
    destruct (IH ys0 Hys0) as (ys & Hys & HF).
    exists (y :: ys). split; [|constructor; assumption].
    simpl. rewrite Hy. simpl. rewrite Hys. reflexivity.
Qed.

Lemma assemble_matrix_cell_view (m : MatId) (is0 is1 : list nat) (a : Form.t)
    (V0 V1 : FunctionSpace) (bv : gmap nat double * gmap nat double) (cell : nat)
    (ops' : list MatOp) :
  Assembler.assemble_matrix_cell (LocalSubMatrix m is0 is1) a V0 V1 bv cell = Ok ops' ->
  exists ops, Assembler.assemble_matrix_cell (Mat m) a V0 V1 bv cell = Ok ops
              /\ Forall2 (through_view is0 is1) ops ops'.
Proof.
  unfold Assembler.assemble_matrix_cell. intros H.
  apply bind_Ok in H as (Ae & HAe & H). rewrite HAe. simpl.
  apply add_local_view. exact H.
Qed.

(** Assembling into a view issues the insertions of the unblocked
    core, each moved through the index sets of the view. *)
Lemma assemble_matrix_form_view (m : MatId) (is0 is1 : list nat) (a : Form.t)
    (bcs : list DirichletBC) (ops' : list MatOp) :
  Assembler.assemble_matrix_form (LocalSubMatrix m is0 is1) a bcs = Ok ops' ->
  exists ops, Assembler.assemble_matrix_form (Mat m) a bcs = Ok ops
              /\ Forall2 (through_view is0 is1) ops ops'.
Proof.
  unfold Assembler.assemble_matrix_form.
  destruct (Form.mesh a) as [mesh| |]; simpl; try discriminate.
  destruct (Form.function_space a 0) as [p0| |]; simpl; try discriminate.
  destruct (Form.function_space a 1) as [p1| |]; simpl; try discriminate.
  destruct (deref p0) as [V0| |]; simpl; try discriminate.
  destruct (deref p1) as [V1| |]; simpl; try discriminate.
  intros H. apply bind_Ok in H as (opss' & Hm & H). injection H as <-.
  destruct (mapM_rel (Forall2 (through_view is0 is1)) _ _ _
              (assemble_matrix_cell_view m is0 is1 a V0 V1 _) _ Hm)
    as (opss & Hopss & HF).
  rewrite Hopss. simpl. eexists. split; [reflexivity|].
  apply Forall2_concat. exact HF.
Qed.

Lemma ISCreateBlock_1 (idx : list nat) : ISCreateBlock 1 idx = idx.
Proof.
  induction idx as [|b idx IH]; [reflexivity|].
  change (ISCreateBlock 1 (b :: idx)) with ((b * 1 + 0) :: ISCreateBlock 1 idx).
  rewrite IH. f_equal. lia.
Qed.

(** The index set of one axis of a block is a range that starts at
    the running offset times the block size. *)
Lemma block_index_set_seq (imap0 : IndexMap) (offset : nat) :
  Assembler.block_index_set imap0 offset
  = seq (offset * block_size imap0) (size_ALL imap0 * block_size imap0).
Proof.
  unfold Assembler.block_index_set. generalize (block_size imap0) as bs. intros bs.
  generalize (size_ALL imap0) as n. intros n. revert offset.
  induction n as [|n IH]; intros offset; [reflexivity|].
  change (ISCreateBlock bs (seq offset (Datatypes.S n)))
    with (List.map (fun k => offset * bs + k) (seq 0 bs)
            ++ ISCreateBlock bs (seq (Datatypes.S offset) n)).
  rewrite IH. change (List.map (fun k => offset * bs + k) (seq 0 bs))
    with (Nat.add (offset * bs) <$> seq 0 bs).
  rewrite fmap_add_seq, Nat.add_0_r.
  change (Datatypes.S n * bs) with (bs + n * bs). rewrite seq_app.
  f_equal. f_equal. simpl. lia.
Qed.

(** A local index of a view stands for that index moved by the
    running offset times the block size. *)
Lemma block_index_set_lookup (imap0 : IndexMap) (offset k k' : nat) :
  Assembler.block_index_set imap0 offset !! k = Some k' ->
  k' = offset * block_size imap0 + k.
Proof. rewrite block_index_set_seq. intros H. apply lookup_seq in H as [-> _]. reflexivity. Qed.

(** Through index sets of block size one, an insertion is moved by
    the two offsets. *)
Lemma through_view_shift (map0 map1 : IndexMap) (offset_row offset_col : nat)
    (ops ops' : list MatOp) :
  block_size map0 = 1 -> block_size map1 = 1 ->
  Forall2 (through_view (Assembler.block_index_set map0 offset_row)
                        (Assembler.block_index_set map1 offset_col)) ops ops' ->
  ops' = map (shift_op offset_row offset_col) ops.
Proof.
  unfold Assembler.block_index_set. intros -> ->. rewrite !ISCreateBlock_1.
  induction 1 as [|op op' ops ops' Hop _ IH]; simpl; [reflexivity|].
  f_equal; [|exact IH].
  destruct Hop as (m & r & c & v & r' & c' & -> & -> & Hr & Hc).
  apply lookup_seq in Hr as [-> _]. apply lookup_seq in Hc as [-> _]. reflexivity.
Qed.

End Views.

(** ** The three paths of the matrix assembly *)

Section Paths.
Context {S : Scalar}.

Lemma targets_exclusive (A : option MatType) (block_type : BlockType) :
  nested_target A block_type -> plain_target A block_type -> False.
Proof. intros [-> | [-> ->]] [H | [H1 H2]]; congruence. Qed.

Lemma init_type (asm : Assembler.t) (block_type : BlockType) (init : MatInit) :
  Assembler.assemble_matrix_init asm block_type = Ok init ->
  MatInit_type init = if bool_decide (block_type = nested) then MATNEST else MATAIJ.
Proof.
  unfold Assembler.assemble_matrix_init. intros H.
  apply bind_Ok in H as (row0 & _ & H). apply bind_Ok in H as (forms & _ & H).
  case_bool_decide.
  - injection H as <-. reflexivity.
  - destruct (_ && _) in H.
    + injection H as <-. reflexivity.
    + apply bind_Ok in H as (? & _ & H). apply bind_Ok in H as (? & _ & H).
      injection H as <-. reflexivity.
Qed.

(** The calls of one run: the allocation if any, the calls of the path
    taken, and the finalization of the matrix. *)
Lemma assemble_matrix_dispatch (asm : Assembler.t) (world_size : nat)
    (A : option MatType) (block_type : BlockType) (ops : list MatOp) :
  Assembler.assemble_matrix asm world_size A block_type = Ok ops ->
  exists row0 alloc body,
    Assembler._a asm !! 0 = Some row0
    /\ Forall allocation alloc
    /\ ops = alloc ++ body ++ [MatApply Parent FINAL]
    /\ ((nested_target A block_type
         /\ Assembler.nested_rows (Assembler._bcs asm) 0 (Assembler._a asm) = Ok body)
        \/ (plain_target A block_type /\ multi_block (Assembler._a asm)
            /\ exists blocks,
                 Assembler.monolithic_rows (Assembler._bcs asm) 0 (Assembler._a asm)
                 = Ok blocks
                 /\ body = blocks ++ [MatApply Parent FINAL])
        \/ (plain_target A block_type /\ ~ multi_block (Assembler._a asm)
            /\ exists a00 core ones,
                 row0 !! 0 = Some (Some a00)
                 /\ Assembler.assemble_matrix_form (Mat Parent) a00 (Assembler._bcs asm)
                    = Ok core
                 /\ Assembler.place_ones world_size a00 (Assembler._bcs asm) = Ok ones
                 /\ body = core ++ ones)).
Proof.
  unfold Assembler.assemble_matrix. intros H.
  apply bind_Ok in H as (row0 & Hrow0 & H). apply deref_Ok in Hrow0.
  apply bind_Ok in H as ([alloc mat_type] & Halloc & H).
  apply bind_Ok in H as (body & Hbody & H). injection H as <-. simpl.
  exists row0, alloc, body. split; [exact Hrow0|].
  assert (Htarget : Forall allocation alloc
            /\ (mat_type = MATNEST /\ nested_target A block_type
                \/ mat_type = MATAIJ /\ plain_target A block_type)).
  { clear Hbody. destruct A as [ty|].
    - injection Halloc as <- <-. split; [constructor|].
      destruct ty; [left | right]; (split; [reflexivity | left; reflexivity]).
    - apply bind_Ok in Halloc as (init & Hinit & Halloc). injection Halloc as <- <-.
      split; [repeat constructor; eexists; reflexivity|].
      rewrite (init_type _ _ _ Hinit). case_bool_decide.
      + left. split; [reflexivity | right; auto].
      + right. split; [reflexivity | right; auto]. }
  destruct Htarget as [Halloc' Htarget]. split; [exact Halloc'|]. split; [reflexivity|].
  simpl in Hbody. destruct Htarget as [[-> Ht] | [-> Ht]]; simpl in Hbody.
  - left. auto.
  - right. destruct (bool_decide (1 < length (Assembler._a asm))
                     || bool_decide (1 < length row0)) eqn:Hb.
    + left. split; [exact Ht|]. split.
      * exists row0. split; [exact Hrow0|].
        apply orb_true_iff in Hb. rewrite !bool_decide_eq_true in Hb. exact Hb.
      * apply bind_Ok in Hbody as (blocks & Hblocks & Hbody). injection Hbody as <-.
        eauto.
    + right. split; [exact Ht|]. split.
      * intros (row0' & Hrow0' & Hm). rewrite Hrow0 in Hrow0'. injection Hrow0' as <-.
        apply orb_false_iff in Hb. rewrite !bool_decide_eq_false in Hb. tauto.
      * apply bind_Ok in Hbody as (p & Hp & Hbody). apply deref_Ok in Hp.
        apply bind_Ok in Hbody as (a00 & Ha00 & Hbody). apply deref_Ok in Ha00. subst p.
        apply bind_Ok in Hbody as (core & Hcore & Hbody).
        apply bind_Ok in Hbody as (ones & Hones & Hbody). injection Hbody as <-.
        exists a00, core, ones. auto.
Qed.

Lemma nested_row_ops (bcs : list DirichletBC) (i j : nat) (row : list (option Form.t))
    (ops : list MatOp) :
  Assembler.nested_row bcs i j row = Ok ops ->
  Forall (fun op => exists j' a, insertion (Sub i j') op /\ j <= j'
                                 /\ row !! (j' - j) = Some (Some a)) ops.
Proof.
  revert j ops. induction row as [|[a|] row IH]; intros j ops H; simpl in H.
  - injection H as <-. constructor.
  - apply bind_Ok in H as (ops0 & Hops0 & H). apply bind_Ok in H as (ops1 & Hops1 & H).
    injection H as <-. apply Forall_app. split.
    + apply assemble_matrix_form_adds in Hops0. eapply Forall_impl; [exact Hops0|].
      simpl. intros op (r & c & v & ->). exists j, a.
      split; [exists r, c, v; left; reflexivity|]. split; [lia|].
      rewrite Nat.sub_diag. reflexivity.
    + eapply Forall_impl; [exact (IH _ _ Hops1)|]. simpl.
      intros op (j' & a' & Hins & Hle & Hl). exists j', a'.
      split; [exact Hins|]. split; [lia|].
      replace (j' - j) with (Datatypes.S (j' - Datatypes.S j)) by lia. exact Hl.
  - eapply Forall_impl; [exact (IH _ _ H)|]. simpl.
    intros op (j' & a' & Hins & Hle & Hl). exists j', a'.
    split; [exact Hins|]. split; [lia|].
    replace (j' - j) with (Datatypes.S (j' - Datatypes.S j)) by lia. exact Hl.
Qed.

(** The nested path inserts into the sub-matrices of the non-null
    blocks only. *)
Lemma nested_rows_ops (bcs : list DirichletBC) (i : nat) (a : list (list (option Form.t)))
    (ops : list MatOp) :
  Assembler.nested_rows bcs i a = Ok ops ->
  Forall (fun op => exists i' j' row f, insertion (Sub i' j') op /\ i <= i'
                                        /\ a !! (i' - i) = Some row
                                        /\ row !! j' = Some (Some f)) ops.
Proof.
  revert i ops. induction a as [|row a IH]; intros i ops H; simpl in H.
  - injection H as <-. constructor.
  - apply bind_Ok in H as (ops0 & Hops0 & H). apply bind_Ok in H as (ops1 & Hops1 & H).
    injection H as <-. apply Forall_app. split.
    + eapply Forall_impl; [exact (nested_row_ops _ _ _ _ _ Hops0)|]. simpl.
      intros op (j' & f & Hins & _ & Hl). exists i, j', row, f.
      split; [exact Hins|]. split; [lia|]. rewrite Nat.sub_diag, Nat.sub_0_r in *.
      split; [reflexivity | exact Hl].
    + eapply Forall_impl; [exact (IH _ _ Hops1)|]. simpl.
      intros op (i' & j' & row' & f & Hins & Hle & Hrow & Hl). exists i', j', row', f.
      split; [exact Hins|]. split; [lia|].
      replace (i' - i) with (Datatypes.S (i' - Datatypes.S i)) by lia. auto.
Qed.

Lemma monolithic_row_ops (bcs : list DirichletBC) (offset_row offset_col : nat)
    (row : list (option Form.t)) (ops : list MatOp) :
  Assembler.monolithic_row bcs offset_row offset_col row = Ok ops ->
  Forall (insertion Parent) ops /\ Forall (fun p : option Form.t => p <> None) row.
Proof.
  revert offset_col ops. induction row as [|[a|] row IH]; intros offset_col ops H;
    simpl in H.
  - injection H as <-. split; constructor.
  - apply bind_Ok in H as (map0 & _ & H). apply bind_Ok in H as (map1 & _ & H).
    apply bind_Ok in H as (ops0 & Hops0 & H). apply bind_Ok in H as (ops1 & Hops1 & H).
    injection H as <-. destruct (IH _ _ Hops1) as [IH1 IH2]. split.
    + apply Forall_app. split; [|exact IH1].
      apply assemble_matrix_form_adds in Hops0. eapply Forall_impl; [exact Hops0|].
      simpl. intros op (r & c & v & ->). exists r, c, v. left. reflexivity.
    + constructor; [discriminate | exact IH2].
  - discriminate.
Qed.

(** The monolithic path, when it returns, has inserted into the one
    physical matrix only, and has met no null block. *)
Lemma monolithic_rows_ops (bcs : list DirichletBC) (offset_row : nat)
    (a : list (list (option Form.t))) (ops : list MatOp) :
  Assembler.monolithic_rows bcs offset_row a = Ok ops ->
  Forall (insertion Parent) ops
  /\ Forall (Forall (fun p : option Form.t => p <> None)) a.
Proof.
  revert offset_row ops. induction a as [|row a IH]; intros offset_row ops H; simpl in H.
  - injection H as <-. split; constructor.
  - apply bind_Ok in H as (ops0 & Hops0 & H). apply bind_Ok in H as (? & _ & H).
    apply bind_Ok in H as (? & _ & H). apply bind_Ok in H as (? & _ & H).
    apply bind_Ok in H as (ops1 & Hops1 & H). injection H as <-.
    destruct (monolithic_row_ops _ _ _ _ _ Hops0) as [H1 H2].
    destruct (IH _ _ Hops1) as [IH1 IH2]. split.
    + apply Forall_app. split; assumption.
    + constructor; assumption.
Qed.

Lemma place_ones_ops (world_size : nat) (a : Form.t) (bcs : list DirichletBC)
    (ops : list MatOp) :
  Assembler.place_ones world_size a bcs = Ok ops -> Forall (insertion Parent) ops.
Proof.
  unfold Assembler.place_ones. intros H.
  apply bind_Ok in H as (p0 & _ & H). apply bind_Ok in H as (p1 & _ & H).
  case_bool_decide.
  - apply bind_Ok in H as (bv & _ & H). injection H as <-.
    apply Forall_forall. intros op Hop. apply list_elem_of_fmap in Hop as (bc & -> & _).
    exists bc.1, bc.1, done_. right. reflexivity.
  - injection H as <-. constructor.
Qed.

End Paths.

(** ** Insertion is additive *)

Section Additive.
Context {S : Scalar}.

Lemma nested_row_adds (bcs : list DirichletBC) (i j : nat) (row : list (option Form.t))
    (ops : list MatOp) :
  Assembler.nested_row bcs i j row = Ok ops ->
  Forall (fun op => exists m r c v, op = MatAdd m r c v) ops.
Proof.
  revert j ops. induction row as [|[g|] row IH]; intros j ops H; simpl in H.
  - injection H as <-. constructor.
  - apply bind_Ok in H as (ops_g & Hg & H). apply bind_Ok in H as (ops' & Hrest & H).
    injection H as <-. apply Forall_app. split; [|eauto].
    apply assemble_matrix_form_adds in Hg. eapply Forall_impl; [exact Hg|].
    simpl. intros op (r & c & v & ->). eauto.
  - eauto.
Qed.

Lemma nested_rows_adds (bcs : list DirichletBC) (i : nat) (a : list (list (option Form.t)))
    (ops : list MatOp) :
  Assembler.nested_rows bcs i a = Ok ops ->
  Forall (fun op => exists m r c v, op = MatAdd m r c v) ops.
Proof.
  revert i ops. induction a as [|row a IH]; intros i ops H; simpl in H.
  - injection H as <-. constructor.
  - apply bind_Ok in H as (ops_row & Hrow & H). apply bind_Ok in H as (ops' & Hrest & H).
    injection H as <-. apply Forall_app. split; [|eauto].
    exact (nested_row_adds _ _ _ _ _ Hrow).
Qed.

Lemma monolithic_row_adds (bcs : list DirichletBC) (offset_row offset_col : nat)
    (row : list (option Form.t)) (ops : list MatOp) :
  Assembler.monolithic_row bcs offset_row offset_col row = Ok ops ->
  Forall (fun op => exists m r c v, op = MatAdd m r c v) ops.
Proof.
  revert offset_col ops. induction row as [|[g|] row IH]; intros offset_col ops H;
    simpl in H.
  - injection H as <-. constructor.
  - apply bind_Ok in H as (map0 & _ & H). apply bind_Ok in H as (map1 & _ & H).
    apply bind_Ok in H as (ops_g & Hg & H). apply bind_Ok in H as (ops' & Hrest & H).
    injection H as <-. apply Forall_app. split; [|eauto].
    apply assemble_matrix_form_adds in Hg. eapply Forall_impl; [exact Hg|].
    simpl. intros op (r & c & v & ->). eauto.
  - discriminate.
Qed.

Lemma monolithic_rows_adds (bcs : list DirichletBC) (offset_row : nat)
    (a : list (list (option Form.t))) (ops : list MatOp) :
  Assembler.monolithic_rows bcs offset_row a = Ok ops ->
  Forall (fun op => exists m r c v, op = MatAdd m r c v) ops.
Proof.
  revert offset_row ops. induction a as [|row a IH]; intros offset_row ops H; simpl in H.
  - injection H as <-. constructor.
  - apply bind_Ok in H as (ops_row & Hrow & H). apply bind_Ok in H as (? & _ & H).
    apply bind_Ok in H as (? & _ & H). apply bind_Ok in H as (? & _ & H).
    apply bind_Ok in H as (ops' & Hrest & H). injection H as <-.
    apply Forall_app. split; [|eauto].
    exact (monolithic_row_adds _ _ _ _ _ Hrow).
Qed.

Lemma place_ones_sets (world_size : nat) (a : Form.t) (bcs : list DirichletBC)
    (ops : list MatOp) :
  Assembler.place_ones world_size a bcs = Ok ops -> Forall sets_diagonal_one ops.
Proof.
  unfold Assembler.place_ones. intros H.
  apply bind_Ok in H as (p0 & _ & H). apply bind_Ok in H as (p1 & _ & H).
  case_bool_decide.
  - apply bind_Ok in H as (bv & _ & H). injection H as <-.
    apply Forall_forall. intros op Hop. apply list_elem_of_fmap in Hop as (bc & -> & _).
    exists bc.1. reflexivity.
  - injection H as <-. constructor.
Qed.

(** C4 (as amended): insertion by the two unblocked cores is purely
    additive.  The matrix core issues additive insertions only, so an
    entry of the target ends with what it held and the values the
    form inserts there added to it one after the other, in the order
    of the calls.  The linear-form core only accumulates into its
    buffer and zeroes nothing for boundary conditions: whatever a
    buffer of the same length holds, every entry ends with what it
    held and the same contributions added to it in the order of the
    cell loop.  Over the block collection, every storage call of a
    matrix assembly is an allocation, an additive insertion, a
    finalization or the set of a diagonal entry to one.  In exact
    arithmetic, assembling into a target pre-loaded with a first
    result gives the entrywise sum of two results assembled from
    zero. *)
Theorem assembly_is_additive :
  (forall (A : PETScMatrix) (a : Form.t) (bcs : list DirichletBC) (ops : list MatOp),
      Assembler.assemble_matrix_form A a bcs = Ok ops ->
      Forall (fun op => exists r c v, op = MatAdd (mat_id A) r c v) ops
      /\ forall (st : MatState) m r c,
           run_ops ops st m r c = fold_left dadd (contributions m r c ops) (st m r c))
  /\ (forall (L0 : Form.t) (mesh : Mesh) (V : FunctionSpace) (b b' : list double),
      Form.mesh L0 = Ok mesh ->
      Form.function_space L0 0 = Ok (Some V) ->
      Assembler.assemble_vector_form b L0 = Ok b' ->
      forall c, length c = length b ->
        Assembler.assemble_vector_form c L0
        = Ok (imap (fun k x => fold_left dadd (vector_contributions L0 V mesh k) x) c))
  /\ (forall (asm : Assembler.t) (world_size : nat) (A : option MatType)
             (block_type : BlockType) (ops : list MatOp),
      Assembler.assemble_matrix asm world_size A block_type = Ok ops ->
      Forall (fun op => allocation op \/ additive op \/ finalization op
                        \/ sets_diagonal_one op) ops)
  /\ (ScalarLaws S ->
      (forall (A : PETScMatrix) (a : Form.t) (bcs : list DirichletBC) (ops : list MatOp)
              m r c,
          Assembler.assemble_matrix_form A a bcs = Ok ops ->
          run_ops ops (run_ops ops zero_state) m r c
          = dadd (run_ops ops zero_state m r c) (run_ops ops zero_state m r c))
      /\ (forall (L0 : Form.t) (n : nat) (b1 : list double),
          Assembler.assemble_vector_form (replicate n dzero) L0 = Ok b1 ->
          Assembler.assemble_vector_form b1 L0 = Ok (zip_with dadd b1 b1))).
Proof.
  split; [|split; [|split]].
  - intros A a bcs ops H. pose proof (assemble_matrix_form_adds A a bcs ops H) as Hadds.
    split; [exact Hadds|]. apply run_ops_contributions.
    eapply Forall_impl; [exact Hadds|]. simpl. intros op (r & c & v & ->).
    exists (mat_id A), r, c, v. reflexivity.
  - exact assemble_vector_form_accumulates.
  - intros asm world_size A block_type ops Hops.
    destruct (assemble_matrix_dispatch _ _ _ _ _ Hops)
      as (row0 & alloc & body & Hrow0 & Halloc & -> & Hpath).
    apply Forall_app. split.
    { eapply Forall_impl; [exact Halloc|]. simpl. auto. }
    apply Forall_app. split.
    2: { apply Forall_singleton. right. right. left. exists Parent, FINAL. reflexivity. }
    destruct Hpath as [[_ Hbody] | [(_ & _ & blocks & Hblocks & ->)
                                   | (_ & _ & a00 & core & ones & _ & Hcore & Hones & ->)]].
    + apply nested_rows_adds in Hbody. eapply Forall_impl; [exact Hbody|]. simpl. auto.
    + apply Forall_app. split.
      * apply monolithic_rows_adds in Hblocks. eapply Forall_impl; [exact Hblocks|].
        simpl. auto.
      * apply Forall_singleton. right. right. left. exists Parent, FINAL. reflexivity.
    + apply Forall_app. split.
      * apply assemble_matrix_form_adds in Hcore. eapply Forall_impl; [exact Hcore|].
        simpl. intros op (r & c & v & ->). right. left. exists Parent, r, c, v. reflexivity.
      * apply place_ones_sets in Hones. eapply Forall_impl; [exact Hones|]. simpl. auto.
  - intros L. destruct (pre_loaded_assembly_is_the_sum_in_exact_arithmetic (L := L))
      as [Hmat Hvec].
    split; [|exact Hvec]. intros A a bcs ops m r c H. apply (Hmat A a bcs ops H).
Qed.

End Additive.

(** ** Block offsets of the monolithic path *)

Section Offsets.
Context {S : Scalar}.

Lemma monolithic_rows_cons (bcs : list DirichletBC) (offset_row : nat)
    (row : list (option Form.t)) (a : list (list (option Form.t))) :
  Assembler.monolithic_rows bcs offset_row (row :: a) =
    (ops ← Assembler.monolithic_row bcs offset_row 0 row;
     p ← deref (row !! 0);
     ai0 ← deref p;
     map0 ← Assembler.form_index_map ai0 0;
     ops' ← Assembler.monolithic_rows bcs (offset_row + size_ALL map0) a;
     Ok (ops ++ ops')).
Proof. reflexivity. Qed.

(** The offsets are met when the block size is one: in the
    monolithic layout of a 2x2 collection whose block (0,0) has [m0]
    row dofs and [n0] column dofs, whose block (1,0) has as many
    column dofs as block (0,0), and whose block (1,1) has index maps
    of block size one, the insertions of block (1,1) are those of its
    unblocked assembly, each moved from block-local [(r, c)] to
    [(m0 + r, n0 + c)] of the single physical matrix. *)
Lemma monolithic_block_11_lands_at_offsets
    (asm : Assembler.t) (a00 a01 a10 a11 : Form.t) (world_size : nat)
    (A : option MatType) (block_type : BlockType)
    (map00 map00c map10c map11r map11c : IndexMap) (ops : list MatOp)
    (Ha : Assembler._a asm = [[Some a00; Some a01]; [Some a10; Some a11]])
    (Hm0 : Assembler.form_index_map a00 0 = Ok map00)
    (H00c : Assembler.form_index_map a00 1 = Ok map00c)
    (Hn0 : Assembler.form_index_map a10 1 = Ok map10c)
    (Hcolumn : size_ALL map10c = size_ALL map00c)
    (H11r : Assembler.form_index_map a11 0 = Ok map11r)
    (H11c : Assembler.form_index_map a11 1 = Ok map11c)
    (Hbs_r : block_size map11r = 1)
    (Hbs_c : block_size map11c = 1)
    (HA : plain_target A block_type)
    (Hops : Assembler.assemble_matrix asm world_size A block_type = Ok ops) :
  exists before ops11,
    Assembler.assemble_matrix_form (Mat Parent) a11 (Assembler._bcs asm) = Ok ops11
    /\ ops = before
             ++ map (shift_op (size_ALL map00) (size_ALL map00c)) ops11
             ++ [MatApply Parent FINAL; MatApply Parent FINAL].
Proof.
  rewrite <- Hcolumn. clear H00c Hcolumn.
  destruct (assemble_matrix_dispatch _ _ _ _ _ Hops)
    as (row0 & alloc & body & Hrow0 & _ & -> & Hpath).
  destruct Hpath as [[Hn _] | [(_ & _ & blocks & Hblocks & ->) | (_ & Hn & _)]].
  { exfalso. exact (targets_exclusive _ _ Hn HA). }
  2:{ exfalso. apply Hn. exists row0. split; [exact Hrow0|]. left. rewrite Ha. simpl. lia. }
  rewrite Ha in Hblocks. rewrite monolithic_rows_cons in Hblocks.
  apply bind_Ok in Hblocks as (ops_row0 & _ & Hblocks). simpl in Hblocks.
  rewrite Hm0 in Hblocks. simpl in Hblocks.
  apply bind_Ok in Hblocks as (ops_rows & Hrows & Hblocks). injection Hblocks as <-.
  apply bind_Ok in Hrows as (ops_row1 & Hrow1 & Hrows).
  apply bind_Ok in Hrows as (? & _ & Hrows). injection Hrows as <-.
  apply bind_Ok in Hrow1 as (? & _ & Hrow1). rewrite Hn0 in Hrow1. simpl in Hrow1.
  apply bind_Ok in Hrow1 as (ops10 & _ & Hrow1).
  apply bind_Ok in Hrow1 as (ops_rest & Hrest & Hrow1). injection Hrow1 as <-.
  rewrite H11r in Hrest. simpl in Hrest. rewrite H11c in Hrest. simpl in Hrest.
  apply bind_Ok in Hrest as (ops11' & H11 & Hrest). injection Hrest as <-.
  destruct (assemble_matrix_form_view _ _ _ _ _ _ H11) as (ops11 & Hcore & HF).
  apply through_view_shift in HF; [|assumption..]. subst ops11'.
  exists (alloc ++ ops_row0 ++ ops10), ops11. split; [exact Hcore|].
  rewrite !app_nil_r, <- !app_assoc. reflexivity.
Qed.

End Offsets.


(** ** Null blocks, layout hints and finalization *)

Section Layouts.
Context {S : Scalar}.

Lemma final_count_app (m : MatId) (ops1 ops2 : list MatOp) :
  final_count m (ops1 ++ ops2) = final_count m ops1 + final_count m ops2.
Proof. unfold final_count. rewrite filter_app, length_app. reflexivity. Qed.

Lemma final_count_none (m : MatId) (ops : list MatOp) :
  Forall (fun op => is_final m op = false) ops -> final_count m ops = 0.
Proof.
  unfold final_count. induction 1 as [|op ops Hop _ IH]; [reflexivity|].
  rewrite filter_cons_False; [exact IH | congruence].
Qed.

Lemma allocation_not_final (m : MatId) (ops : list MatOp) :
  Forall allocation ops -> Forall (fun op => is_final m op = false) ops.
Proof. intros H. eapply Forall_impl; [exact H|]. intros op [init ->]. reflexivity. Qed.

Lemma insertion_not_final (m m' : MatId) (ops : list MatOp) :
  Forall (insertion m') ops -> Forall (fun op => is_final m op = false) ops.
Proof.
  intros H. eapply Forall_impl; [exact H|].
  intros op (r & c & v & [-> | ->]); reflexivity.
Qed.

Lemma nested_rows_not_final (bcs : list DirichletBC) (a : list (list (option Form.t)))
    (m : MatId) (ops : list MatOp) :
  Assembler.nested_rows bcs 0 a = Ok ops -> Forall (fun op => is_final m op = false) ops.
Proof.
  intros H. eapply Forall_impl; [exact (nested_rows_ops _ _ _ _ H)|]. simpl.
  intros op (i & j & _ & _ & (r & c & v & [-> | ->]) & _); reflexivity.
Qed.

(** C8 (as amended): a matrix assembly that returns has finalized the
    matrix it was given as its last storage call, and has not
    finalized any nested sub-object on its own; in the nested and in
    the single layout this is the only finalization of the call. *)
Theorem matrix_finalized_last_and_sub_objects_never
    (asm : Assembler.t) (world_size : nat) (A : option MatType)
    (block_type : BlockType) (ops : list MatOp)
    (Hops : Assembler.assemble_matrix asm world_size A block_type = Ok ops) :
  (exists ops', ops = ops' ++ [MatApply Parent FINAL])
  /\ (forall i j, final_count (Sub i j) ops = 0)
  /\ (nested_target A block_type \/ ~ multi_block (Assembler._a asm) ->
      final_count Parent ops = 1).
Proof.
  destruct (assemble_matrix_dispatch _ _ _ _ _ Hops)
    as (row0 & alloc & body & Hrow0 & Halloc & -> & Hpath).
  split; [exists (alloc ++ body); rewrite app_assoc; reflexivity|].
  split.
  - intros i j. rewrite !final_count_app.
    rewrite (final_count_none _ alloc (allocation_not_final _ _ Halloc)).
    destruct Hpath as [[_ Hn] | [(_ & _ & blocks & Hb & ->) | (_ & _ & a00 & core & ones & _ & Hc & Ho & ->)]].
    + rewrite (final_count_none _ body (nested_rows_not_final _ _ _ _ Hn)). reflexivity.
    + rewrite final_count_app.
      rewrite (final_count_none _ blocks
                 (insertion_not_final _ _ _ (proj1 (monolithic_rows_ops _ _ _ _ Hb)))).
      reflexivity.
    + rewrite final_count_app.
      rewrite (final_count_none _ ones (insertion_not_final _ _ _ (place_ones_ops _ _ _ _ Ho))).
      rewrite (final_count_none _ core).
      * reflexivity.
      * apply assemble_matrix_form_adds in Hc. eapply Forall_impl; [exact Hc|].
        simpl. intros op (r & c & v & ->). reflexivity.
  - intros Hlayout. rewrite !final_count_app.
    rewrite (final_count_none _ alloc (allocation_not_final _ _ Halloc)).
    destruct Hpath as [[_ Hn] | [(Hp & Hm & _) | (_ & _ & a00 & core & ones & _ & Hc & Ho & ->)]].
    + rewrite (final_count_none _ body (nested_rows_not_final _ _ _ _ Hn)). reflexivity.
    + exfalso. destruct Hlayout as [Hn | Hn]; [|exact (Hn Hm)].
      exact (targets_exclusive _ _ Hn Hp).
    + rewrite final_count_app.
      rewrite (final_count_none _ ones (insertion_not_final _ _ _ (place_ones_ops _ _ _ _ Ho))).
      rewrite (final_count_none _ core).
      * reflexivity.
      * apply assemble_matrix_form_adds in Hc. eapply Forall_impl; [exact Hc|].
        simpl. intros op (r & c & v & ->). reflexivity.
Qed.

(** In the monolithic layout the matrix is finalized twice. *)
Lemma monolithic_finalized_twice
    (asm : Assembler.t) (world_size : nat) (A : option MatType)
    (block_type : BlockType) (ops : list MatOp) :
  plain_target A block_type -> multi_block (Assembler._a asm) ->
  Assembler.assemble_matrix asm world_size A block_type = Ok ops ->
  final_count Parent ops = 2.
Proof.
  intros Hp Hm Hops.
  destruct (assemble_matrix_dispatch _ _ _ _ _ Hops)
    as (row0 & alloc & body & Hrow0 & Halloc & -> & Hpath).
  rewrite !final_count_app.
  rewrite (final_count_none _ alloc (allocation_not_final _ _ Halloc)).
  destruct Hpath as [[Hn _] | [(_ & _ & blocks & Hb & ->) | (_ & Hn & _)]].
  - exfalso. exact (targets_exclusive _ _ Hn Hp).
  - rewrite final_count_app.
    rewrite (final_count_none _ blocks
               (insertion_not_final _ _ _ (proj1 (monolithic_rows_ops _ _ _ _ Hb)))).
    reflexivity.
  - exfalso. exact (Hn Hm).
Qed.

(** C7: in the nested layout no storage call touches the sub-matrix
    of a null block; in the monolithic layout a null block on the
    diagonal makes the call end in an exception (never in a normal
    return), whenever the behaviour of the call is defined. *)
Theorem null_blocks_skipped_when_nested_and_fatal_when_monolithic
    (asm : Assembler.t) (world_size : nat) (A : option MatType)
    (block_type : BlockType) (i : nat) (row : list (option Form.t))
    (Hrow : Assembler._a asm !! i = Some row) :
  (forall ops j,
      nested_target A block_type ->
      row !! j = Some None ->
      Assembler.assemble_matrix asm world_size A block_type = Ok ops ->
      Forall (fun op => op_on (Sub i j) op = false) ops)
  /\ (plain_target A block_type ->
      multi_block (Assembler._a asm) ->
      row !! i = Some None ->
      Assembler.assemble_matrix asm world_size A block_type <> Undefined ->
      exists msg, Assembler.assemble_matrix asm world_size A block_type = Error msg).
Proof.
  split.
  - intros ops j Hn Hnull Hops.
    destruct (assemble_matrix_dispatch _ _ _ _ _ Hops)
      as (row0 & alloc & body & Hrow0 & Halloc & -> & Hpath).
    apply Forall_app. split.
    { eapply Forall_impl; [exact Halloc|]. intros op [init ->]. reflexivity. }
    apply Forall_app. split; [|repeat constructor].
    destruct Hpath as [[_ Hb] | [(Hp & _) | (Hp & _)]];
      [| exfalso; exact (targets_exclusive _ _ Hn Hp)..].
    eapply Forall_impl; [exact (nested_rows_ops _ _ _ _ Hb)|]. simpl.
    intros op (i' & j' & row' & f & (r & c & v & Hop) & _ & Hrow' & Hf).
    rewrite Nat.sub_0_r in Hrow'.
    assert (Hon : bool_decide (Sub i' j' = Sub i j) = false).
    { apply bool_decide_eq_false. intros [= -> ->]. congruence. }
    destruct Hop as [-> | ->]; exact Hon.
  - intros Hp Hm Hnull Hdef.
    destruct (Assembler.assemble_matrix asm world_size A block_type) as [ops|msg|] eqn:Hops.
    + exfalso.
      destruct (assemble_matrix_dispatch _ _ _ _ _ Hops)
        as (row0 & alloc & body & Hrow0 & Halloc & -> & Hpath).
      destruct Hpath as [[Hn _] | [(_ & _ & blocks & Hb & _) | (_ & Hn & _)]].
      * exact (targets_exclusive _ _ Hn Hp).
      * destruct (monolithic_rows_ops _ _ _ _ Hb) as [_ Hnonnull].
        rewrite Forall_forall in Hnonnull.
        assert (Hin : row ∈ Assembler._a asm) by (eapply list_elem_of_lookup_2; eassumption).
        specialize (Hnonnull row Hin). rewrite Forall_forall in Hnonnull.
        apply (Hnonnull None); [|reflexivity].
        eapply list_elem_of_lookup_2; eassumption.
      * exact (Hn Hm).
    + eauto.
    + congruence.
Qed.

Lemma matrix_forms_rectangular (a : list (list (option Form.t))) (n : nat) :
  Forall (fun row : list (option Form.t) => length row <= n) a ->
  exists forms, Assembler.matrix_forms a n = Ok forms.
Proof.
  unfold Assembler.matrix_forms. induction 1 as [|row a Hrow _ [forms IH]]; simpl.
  - eauto.
  - rewrite (bool_decide_eq_true_2 _ Hrow). simpl. rewrite IH. simpl. eauto.
Qed.

(** C6 (as amended): the hint [single] is not rejected on a
    collection of several blocks.  Allocation takes the first block
    alone ([init_matrix] of [a[0][0]], [init_vector] of [L[0]]), and the
    matrix assembly then runs the monolithic path over all blocks. *)
Theorem single_hint_allocates_from_first_block
    (asm : Assembler.t) (a00 L0 : Form.t) (row0 : list (option Form.t))
    (rows_ : list (list (option Form.t))) (ls : list (option Form.t))
    (Ha : Assembler._a asm = (Some a00 :: row0) :: rows_)
    (Hshape : Forall (fun row : list (option Form.t) =>
                        length row <= Datatypes.S (length row0)) rows_)
    (Hl : Assembler._l asm = Some L0 :: ls)
    (Hlen : length ls <= length rows_) :
  Assembler.assemble_matrix_init asm single = Ok (init_matrix a00)
  /\ Assembler.assemble_vector_init asm single = Ok (Assembler.init_vector L0)
  /\ forall world_size blocks,
       multi_block (Assembler._a asm) ->
       Assembler.monolithic_rows (Assembler._bcs asm) 0 (Assembler._a asm) = Ok blocks ->
       Assembler.assemble_matrix asm world_size None single
       = Ok (MatAllocate (init_matrix a00)
               :: blocks ++ [MatApply Parent FINAL; MatApply Parent FINAL]).
Proof.
  assert (Hinit : Assembler.assemble_matrix_init asm single = Ok (init_matrix a00)).
  { unfold Assembler.assemble_matrix_init. rewrite Ha. simpl.
    destruct (matrix_forms_rectangular ((Some a00 :: row0) :: rows_)
                (Datatypes.S (length row0))) as [forms Hforms].
    { constructor; [reflexivity | exact Hshape]. }
    rewrite Hforms. simpl. rewrite andb_false_r. reflexivity. }
  split; [exact Hinit|]. split.
  - unfold Assembler.assemble_vector_init. rewrite Hl, Ha. simpl.
    rewrite (bool_decide_eq_true_2
               (Datatypes.S (length ls) <= Datatypes.S (length rows_))) by lia.
    simpl.
    rewrite andb_false_r. reflexivity.
  - intros world_size blocks (r0 & Hr0 & Hm) Hblocks.
    unfold Assembler.assemble_matrix. rewrite Hinit. rewrite Hr0. simpl.
    assert (Hb : bool_decide (1 < length (Assembler._a asm))
                 || bool_decide (1 < length r0) = true).
    { apply orb_true_iff. rewrite !bool_decide_eq_true. exact Hm. }
    rewrite Hb, Hblocks. simpl. rewrite <- app_assoc. reflexivity.
Qed.

End Layouts.

(** ** [set_bc] *)

Section SetBC.
Context {S : Scalar}.

Lemma fold_left_pointwise {A B : Type} (f g : B -> A -> B) (l : list A) (b : B) :
  (forall b x, f b x = g b x) -> fold_left f l b = fold_left g l b.
Proof.
  intros Hfg. revert b. induction l as [|x l IH]; intros b; simpl; [reflexivity|].
  rewrite Hfg. apply IH.
Qed.

(** A loop over the positions of a list is a loop over its elements. *)
Lemma fold_left_positions {A B : Type} (g : B -> A -> B) (d : A) (l pre : list A) (b : B) :
  fold_left (fun b i => g b (nth i (pre ++ l) d)) (seq (length pre) (length l)) b
  = fold_left g l b.
Proof.
  revert pre b. induction l as [|x l IH]; intros pre b; [reflexivity|].
  simpl. rewrite app_nth2, Nat.sub_diag by lia. simpl.
  specialize (IH (pre ++ [x]) (g b x)).
  rewrite <- app_assoc, length_app, Nat.add_1_r in IH. exact IH.
Qed.

Lemma vec_set_local_pairs (l : list (nat * double)) (b : PETScVector) :
  vec_set_local l.*2 l.*1 b
  = fold_left (fun b (kv : nat * double) => vec_update (fun _ => kv.2) kv.1 b) l b.
Proof.
  unfold vec_set_local. rewrite length_fmap.
  rewrite <- (fold_left_positions
                (fun b (kv : nat * double) => vec_update (fun _ => kv.2) kv.1 b)
                (0, dzero) l [] b).
  apply fold_left_pointwise. intros b' i. simpl.
  change (nth i l.*2 dzero) with (nth i (map snd l) (snd (0, dzero))).
  change (nth i l.*1 0) with (nth i (map fst l) (fst (0, dzero))).
  rewrite !map_nth. reflexivity.
Qed.

Lemma set_pairs_applied (l : list (nat * double)) (b : PETScVector) :
  vec_applied (fold_left (fun b (kv : nat * double) => vec_update (fun _ => kv.2) kv.1 b) l b)
  = vec_applied b.
Proof.
  revert b. induction l as [|kv l IH]; intros b; simpl; [reflexivity|].
  rewrite IH. reflexivity.
Qed.

Lemma set_pairs_other (l : list (nat * double)) (b : PETScVector) (d : nat) :
  d ∉ l.*1 ->
  vec_values (fold_left (fun b (kv : nat * double) => vec_update (fun _ => kv.2) kv.1 b) l b) d
  = vec_values b d.
Proof.
  revert b. induction l as [|[k v] l IH]; intros b Hd; simpl; [reflexivity|].
  rewrite fmap_cons, not_elem_of_cons in Hd. destruct Hd as [Hne Hd].
  rewrite (IH _ Hd). simpl. rewrite bool_decide_eq_false_2 by exact Hne. reflexivity.
Qed.

Lemma set_pairs_key (l : list (nat * double)) (b : PETScVector) (d : nat) (v : double) :
  NoDup l.*1 -> (d, v) ∈ l ->
  vec_values (fold_left (fun b (kv : nat * double) => vec_update (fun _ => kv.2) kv.1 b) l b) d
  = v.
Proof.
  revert b. induction l as [|[k w] l IH]; intros b Hnd Hin; [inversion Hin|].
  rewrite fmap_cons in Hnd. apply NoDup_cons in Hnd as [Hk Hnd].
  apply elem_of_cons in Hin as [Heq | Hin]; simpl.
  - injection Heq as <- <-. rewrite (set_pairs_other l _ d Hk). simpl.
    rewrite bool_decide_eq_true_2 by reflexivity. reflexivity.
  - apply (IH _ Hnd Hin).
Qed.


End SetBC.

(** ** Dirichlet rows and columns of the single layout *)

Section DirichletRows.
Context {S : Scalar}.

Lemma zero_bc_rows_shape (bv : gmap nat double) (dmap0 : list nat) (l : list nat)
    (Ae : EigenRowMatrixXd) :
  let Ae' := fold_left (fun Ae i => if constrained bv (nth i dmap0 0)
                                    then row_setZero i Ae else Ae) l Ae in
  rows Ae' = rows Ae /\ cols Ae' = cols Ae
  /\ (forall i j, coeff Ae i j = dzero -> coeff Ae' i j = dzero)
  /\ (forall i j, i ∈ l -> constrained bv (nth i dmap0 0) = true -> coeff Ae' i j = dzero).
Proof.
  revert Ae. induction l as [|k l IH]; intros Ae; simpl.
  - repeat split; auto. intros i j Hi. inversion Hi.
  - set (Ae1 := if constrained bv (nth k dmap0 0) then row_setZero k Ae else Ae).
    destruct (IH Ae1) as (Hr & Hc & Hkeep & Hzero).
    assert (H1 : rows Ae1 = rows Ae /\ cols Ae1 = cols Ae
                 /\ forall i j, coeff Ae i j = dzero -> coeff Ae1 i j = dzero).
    { unfold Ae1. destruct (constrained bv (nth k dmap0 0)); simpl; [|auto].
      repeat split; auto. intros i j H. case_bool_decide; auto. }
    destruct H1 as (Hr1 & Hc1 & Hkeep1).
    split; [congruence|]. split; [congruence|]. split.
    + intros i j H. apply Hkeep, Hkeep1, H.
    + intros i j Hi Hcon. apply elem_of_cons in Hi as [-> | Hi]; [|auto].
      apply Hkeep. unfold Ae1. rewrite Hcon. simpl.
      rewrite bool_decide_eq_true_2 by reflexivity. reflexivity.
Qed.

Lemma zero_bc_cols_shape (bv : gmap nat double) (dmap1 : list nat) (l : list nat)
    (Ae : EigenRowMatrixXd) :
  let Ae' := fold_left (fun Ae j => if constrained bv (nth j dmap1 0)
                                    then col_setZero j Ae else Ae) l Ae in
  rows Ae' = rows Ae /\ cols Ae' = cols Ae
  /\ (forall i j, coeff Ae i j = dzero -> coeff Ae' i j = dzero)
  /\ (forall i j, j ∈ l -> constrained bv (nth j dmap1 0) = true -> coeff Ae' i j = dzero).
Proof.
  revert Ae. induction l as [|k l IH]; intros Ae; simpl.
  - repeat split; auto. intros i j Hj. inversion Hj.
  - set (Ae1 := if constrained bv (nth k dmap1 0) then col_setZero k Ae else Ae).
    destruct (IH Ae1) as (Hr & Hc & Hkeep & Hzero).
    assert (H1 : rows Ae1 = rows Ae /\ cols Ae1 = cols Ae
                 /\ forall i j, coeff Ae i j = dzero -> coeff Ae1 i j = dzero).
    { unfold Ae1. destruct (constrained bv (nth k dmap1 0)); simpl; [|auto].
      repeat split; auto. intros i j H. case_bool_decide; auto. }
    destruct H1 as (Hr1 & Hc1 & Hkeep1).
    split; [congruence|]. split; [congruence|]. split.
    + intros i j H. apply Hkeep, Hkeep1, H.
    + intros i j Hj Hcon. apply elem_of_cons in Hj as [-> | Hj]; [|auto].
      apply Hkeep. unfold Ae1. rewrite Hcon. simpl.
      rewrite bool_decide_eq_true_2 by reflexivity. reflexivity.
Qed.

(** After the two zeroing loops, the local entries of constrained row
    dofs and of constrained column dofs are zero. *)
Lemma zeroed_coeff (bv0 bv1 : gmap nat double) (dmap0 dmap1 : list nat)
    (Ae : EigenRowMatrixXd) (i j : nat) :
  rows Ae = length dmap0 -> cols Ae = length dmap1 ->
  i < length dmap0 -> j < length dmap1 ->
  constrained bv0 (nth i dmap0 0) = true \/ constrained bv1 (nth j dmap1 0) = true ->
  coeff (zero_bc_cols bv1 dmap1 (zero_bc_rows bv0 dmap0 Ae)) i j = dzero.
Proof.
  intros Hr Hc Hi Hj Hcon. unfold zero_bc_cols, zero_bc_rows.
  destruct (zero_bc_rows_shape bv0 dmap0 (seq 0 (rows Ae)) Ae) as (Hr0 & Hc0 & _ & Hz0).
  match goal with |- coeff (fold_left _ _ ?Ae1) _ _ = _ =>
    destruct (zero_bc_cols_shape bv1 dmap1 (seq 0 (cols Ae1)) Ae1) as (_ & _ & Hk1 & Hz1)
  end.
  destruct Hcon as [Hcon | Hcon].
  - apply Hk1, Hz0; [|exact Hcon]. apply elem_of_seq. lia.
  - apply Hz1; [|exact Hcon]. apply elem_of_seq.
    unfold zero_bc_rows in Hc0. rewrite Hc0. lia.
Qed.

(** The insertions of one cell on a physical matrix. *)
Lemma add_local_Mat (m : MatId) (Ae : EigenRowMatrixXd) (rows_ cols_ : list nat)
    (ops : list MatOp) :
  add_local (Mat m) Ae rows_ cols_ = Ok ops ->
  Forall (fun op => exists i j, i < length rows_ /\ j < length cols_
                                /\ op = MatAdd m (nth i rows_ 0) (nth j cols_ 0)
                                               (coeff Ae i j)) ops.
Proof.
  unfold add_local. intros H. apply mapM_Ok_Forall2 in H.
  assert (Hall : Forall (fun ij : nat * nat => ij.1 < length rows_ /\ ij.2 < length cols_)
                   (flat_map (fun i => map (fun j => (i, j)) (seq 0 (length cols_)))
                             (seq 0 (length rows_)))).
  { apply Forall_forall. intros [i j] Hin. apply list_elem_of_In, in_flat_map in Hin.
    destruct Hin as (i' & Hi' & Hin). apply in_map_iff in Hin as (j' & [= <- <-] & Hj').
    apply in_seq in Hi', Hj'. simpl. lia. }
  induction H as [|ij op ijs ops Hop _ IH]; [constructor|].
  inversion Hall as [|? ? [Hi Hj] Hall']; subst.
  constructor; [|exact (IH Hall')].
  simpl in Hop. injection Hop as <-. exists ij.1, ij.2. auto.
Qed.

(** Every insertion of the unblocked core into a constrained row or a
    constrained column adds zero. *)
Lemma assemble_matrix_form_zeroed (m : MatId) (a : Form.t) (bcs : list DirichletBC)
    (mesh : Mesh) (V0 V1 : FunctionSpace) (ops : list MatOp) :
  Form.mesh a = Ok mesh ->
  Form.function_space a 0 = Ok (Some V0) ->
  Form.function_space a 1 = Ok (Some V1) ->
  Assembler.assemble_matrix_form (Mat m) a bcs = Ok ops ->
  let bv := Assembler.collect_axes (mesh_mpi_size mesh) V0 V1 bcs in
  Forall (fun op => exists r c v,
            op = MatAdd m r c v
            /\ (constrained bv.1 r = true \/ constrained bv.2 c = true -> v = dzero)) ops.
Proof.
  intros Hmesh H0 H1 H bv. unfold Assembler.assemble_matrix_form in H.
  rewrite Hmesh in H. simpl in H. rewrite H0 in H. simpl in H.
  rewrite H1 in H. simpl in H.
  apply bind_Ok in H as (opss & Hm & H). injection H as <-.
  apply Forall_concat. apply mapM_Ok_Forall2 in Hm. fold bv in Hm.
  induction Hm as [|cell ops cells opss Hcell _ IH]; constructor; [|exact IH].
  unfold Assembler.assemble_matrix_cell in Hcell.
  apply bind_Ok in Hcell as (Ae & HAe & Hcell).
  unfold tabulate_matrix in HAe. case_bool_decide; [|discriminate]. injection HAe as <-.
  apply add_local_Mat in Hcell. eapply Forall_impl; [exact Hcell|]. simpl.
  intros op (i & j & Hi & Hj & ->). do 3 eexists. split; [reflexivity|].
  intros Hcon. apply zeroed_coeff; auto.
Qed.

Lemma collect_axes_same (n : nat) (V : FunctionSpace) (bcs : list DirichletBC) :
  Assembler.collect_axes n V V bcs
  = (fold_left (collect_bc n V) bcs ∅, fold_left (collect_bc n V) bcs ∅).
Proof.
  unfold Assembler.collect_axes. generalize (∅ : gmap nat double).
  induction bcs as [|bc bcs IH]; intros bv; simpl; [reflexivity | apply IH].
Qed.

Lemma collect_boundary_values_Some (n : nat) (V : FunctionSpace) (bcs : list DirichletBC) :
  Assembler.collect_boundary_values n (Some V) bcs = Ok (fold_left (collect_bc n V) bcs ∅).
Proof.
  unfold Assembler.collect_boundary_values. generalize (∅ : gmap nat double).
  induction bcs as [|bc bcs IH]; intros bv; simpl; [reflexivity | apply IH].
Qed.

Section Laws.
Context {L : ScalarLaws S}.

(** An entry that is zero stays zero under insertions that add zero
    to it and never set it. *)
Lemma run_ops_keeps_zero (ops : list MatOp) (m : MatId) (r c : nat) :
  Forall (fun op => match op with
                    | MatAdd m' r' c' v => m' = m /\ r' = r /\ c' = c -> v = dzero
                    | MatSet m' r' c' _ => ~ (m' = m /\ r' = r /\ c' = c)
                    | _ => True
                    end) ops ->
  forall st : MatState, st m r c = dzero -> run_ops ops st m r c = dzero.
Proof.
  induction 1 as [|op ops Hop _ IH]; intros st Hst; [exact Hst|].
  change (run_ops (op :: ops) st) with (run_ops ops (run_op op st)).
  apply IH. destruct op as [init|m' r' c' v|m' r' c' v|m' t]; simpl.
  - reflexivity.
  - case_bool_decide as Hhit; [|exact Hst].
    destruct Hhit as (-> & -> & ->). rewrite Hst, (Hop (conj eq_refl (conj eq_refl eq_refl))).
    apply dadd_0_l.
  - rewrite bool_decide_eq_false_2; [exact Hst|].
    intros (-> & -> & ->). apply Hop. auto.
  - exact Hst.
Qed.

End Laws.

(** Setting ones on diagonal entries leaves a one on each of them. *)
Lemma run_ones (ks : list nat) (d : nat) (st : MatState) :
  d ∈ ks \/ st Parent d d = done_ ->
  run_ops (map (fun k => MatSet Parent k k done_) ks) st Parent d d = done_.
Proof.
  revert st. induction ks as [|k ks IH]; intros st H.
  - destruct H as [H | H]; [inversion H | exact H].
  - change (run_ops (map (fun k => MatSet Parent k k done_) (k :: ks)) st)
      with (run_ops (map (fun k => MatSet Parent k k done_) ks)
                    (run_op (MatSet Parent k k done_) st)).
    apply IH. destruct (decide (d = k)) as [-> | Hne].
    + right. simpl. rewrite bool_decide_eq_true_2 by auto. reflexivity.
    + destruct H as [H | H].
      * left. apply elem_of_cons in H as [H | H]; [contradiction | exact H].
      * right. simpl. rewrite bool_decide_eq_false_2; [exact H|].
        intros (_ & -> & _). contradiction.
Qed.

End DirichletRows.

Section SingleLayout.
Context {S : Scalar} {L : ScalarLaws S}.

(** In the single layout, on a block whose two function spaces are
    the same object, the row and the column of every constrained dof
    of the assembled matrix are zero but for a one on the diagonal. *)
Lemma single_layout_identity_rows
    (asm : Assembler.t) (world_size : nat) (A : option MatType) (block_type : BlockType)
    (a : Form.t) (V : FunctionSpace) (mesh : Mesh) (ops : list MatOp) (d : nat) :
  Assembler._a asm = [[Some a]] ->
  plain_target A block_type ->
  Form.mesh a = Ok mesh ->
  Form.function_space a 0 = Ok (Some V) ->
  Form.function_space a 1 = Ok (Some V) ->
  world_size = mesh_mpi_size mesh ->
  Assembler.assemble_matrix asm world_size A block_type = Ok ops ->
  constrained (fold_left (collect_bc world_size V) (Assembler._bcs asm) ∅) d = true ->
  run_ops ops zero_state Parent d d = done_
  /\ forall c, c <> d ->
       run_ops ops zero_state Parent d c = dzero
       /\ run_ops ops zero_state Parent c d = dzero.
Proof.
  intros Ha Hp Hmesh H0 H1 Hw Hops Hd.
  destruct (assemble_matrix_dispatch _ _ _ _ _ Hops)
    as (row0 & alloc & body & Hrow0 & Halloc & -> & Hpath).
  rewrite Ha in Hrow0. injection Hrow0 as <-.
  destruct Hpath as [[Hn _] | [(_ & Hm & _) | (_ & _ & a00 & core & ones & Ha00 & Hc & Ho & ->)]].
  { exfalso. exact (targets_exclusive _ _ Hn Hp). }
  { exfalso. destruct Hm as (r0 & Hr0 & Hm). rewrite Ha in Hr0, Hm.
    injection Hr0 as <-. simpl in Hm. lia. }
  injection Ha00 as <-.
  unfold Assembler.place_ones in Ho. rewrite H0, H1 in Ho. simpl in Ho.
  rewrite bool_decide_eq_true_2 in Ho by reflexivity.
  rewrite collect_boundary_values_Some in Ho. simpl in Ho. injection Ho as <-.
  set (bv := fold_left (collect_bc world_size V) (Assembler._bcs asm) ∅) in *.
  pose proof (assemble_matrix_form_zeroed _ _ _ _ _ _ _ Hmesh H0 H1 Hc) as Hzero.
  simpl in Hzero. rewrite collect_axes_same, <- Hw in Hzero. fold bv in Hzero.
  simpl in Hzero.
  split.
  - rewrite !run_ops_app. simpl.
    replace (map (fun bc : nat * double => MatSet Parent bc.1 bc.1 done_) (map_to_list bv))
      with (map (fun k => MatSet Parent k k done_) (map_to_list bv).*1)
      by (rewrite <- list_fmap_compose; reflexivity).
    apply run_ones. left.
    unfold constrained in Hd. apply bool_decide_eq_true in Hd as [v Hv].
    apply list_elem_of_fmap. exists (d, v). split; [reflexivity|].
    apply elem_of_map_to_list. exact Hv.
  - intros c Hne.
    assert (Hrow : forall r' c', (r' = d \/ c' = d) -> r' <> c' ->
              Forall (fun op => match op with
                                | MatAdd m0 r0 c0 v => m0 = Parent /\ r0 = r' /\ c0 = c' -> v = dzero
                                | MatSet m0 r0 c0 _ => ~ (m0 = Parent /\ r0 = r' /\ c0 = c')
                                | _ => True
                                end)
                     (alloc ++ (core ++ map (fun bc : nat * double =>
                                                MatSet Parent bc.1 bc.1 done_)
                                            (map_to_list bv))
                            ++ [MatApply Parent FINAL])).
    { intros r' c' Hdc Hoff. apply Forall_app. split.
      { eapply Forall_impl; [exact Halloc|]. intros op [init ->]. exact I. }
      apply Forall_app. split; [|repeat constructor].
      apply Forall_app. split.
      - eapply Forall_impl; [exact Hzero|]. simpl.
        intros op (r0 & c0 & v & -> & Hv) (_ & -> & ->).
        apply Hv. destruct Hdc as [-> | ->]; auto.
      - apply Forall_forall. intros op Hop.
        apply list_elem_of_fmap in Hop as (bc & -> & _).
        intros (_ & Hr & Hc'). congruence. }
    split; apply run_ops_keeps_zero; try reflexivity; apply Hrow; auto.
Qed.

End SingleLayout.

(** ** [apply_bc] *)

Section ApplyBC.
Context {S : Scalar}.

Lemma foldM_pointwise {A B : Type} (f g : B -> A -> outcome B) (l : list A) (b : B) :
  (forall b x, x ∈ l -> f b x = g b x) -> foldM f l b = foldM g l b.
Proof.
  revert b. induction l as [|x l IH]; intros b Hfg; simpl; [reflexivity|].
  rewrite Hfg by left. destruct (g b x); simpl; try reflexivity.
  apply IH. intros b' y Hy. apply Hfg. right. exact Hy.
Qed.

(** On a form whose two function spaces number the dofs of every
    cell alike, [apply_bc] does what is specified. *)
Lemma apply_bc_meets_spec_on_equal_cell_dofs
    (b : PETScVector) (a : Form.t) (bcs : list DirichletBC) :
  (forall mesh V0 V1 cell,
      Form.mesh a = Ok mesh ->
      Form.function_space a 0 = Ok (Some V0) ->
      Form.function_space a 1 = Ok (Some V1) ->
      cell ∈ mesh_cells mesh ->
      cell_dofs (fs_dofmap V0) cell = cell_dofs (fs_dofmap V1) cell) ->
  Assembler.apply_bc b a bcs = apply_bc_spec b a bcs.
Proof.
  intros Hsame. unfold Assembler.apply_bc, apply_bc_spec.
  destruct (Form.mesh a) as [mesh| |] eqn:Hmesh; simpl; try reflexivity.
  destruct (foldM _ bcs ∅) as [bv| |]; simpl; try reflexivity.
  destruct (Form.function_space a 0) as [[V0|]| |] eqn:H0; simpl; try reflexivity.
  destruct (Form.function_space a 1) as [[V1|]| |] eqn:H1; simpl; try reflexivity.
  rewrite (foldM_pointwise _ (apply_bc_cell_spec a (fs_dofmap V0) (fs_dofmap V1) bv));
    [reflexivity|].
  intros b' cell Hcell. unfold Assembler.apply_bc_cell, apply_bc_cell_spec.
  rewrite (Hsame mesh V0 V1 cell); auto.
Qed.

End ApplyBC.

(** * The model on concrete inputs *)

Section Runs.

Local Abbreviation asm_matrix := (Assembler.assemble_matrix (S := Z_Scalar)).

(** C1: in the nested layout the diagonal entry of a constrained dof
    is not set to one.  On the one-block Poisson system with dofs 0
    and 4 constrained, the sub-matrix (0,0) of the nested matrix has
    zero rows and columns 0 and 4, diagonal included, while the single
    layout has ones on the two diagonal entries. *)
Theorem nested_layout_leaves_constrained_diagonal_zero :
  (exists ops,
      asm_matrix Ex.poisson 1 None nested = Ok ops
      /\ run_ops ops zero_state (Sub 0 0) 0 0 = 0%Z
      /\ run_ops ops zero_state (Sub 0 0) 4 4 = 0%Z
      /\ run_ops ops zero_state (Sub 0 0) 0 1 = 0%Z
      /\ run_ops ops zero_state (Sub 0 0) 1 0 = 0%Z
      /\ existsb (fun op => match op with MatSet _ _ _ _ => true | _ => false end) ops
         = false)
  /\ (exists ops,
      asm_matrix Ex.poisson 1 None monolithic = Ok ops
      /\ run_ops ops zero_state Parent 0 0 = 1%Z
      /\ run_ops ops zero_state Parent 4 4 = 1%Z
      /\ run_ops ops zero_state Parent 0 1 = 0%Z
      /\ run_ops ops zero_state Parent 1 0 = 0%Z).
Proof.
  split; eexists; (split; [vm_compute; reflexivity|]); vm_compute; repeat split.
Qed.

Lemma single_layout_identity_rows_witness :
  exists ops,
    asm_matrix Ex.poisson 1 None single = Ok ops
    /\ run_ops ops zero_state Parent 4 4 = 1%Z
    /\ forall c, c <> 4 ->
         run_ops ops zero_state Parent 4 c = 0%Z
         /\ run_ops ops zero_state Parent c 4 = 0%Z.
Proof.
  assert (Hrun : exists ops, asm_matrix Ex.poisson 1 None single = Ok ops).
  { eexists. vm_compute. reflexivity. }
  destruct Hrun as [ops Hops]. exists ops. split; [exact Hops|].
  apply (single_layout_identity_rows (L := Z_ScalarLaws) Ex.poisson 1 None single
           Ex.stiffness Ex.P1 Ex.mesh4 ops 4); try reflexivity.
  - right. split; [reflexivity | discriminate].
  - exact Hops.
Defined.

(** C2: in the monolithic layout the entries of block (1,1) do not
    land at [(m0 + r, n0 + c)].  The running offsets count dofs, and
    are handed to [ISCreateBlock] as block indices, which multiplies
    them by the block size of the index map.  On a 2x2 collection
    whose first field has 4 dofs and whose second field has 8 dofs in
    blocks of two, block (1,1) inserts at its local entry (0,0), yet
    nothing is inserted at entry (4,4) of the monolithic matrix: the
    insertion lands at entry (8,8).  No block inserts anything in rows
    4 to 7, and row 15 receives insertions although the matrix has
    4 + 8 = 12 rows. *)
Theorem monolithic_offsets_block_size_two :
  exists ops ops11,
    asm_matrix Ex.mixed_vector 1 (Some MATAIJ) monolithic = Ok ops
    /\ Assembler.form_index_map Ex.mass0 0 = Ok {| size_ALL := 4; block_size := 1 |}
    /\ Assembler.form_index_map Ex.mass0 1 = Ok {| size_ALL := 4; block_size := 1 |}
    /\ Assembler.form_index_map Ex.mass0v 0 = Ok {| size_ALL := 8; block_size := 2 |}
    /\ Assembler.form_index_map Ex.mass0v 1 = Ok {| size_ALL := 8; block_size := 2 |}
    /\ Assembler.assemble_matrix_form (Mat Parent) Ex.mass0v [] = Ok ops11
    /\ existsb (inserts_at Parent 0 0) ops11 = true
    /\ existsb (inserts_at Parent (4 + 0) (4 + 0)) ops = false
    /\ existsb (inserts_at Parent 8 8) ops = true
    /\ forallb (fun r => negb (existsb (inserts_in_row Parent r) ops)) [4; 5; 6; 7] = true
    /\ existsb (inserts_in_row Parent 15) ops = true.
Proof.
  do 2 eexists. split; [vm_compute; reflexivity|].
  split; [reflexivity|]. split; [reflexivity|].
  split; [reflexivity|]. split; [reflexivity|].
  split; [vm_compute; reflexivity|]. vm_compute. repeat split.
Qed.

Lemma monolithic_block_11_lands_at_offsets_witness :
  exists ops before ops11,
    asm_matrix Ex.mixed_scalar 1 None monolithic = Ok ops
    /\ Assembler.assemble_matrix_form (Mat Parent) Ex.mass0 [Ex.bc_ends] = Ok ops11
    /\ ops = before ++ map (shift_op 5 5) ops11
                    ++ [MatApply Parent FINAL; MatApply Parent FINAL].
Proof.
  assert (Hrun : exists ops, asm_matrix Ex.mixed_scalar 1 None monolithic = Ok ops).
  { eexists. vm_compute. reflexivity. }
  destruct Hrun as [ops Hops]. exists ops.
  destruct (monolithic_block_11_lands_at_offsets
              Ex.mixed_scalar Ex.stiffness Ex.crossP0 Ex.cross0P Ex.mass0 1 None monolithic
              {| size_ALL := 5; block_size := 1 |} {| size_ALL := 5; block_size := 1 |}
              {| size_ALL := 5; block_size := 1 |} {| size_ALL := 4; block_size := 1 |}
              {| size_ALL := 4; block_size := 1 |} ops
              eq_refl eq_refl eq_refl eq_refl eq_refl eq_refl eq_refl eq_refl eq_refl)
    as (before & ops11 & H11 & Heq).
  - right. split; [reflexivity | discriminate].
  - exact Hops.
  - exists before, ops11. auto.
Defined.

(** C3: [apply_bc] adds the lifted local vector at the cell dofs of
    function space 1, not of function space 0.  On a form with test
    space DG1 and trial space P1, and the value 1 prescribed at dof 4
    of P1, the entry of row 6 (a dof of DG1 in the last cell, whose
    local column for dof 4 holds 2) keeps its value 7 instead of
    becoming 5, and the entry 3 is changed instead. *)
Theorem apply_bc_adds_at_column_space_dofs :
  (exists b',
      Assembler.apply_bc Ex.sevens Ex.coupling [Ex.bc_ends] = Ok b'
      /\ vec_values b' 6 = 7%Z /\ vec_values b' 7 = 7%Z
      /\ vec_values b' 3 = 5%Z /\ vec_values b' 4 = 3%Z)
  /\ (exists b',
      apply_bc_spec Ex.sevens Ex.coupling [Ex.bc_ends] = Ok b'
      /\ vec_values b' 6 = 5%Z /\ vec_values b' 7 = 3%Z
      /\ vec_values b' 3 = 7%Z /\ vec_values b' 4 = 7%Z).
Proof.
  split; eexists; (split; [vm_compute; reflexivity|]); vm_compute; repeat split.
Qed.

Lemma apply_bc_meets_spec_on_equal_cell_dofs_witness :
  Assembler.apply_bc Ex.sevens Ex.stiffness [Ex.bc_ends]
  = apply_bc_spec Ex.sevens Ex.stiffness [Ex.bc_ends].
Proof.
  apply apply_bc_meets_spec_on_equal_cell_dofs.
  intros mesh V0 V1 cell _ H0 H1 _.
  injection H0 as <-. injection H1 as <-. reflexivity.
Defined.

(** C4: assembling into a target pre-loaded with a first result is
    not the entrywise sum of two results assembled from zero.  In
    [double] arithmetic, with the local vector (1.8, 0.1) on every
    cell, entry 1 of the linear form assembled into its own result is
    3.7999999999999998, while the sum of the two results is
    3.8000000000000003.  In the single layout, the diagonal entry of
    a constrained dof is set, not added to: it is 1 after a second
    assembly into the assembled matrix, not 2, while the entry (2,2)
    of an unconstrained dof is doubled. *)
Lemma pre_loaded_assembly_is_not_the_sum :
  (exists b1 b2,
      Assembler.assemble_vector_form (S := binary64) (replicate 5 0%float) Ex.source_double
      = Ok b1
      /\ Assembler.assemble_vector_form b1 Ex.source_double = Ok b2
      /\ b2 !! 1 = Some 0x1.e666666666666p+1%float
      /\ zip_with PrimFloat.add b1 b1 !! 1 = Some 0x1.e666666666667p+1%float
      /\ b2 <> zip_with PrimFloat.add b1 b1)
  /\ (exists ops,
      asm_matrix Ex.poisson 1 (Some MATAIJ) single = Ok ops
      /\ run_ops ops zero_state Parent 0 0 = 1%Z
      /\ run_ops ops (run_ops ops zero_state) Parent 0 0 = 1%Z
      /\ run_ops ops zero_state Parent 2 2 = 2%Z
      /\ run_ops ops (run_ops ops zero_state) Parent 2 2 = 4%Z).
Proof.
  split.
  - do 2 eexists. split; [vm_compute; reflexivity|].
    split; [vm_compute; reflexivity|].
    split; [vm_compute; reflexivity|].
    split; [vm_compute; reflexivity|].
    intros H.
    pose proof (f_equal (fun l : list float =>
                           match l !! 1 with
                           | Some x => PrimFloat.eqb x 0x1.e666666666666p+1%float
                           | None => false
                           end) H) as E.
    vm_compute in E. discriminate.
  - eexists. split; [vm_compute; reflexivity|]. vm_compute. repeat split.
Qed.

(** Addition of [double]s is not associative. *)
Lemma binary64_is_not_exact : ~ ScalarLaws binary64.
Proof.
  intros [_ _ Hassoc].
  specialize (Hassoc (0x1.ccccccccccccdp+0 + 0x1.999999999999ap-4)%float
                     0x1.999999999999ap-4%float 0x1.ccccccccccccdp+0%float).
  pose proof (f_equal (PrimFloat.eqb 0x1.e666666666667p+1%float) Hassoc) as E.
  vm_compute in E. discriminate.
Qed.

Lemma assembly_is_additive_witness :
  (exists ops,
      Assembler.assemble_matrix_form (Mat Parent) Ex.stiffness [Ex.bc_ends] = Ok ops
      /\ run_ops ops (run_ops ops zero_state) Parent 2 2 = 4%Z)
  /\ Assembler.assemble_vector_form (S := binary64)
       [1; 1; 1; 1; 1]%float Ex.source_double
     = Ok (imap (fun k x => fold_left PrimFloat.add
                              (vector_contributions Ex.source_double Ex.P1 Ex.mesh4 k) x)
                [1; 1; 1; 1; 1]%float).
Proof.
  destruct (assembly_is_additive (S := Z_Scalar)) as (Hmat & _ & _ & _).
  destruct (assembly_is_additive (S := binary64)) as (_ & Hvec & _ & _).
  split.
  - assert (Hrun : exists ops, Assembler.assemble_matrix_form (Mat Parent) Ex.stiffness
                                 [Ex.bc_ends] = Ok ops).
    { eexists. vm_compute. reflexivity. }
    destruct Hrun as [ops Hops]. exists ops. split; [exact Hops|].
    destruct (Hmat _ _ _ _ Hops) as [_ Hsum]. rewrite Hsum.
    injection Hops as <-. vm_compute. reflexivity.
  - apply (Hvec Ex.source_double Ex.mesh4 Ex.P1 (replicate 5 0%float)
             [0x1.ccccccccccccdp+0; 0x1.ccccccccccccdp+0 + 0x1.999999999999ap-4;
              0x1.ccccccccccccdp+0 + 0x1.999999999999ap-4;
              0x1.ccccccccccccdp+0 + 0x1.999999999999ap-4;
              0x1.999999999999ap-4]%float);
      reflexivity.
Defined.


(** C6: the hint [single] on a 2x2 collection raises no error: the
    matrix is allocated from block (0,0), the vector from [L[0]], and
    the matrix assembly returns. *)
Lemma single_hint_on_2x2_raises_no_error :
  multi_block (Assembler._a Ex.mixed_scalar)
  /\ Assembler.assemble_matrix_init Ex.mixed_scalar single = Ok (init_matrix Ex.stiffness)
  /\ Assembler.assemble_vector_init Ex.mixed_scalar single
     = Ok (Assembler.init_vector Ex.source)
  /\ (exists ops, asm_matrix Ex.mixed_scalar 1 None single = Ok ops)
  /\ ~ (exists msg, asm_matrix Ex.mixed_scalar 1 None single = Error msg).
Proof.
  split; [eexists; split; [reflexivity | left; simpl; lia]|].
  split; [reflexivity|]. split; [reflexivity|].
  assert (Hrun : exists ops, asm_matrix Ex.mixed_scalar 1 None single = Ok ops).
  { eexists. vm_compute. reflexivity. }
  split; [exact Hrun|]. destruct Hrun as [ops Hops]. intros [msg Hmsg]. congruence.
Qed.

Lemma single_hint_allocates_from_first_block_witness :
  Assembler.assemble_matrix_init Ex.mixed_scalar single = Ok (init_matrix Ex.stiffness)
  /\ Assembler.assemble_vector_init Ex.mixed_scalar single
     = Ok (Assembler.init_vector Ex.source).
Proof.
  destruct (single_hint_allocates_from_first_block
              Ex.mixed_scalar Ex.stiffness Ex.source [Some Ex.crossP0]
              [[Some Ex.cross0P; Some Ex.mass0]] [None] eq_refl)
    as (Hmat & Hvec & _).
  - repeat constructor.
  - reflexivity.
  - simpl. lia.
  - split; assumption.
Defined.

Lemma null_blocks_skipped_when_nested_and_fatal_when_monolithic_witness :
  (forall ops,
      asm_matrix Ex.null_diagonal 1 None nested = Ok ops ->
      Forall (fun op => op_on (Sub 1 1) op = false) ops)
  /\ (exists msg, asm_matrix Ex.null_diagonal 1 None monolithic = Error msg).
Proof.
  split.
  - intros ops Hops.
    apply (proj1 (null_blocks_skipped_when_nested_and_fatal_when_monolithic
                    Ex.null_diagonal 1 None nested 1 [Some Ex.cross0P; None] eq_refl)
             ops 1); [right; auto | reflexivity | exact Hops].
  - apply (proj2 (null_blocks_skipped_when_nested_and_fatal_when_monolithic
                    Ex.null_diagonal 1 None monolithic 1 [Some Ex.cross0P; None] eq_refl)).
    + right. split; [reflexivity | discriminate].
    + eexists. split; [reflexivity | left; simpl; lia].
    + reflexivity.
    + vm_compute. discriminate.
Defined.

(** C8: the finalizations of one call are not one per physical
    object.  In the nested layout of a 2x2 collection the sub-matrix
    (1,1) is assembled and never finalized on its own; in the
    monolithic layout the one physical matrix is finalized twice. *)
Lemma finalization_counts_on_2x2 :
  (exists ops,
      asm_matrix Ex.mixed_scalar 1 None nested = Ok ops
      /\ existsb (op_on (Sub 1 1)) ops = true
      /\ final_count (Sub 1 1) ops = 0)
  /\ (exists ops,
      asm_matrix Ex.mixed_scalar 1 None monolithic = Ok ops
      /\ final_count Parent ops = 2).
Proof.
  split; eexists; (split; [vm_compute; reflexivity|]); vm_compute; repeat split.
Qed.

Lemma matrix_finalized_last_and_sub_objects_never_witness :
  exists ops,
    asm_matrix Ex.mixed_scalar 1 None nested = Ok ops
    /\ (exists ops', ops = ops' ++ [MatApply Parent FINAL])
    /\ final_count (Sub 1 1) ops = 0
    /\ final_count Parent ops = 1.
Proof.
  assert (Hrun : exists ops, asm_matrix Ex.mixed_scalar 1 None nested = Ok ops).
  { eexists. vm_compute. reflexivity. }
  destruct Hrun as [ops Hops]. exists ops. split; [exact Hops|].
  destruct (matrix_finalized_last_and_sub_objects_never
              Ex.mixed_scalar 1 None nested ops Hops) as (Hlast & Hsub & Hparent).
  split; [exact Hlast|]. split; [apply Hsub|].
  apply Hparent. left. right. auto.
Defined.

(** C9: no error is raised before the cell loop of an assembly.  The
    stiffness form declared with a quadratic element while its spaces
    are linear fails [check], yet assembling it returns, with
    insertions made by the cell loop. *)
Lemma mismatched_form_is_assembled :
  Form.check Ex.stiffness_P2_expected = Error (Form.argument_msg 0)
  /\ (exists ops,
        asm_matrix Ex.poisson_P2_expected 1 None monolithic = Ok ops
        /\ existsb (inserts_at Parent 1 1) ops = true)
  /\ ~ (exists msg, asm_matrix Ex.poisson_P2_expected 1 None monolithic = Error msg).
Proof.
  split; [reflexivity|].
  assert (Hrun : exists ops, asm_matrix Ex.poisson_P2_expected 1 None monolithic = Ok ops
                             /\ existsb (inserts_at Parent 1 1) ops = true).
  { eexists. split; vm_compute; reflexivity. }
  split; [exact Hrun|]. destruct Hrun as (ops & Hops & _). intros [msg Hmsg]. congruence.
Qed.

Lemma Form_check_rejects_signature_mismatch_witness :
  exists msg, Form.check Ex.stiffness_P2_expected = Error msg.
Proof.
  apply (Form_check_rejects_signature_mismatch
           Ex.stiffness_P2_expected
           {| ufc_rank := 2; ufc_num_coefficients := 0;
              ufc_element_signature := fun _ => "P2" |}
           0 Ex.P1 {| signature := "P1" |} eq_refl).
  - repeat constructor; eexists _, _; split; reflexivity.
  - reflexivity.
  - reflexivity.
  - simpl. discriminate.
Defined.

Lemma Form_mesh_cross_checks_primary_meshes_only_witness :
  Form.mesh Ex.stiffness_foreign_coefficient = Ok Ex.mesh4
  /\ Form.coefficient_meshes Ex.stiffness_foreign_coefficient = Ok [Ex.mesh_other]
  /\ Form.mesh Ex.stiffness_foreign_marker = Error Form.non_matching_msg.
Proof.
  split; [|split; [reflexivity|]].
  - destruct (Form_mesh_cross_checks_primary_meshes_only Ex.stiffness_foreign_coefficient)
      as [Hprimary _].
    + repeat constructor; intros V [= <-]; eexists; reflexivity.
    + destruct (Hprimary Ex.mesh4) as (Hagree & _ & _).
      * left. exists Ex.P1. split; [left | reflexivity].
      * apply Hagree. intros m' [(V & HV & Hm) | [H | (mf & Hmf & _)]].
        -- simpl in HV.
           repeat (apply elem_of_cons in HV as [HV | HV];
                   [injection HV as ->; simpl in Hm; congruence|]).
           inversion HV.
        -- discriminate.
        -- simpl in Hmf. repeat (apply elem_of_cons in Hmf as [[=] | Hmf]). inversion Hmf.
  - destruct (Form_mesh_cross_checks_primary_meshes_only Ex.stiffness_foreign_marker)
      as [Hprimary _].
    + repeat constructor; intros V [= <-]; eexists; reflexivity.
    + destruct (Hprimary Ex.mesh4) as (_ & Hdiffer & _).
      * left. exists Ex.P1. split; [left | reflexivity].
      * apply (Hdiffer Ex.mesh_other); [|discriminate].
        right. right. exists {| mf_mesh := Ex.mesh_other |}. split; [left | reflexivity].
Defined.

End Runs.

(** * Further properties of the code *)

(** ** [Form] *)

Section FormMembers.
Context {S : Scalar}.

Lemma check_arguments_Ok (u : ufc_form) (k : nat) (Vs : list (option FunctionSpace)) :
  Form.check_arguments u k Vs = Ok tt
  <-> forall i p, Vs !! i = Some p ->
        exists V e, p = Some V /\ fs_element V = Some e
                    /\ ufc_element_signature u (k + i) = signature e.
Proof.
  revert k. induction Vs as [|p Vs IH]; intros k; simpl.
  - split; [|reflexivity]. intros _ i p H. discriminate.
  - split.
    + intros H. apply bind_Ok in H as (V & HV & H). apply deref_Ok in HV. subst p.
      apply bind_Ok in H as (e & He & H). apply deref_Ok in He.
      case_bool_decide as Hsig; [|discriminate].
      intros [|i] q Hq; simpl in Hq.
      * injection Hq as <-. exists V, e. rewrite Nat.add_0_r. auto.
      * destruct (proj1 (IH (Datatypes.S k)) H i q Hq) as (V' & e' & -> & He' & Hs).
        exists V', e'. replace (k + Datatypes.S i) with (Datatypes.S k + i) by lia. auto.
    + intros H. destruct (H 0 p eq_refl) as (V & e & -> & He & Hs).
      simpl. rewrite He. simpl. rewrite Nat.add_0_r in Hs.
      rewrite (bool_decide_eq_true_2 _ Hs). apply IH. intros i q Hq.
      destruct (H (Datatypes.S i) q Hq) as (V' & e' & -> & He' & Hs').
      exists V', e'. replace (Datatypes.S k + i) with (k + Datatypes.S i) by lia. auto.
Qed.

(** X1: [Form::check] returns normally exactly on the forms that have
    generated code whose rank is the number of function spaces, whose
    number of coefficients is the number of coefficient slots, and
    whose every argument space is a valid pointer to a space with an
    element of the expected signature. *)
Theorem Form_check_accepts_exactly_matching_forms (f : Form.t) :
  Form.check f = Ok tt
  <-> exists u,
        Form._ufc_form f = Some u
        /\ ufc_rank u = length (Form._function_spaces f)
        /\ ufc_num_coefficients u = length (Form._coefficients f)
        /\ forall i p, Form._function_spaces f !! i = Some p ->
             exists V e, p = Some V /\ fs_element V = Some e
                         /\ ufc_element_signature u i = signature e.
Proof.
  unfold Form.check. split.
  - intros H. apply bind_Ok in H as (u & Hu & H). apply deref_Ok in Hu.
    exists u. split; [exact Hu|].
    case_bool_decide as Hr; simpl in H; [|discriminate].
    case_bool_decide as Hc; simpl in H; [|discriminate].
    split; [exact Hr|]. split; [exact Hc|].
    exact (proj1 (check_arguments_Ok u 0 _) H).
  - intros (u & -> & Hr & Hc & Hargs). simpl.
    rewrite (bool_decide_eq_true_2 _ Hr), (bool_decide_eq_true_2 _ Hc). simpl.
    apply check_arguments_Ok. exact Hargs.
Qed.

Lemma function_space_meshes_elem (Vs : list (option FunctionSpace)) (ms : list Mesh) :
  Form.function_space_meshes Vs = Ok ms ->
  forall V, Some V ∈ Vs -> exists m, fs_mesh V = Some m /\ m ∈ ms.
Proof.
  revert ms. induction Vs as [|[V0|] Vs IH]; intros ms H V HV; simpl in H.
  - inversion HV.
  - apply bind_Ok in H as (m0 & Hm0 & H). apply deref_Ok in Hm0.
    apply bind_Ok in H as (ms' & Hms' & H). injection H as <-.
    apply elem_of_cons in HV as [[= ->] | HV].
    + exists m0. split; [exact Hm0 | left].
    + destruct (IH _ Hms' V HV) as (m & Hm & Hin). exists m. split; [exact Hm | right; exact Hin].
  - apply elem_of_cons in HV as [HV | HV]; [discriminate|]. eauto.
Qed.

(** X2: the mesh that [Form::mesh] returns is the mesh of every
    function space of the form, the mesh set with [set_mesh] if there
    is one, and the mesh of every marker that is attached. *)
Theorem Form_mesh_is_common_to_spaces_and_markers (f : Form.t) (m : Mesh)
    (Hmesh : Form.mesh f = Ok m) :
  (forall V, Some V ∈ Form._function_spaces f -> fs_mesh V = Some m)
  /\ (forall m', Form._mesh f = Some m' -> m' = m)
  /\ (forall d, d ∈ [Form.dx f; Form.ds f; Form.dS f; Form.dP f] ->
      forall mf, d = Some mf -> mf_mesh mf = m).
Proof.
  unfold Form.mesh in Hmesh. apply bind_Ok in Hmesh as (ms & Hprimary & Hmesh).
  apply bind_Ok in Hmesh as (ms2 & Hsel & Hmesh).
  assert (Hall : forall m', m' ∈ ms -> m' = m).
  { intros m' Hin. destruct ms as [|m0 ms0]; [inversion Hin|]. injection Hsel as <-.
    destruct (Form.all_same (m0 :: ms0)) eqn:Hsame; [|discriminate].
    injection Hmesh as <-. apply (proj1 (all_same_true _) Hsame); [exact Hin | left]. }
  unfold Form.primary_meshes in Hprimary.
  apply bind_Ok in Hprimary as (fsm & Hfsm & Hprimary). injection Hprimary as <-.
  split; [|split].
  - intros V HV. destruct (function_space_meshes_elem _ _ Hfsm V HV) as (m' & Hm' & Hin).
    rewrite Hm'. f_equal. apply Hall. apply elem_of_app. left. exact Hin.
  - intros m' Hm'. apply Hall. rewrite Hm'. simpl.
    apply elem_of_app. right. left.
  - intros d Hd mf ->. apply Hall. apply elem_of_app. right.
    apply elem_of_app. right.
    repeat (apply elem_of_cons in Hd as [Hd | Hd];
            [rewrite <- Hd; simpl; rewrite ?elem_of_app, ?elem_of_cons; auto 10 |]).
    inversion Hd.
Qed.

(** X3: a form built with [Form(rank, num_coefficients)] has no mesh
    of its own.  Without coefficient slots [mesh()] raises the "No
    mesh was found" error; with coefficient slots, which the
    constructor leaves null, [mesh()] dereferences a null coefficient;
    after [set_mesh(m)] it returns [m] in both cases. *)
Theorem Form_without_spaces_takes_the_set_mesh
    (rank num_coefficients : nat) (kernel : nat -> list double) (m : Mesh) :
  Form.mesh (Form.make rank 0 kernel) = Error Form.no_mesh_msg
  /\ Form.mesh (Form.make rank (Datatypes.S num_coefficients) kernel) = Undefined
  /\ Form.mesh (Form.set_mesh (Form.make rank num_coefficients kernel) (Some m)) = Ok m.
Proof.
  assert (Hfsm : Form.function_space_meshes (replicate rank None) = Ok []).
  { induction rank as [|rank IH]; [reflexivity | exact IH]. }
  unfold Form.mesh, Form.primary_meshes, Form.coefficient_meshes. simpl.
  rewrite Hfsm. repeat split.
Qed.

(** X4: setting a mesh that differs from the mesh of one of the
    function spaces makes [mesh()] raise the "Non-matching meshes"
    error. *)
Theorem Form_set_mesh_conflict (f : Form.t) (V : FunctionSpace) (m0 m : Mesh)
    (ms : list Mesh)
    (Hfsm : Form.function_space_meshes (Form._function_spaces f) = Ok ms)
    (HV : Some V ∈ Form._function_spaces f)
    (Hm0 : fs_mesh V = Some m0)
    (Hne : m0 <> m) :
  Form.mesh (Form.set_mesh f (Some m)) = Error Form.non_matching_msg.
Proof.
  destruct (function_space_meshes_elem _ _ Hfsm V HV) as (m0' & Hm0' & Hin).
  rewrite Hm0 in Hm0'. injection Hm0' as <-.
  assert (Hprimary : Form.primary_meshes (Form.set_mesh f (Some m))
                     = Ok (ms ++ m :: Form.marker_mesh (Form.dx f)
                             ++ Form.marker_mesh (Form.ds f)
                             ++ Form.marker_mesh (Form.dS f)
                             ++ Form.marker_mesh (Form.dP f))).
  { unfold Form.primary_meshes. simpl. rewrite Hfsm. reflexivity. }
  assert (Hfalse : Form.all_same (ms ++ m :: Form.marker_mesh (Form.dx f)
                     ++ Form.marker_mesh (Form.ds f) ++ Form.marker_mesh (Form.dS f)
                     ++ Form.marker_mesh (Form.dP f)) = false).
  { apply all_same_false. exists m0, m. split; [|split; [|exact Hne]].
    - apply elem_of_app. left. exact Hin.
    - apply elem_of_app. right. left. }
  destruct (ms ++ _) as [|m1 ms'] eqn:E.
  - destruct ms; discriminate.
  - rewrite (mesh_of_primary _ _ _ Hprimary), Hfalse. reflexivity.
Qed.

(** X5: [set_coefficient(i, c)] followed by [coefficient(i)] gives
    [c] back; the other coefficients, their number, the function
    spaces and the meshes collected from spaces, set mesh and markers
    are unchanged; an index beyond the coefficient slots violates the
    assertion. *)
Theorem Form_set_coefficient_round_trip (f : Form.t) (i : nat)
    (c : option GenericFunction) :
  (i < length (Form._coefficients f) ->
     exists f',
       Form.set_coefficient f i c = Ok f'
       /\ Form.coefficient f' i = Ok c
       /\ (forall j, j <> i -> Form.coefficient f' j = Form.coefficient f j)
       /\ length (Form.coefficients f') = length (Form.coefficients f)
       /\ Form.function_spaces f' = Form.function_spaces f
       /\ Form.primary_meshes f' = Form.primary_meshes f)
  /\ (length (Form._coefficients f) <= i -> Form.set_coefficient f i c = Undefined).
Proof.
  unfold Form.set_coefficient. split; intros Hi.
  - rewrite bool_decide_eq_true_2 by exact Hi. eexists. split; [reflexivity|].
    unfold Form.coefficient, Form.coefficients. simpl.
    split; [rewrite list_lookup_insert_eq by exact Hi; reflexivity|].
    split; [intros j Hj; rewrite list_lookup_insert_ne by auto; reflexivity|].
    split; [apply length_insert|]. split; reflexivity.
  - rewrite bool_decide_eq_false_2 by lia. reflexivity.
Qed.

(** X6: the default names of the coefficients are pairwise distinct:
    [coefficient_name] is injective. *)
Theorem Form_coefficient_name_injective (i j : nat) :
  Form.coefficient_name i = Form.coefficient_name j -> i = j.
Proof.
  unfold Form.coefficient_name. intros H.
  apply (inj (String.append "w")) in H. apply (inj pretty) in H. exact H.
Qed.

(** X7: [coloring(entity_dim)] succeeds for cells and for facets
    only; the coloring type it returns reads the same in both
    directions and starts at [entity_dim].  The facet dimension is
    computed in [std::size_t], so on a mesh of dimension zero the
    entity dimension [2^64 - 1] is taken for the facets. *)
Theorem Form_coloring_types (topology_dim : Mesh -> Z) (f : Form.t) (m : Mesh)
    (entity_dim : Z) (Hmesh : Form.mesh f = Ok m) :
  (forall c, Form.coloring topology_dim f entity_dim = Ok c ->
     reverse c = c /\ head c = Some entity_dim)
  /\ (Form.coloring topology_dim f entity_dim = Error Form.coloring_msg
      <-> entity_dim <> topology_dim m
          /\ entity_dim <> ((topology_dim m - 1) mod 2 ^ 64)%Z)
  /\ (topology_dim m = 0%Z -> entity_dim = (2 ^ 64 - 1)%Z ->
      Form.coloring topology_dim f entity_dim
      = Ok [entity_dim; 0; 0; 0; entity_dim]%Z).
Proof.
  unfold Form.coloring, Form.size_t_modulus. rewrite Hmesh. simpl.
  split; [|split].
  - intros c H. repeat case_bool_decide; try discriminate; injection H as <-; subst;
      split; reflexivity.
  - repeat case_bool_decide; split; try discriminate; try tauto.
  - intros Hdim ->. rewrite Hdim. simpl. reflexivity.
Qed.

End FormMembers.

(** ** The unblocked matrix core, written out *)

Section CoreInsertions.
Context {S : Scalar}.

Lemma zero_bc_rows_other (bv : gmap nat double) (dmap0 : list nat) (l : list nat)
    (Ae : EigenRowMatrixXd) (i j : nat) :
  constrained bv (nth i dmap0 0) = false ->
  coeff (fold_left (fun Ae i => if constrained bv (nth i dmap0 0)
                                then row_setZero i Ae else Ae) l Ae) i j
  = coeff Ae i j.
Proof.
  intros Hi. revert Ae. induction l as [|k l IH]; intros Ae; [reflexivity|].
  simpl. rewrite IH. destruct (constrained bv (nth k dmap0 0)) eqn:Hk; [|reflexivity].
  simpl. rewrite bool_decide_eq_false_2; [reflexivity|]. intros ->. congruence.
Qed.

Lemma zero_bc_cols_other (bv : gmap nat double) (dmap1 : list nat) (l : list nat)
    (Ae : EigenRowMatrixXd) (i j : nat) :
  constrained bv (nth j dmap1 0) = false ->
  coeff (fold_left (fun Ae j => if constrained bv (nth j dmap1 0)
                                then col_setZero j Ae else Ae) l Ae) i j
  = coeff Ae i j.
Proof.
  intros Hj. revert Ae. induction l as [|k l IH]; intros Ae; [reflexivity|].
  simpl. rewrite IH. destruct (constrained bv (nth k dmap1 0)) eqn:Hk; [|reflexivity].
  simpl. rewrite bool_decide_eq_false_2; [reflexivity|]. intros ->. congruence.
Qed.

(** The local tensor after the two zeroing loops. *)
Lemma zeroed_coeff_value (bv0 bv1 : gmap nat double) (dmap0 dmap1 : list nat)
    (Ae : EigenRowMatrixXd) (i j : nat) :
  rows Ae = length dmap0 -> cols Ae = length dmap1 ->
  i < length dmap0 -> j < length dmap1 ->
  coeff (zero_bc_cols bv1 dmap1 (zero_bc_rows bv0 dmap0 Ae)) i j
  = if constrained bv0 (nth i dmap0 0) || constrained bv1 (nth j dmap1 0)
    then dzero else coeff Ae i j.
Proof.
  intros Hr Hc Hi Hj.
  destruct (constrained bv0 (nth i dmap0 0)) eqn:H0; simpl.
  { apply zeroed_coeff; auto. }
  destruct (constrained bv1 (nth j dmap1 0)) eqn:H1.
  { apply zeroed_coeff; auto. }
  unfold zero_bc_cols, zero_bc_rows.
  rewrite zero_bc_cols_other by exact H1. apply zero_bc_rows_other. exact H0.
Qed.

Lemma mapM_Ok_map {A B : Type} (f : A -> outcome B) (g : A -> B) (l : list A) :
  (forall x, x ∈ l -> f x = Ok (g x)) -> mapM f l = Ok (map g l).
Proof.
  induction l as [|x l IH]; intros H; simpl; [reflexivity|].
  rewrite (H x) by left. simpl. rewrite IH; [reflexivity|].
  intros y Hy. apply H. right. exact Hy.
Qed.

Lemma flat_map_pairs {B : Type} (g : nat * nat -> B) (n0 n1 : nat) :
  map g (flat_map (fun i => map (fun j => (i, j)) (seq 0 n1)) (seq 0 n0))
  = flat_map (fun i => map (fun j => g (i, j)) (seq 0 n1)) (seq 0 n0).
Proof.
  induction (seq 0 n0) as [|i l IH]; simpl; [reflexivity|].
  rewrite map_app, IH, map_map. reflexivity.
Qed.

Lemma flat_map_map_ext {B : Type} (g h : nat -> nat -> B) (l0 l1 : list nat) :
  (forall i j, i ∈ l0 -> j ∈ l1 -> g i j = h i j) ->
  flat_map (fun i => map (fun j => g i j) l1) l0
  = flat_map (fun i => map (fun j => h i j) l1) l0.
Proof.
  induction l0 as [|i l0 IH]; intros H; simpl; [reflexivity|].
  f_equal.
  - apply map_ext_in. intros j Hj. apply H; [left | apply list_elem_of_In; exact Hj].
  - apply IH. intros i' j Hi Hj. apply H; [right; exact Hi | exact Hj].
Qed.

(** The insertions of one cell on a physical matrix. *)
Lemma assemble_matrix_cell_Mat (m : MatId) (a : Form.t) (V0 V1 : FunctionSpace)
    (bv : gmap nat double * gmap nat double) (cell : nat) :
  Assembler.assemble_matrix_cell (Mat m) a V0 V1 bv cell
  = if bool_decide (length (Form.tabulate_tensor a cell)
                    <= length (cell_dofs (fs_dofmap V0) cell)
                       * length (cell_dofs (fs_dofmap V1) cell))
    then Ok (cell_insertions m a V0 V1 bv cell)
    else Undefined.
Proof.
  unfold Assembler.assemble_matrix_cell, tabulate_matrix.
  case_bool_decide; [|reflexivity]. simpl.
  unfold add_local.
  rewrite (mapM_Ok_map _ (fun ij : nat * nat =>
             MatAdd m (nth ij.1 (cell_dofs (fs_dofmap V0) cell) 0)
                      (nth ij.2 (cell_dofs (fs_dofmap V1) cell) 0)
                      (coeff (zero_bc_cols bv.2 (cell_dofs (fs_dofmap V1) cell)
                                (zero_bc_rows bv.1 (cell_dofs (fs_dofmap V0) cell)
                                   {| rows := length (cell_dofs (fs_dofmap V0) cell);
                                      cols := length (cell_dofs (fs_dofmap V1) cell);
                                      coeff := fun i j =>
                                        nth (i * length (cell_dofs (fs_dofmap V1) cell) + j)
                                            (Form.tabulate_tensor a cell) dzero |}))
                             ij.1 ij.2)))
    by (intros; reflexivity).
  f_equal. rewrite flat_map_pairs. unfold cell_insertions. simpl.
  apply flat_map_map_ext. intros i j Hi Hj.
  apply elem_of_seq in Hi, Hj. f_equal.
  rewrite zeroed_coeff_value by (simpl; lia || reflexivity). reflexivity.
Qed.

Lemma mapM_cells_Mat (m : MatId) (a : Form.t) (V0 V1 : FunctionSpace)
    (bv : gmap nat double * gmap nat double) (cells : list nat) :
  (Forall (fun cell => length (Form.tabulate_tensor a cell)
                       <= length (cell_dofs (fs_dofmap V0) cell)
                          * length (cell_dofs (fs_dofmap V1) cell)) cells ->
   mapM (Assembler.assemble_matrix_cell (Mat m) a V0 V1 bv) cells
   = Ok (map (cell_insertions m a V0 V1 bv) cells))
  /\ (~ Forall (fun cell => length (Form.tabulate_tensor a cell)
                            <= length (cell_dofs (fs_dofmap V0) cell)
                               * length (cell_dofs (fs_dofmap V1) cell)) cells ->
      mapM (Assembler.assemble_matrix_cell (Mat m) a V0 V1 bv) cells = Undefined).
Proof.
  induction cells as [|cell cells [IH1 IH2]]; split.
  - reflexivity.
  - intros H. exfalso. apply H. constructor.
  - intros H. apply Forall_cons in H as [Hc Hcs]. simpl.
    rewrite assemble_matrix_cell_Mat, (bool_decide_eq_true_2 _ Hc). simpl.
    rewrite (IH1 Hcs). reflexivity.
  - intros H. simpl. rewrite assemble_matrix_cell_Mat. case_bool_decide as Hc; [|reflexivity].
    simpl. rewrite IH2; [reflexivity|]. intros Hcs. apply H. constructor; assumption.
Qed.

(** X8: on a physical matrix the unblocked matrix core issues, cell
    after cell in mesh order, the whole dense local tensor of the
    kernel, row-major: the kernel value at every entry whose row dof
    and column dof are both unconstrained, and zero at every other
    entry.  It fails only when the kernel overruns the local tensor
    of a cell. *)
Theorem matrix_core_inserts_kernel_values_or_zero
    (m : MatId) (a : Form.t) (bcs : list DirichletBC) (mesh : Mesh)
    (V0 V1 : FunctionSpace)
    (Hmesh : Form.mesh a = Ok mesh)
    (H0 : Form.function_space a 0 = Ok (Some V0))
    (H1 : Form.function_space a 1 = Ok (Some V1)) :
  let bv := Assembler.collect_axes (mesh_mpi_size mesh) V0 V1 bcs in
  (kernel_fits a V0 V1 mesh ->
     Assembler.assemble_matrix_form (Mat m) a bcs
     = Ok (flat_map (cell_insertions m a V0 V1 bv) (mesh_cells mesh)))
  /\ (~ kernel_fits a V0 V1 mesh ->
      Assembler.assemble_matrix_form (Mat m) a bcs = Undefined).
Proof.
  intros bv. unfold Assembler.assemble_matrix_form, kernel_fits.
  rewrite Hmesh. simpl. rewrite H0. simpl. rewrite H1. simpl. fold bv.
  destruct (mapM_cells_Mat m a V0 V1 bv (mesh_cells mesh)) as [Hfit Hover].
  split; intros H.
  - rewrite (Hfit H). simpl. rewrite flat_map_concat_map. reflexivity.
  - rewrite (Hover H). reflexivity.
Qed.

(** X9: a block assembled through the view that the monolithic path
    builds at the running offsets [(offset_row, offset_col)] inserts
    what the unblocked core inserts, each entry moved from its local
    [(r, c)] to [(offset_row * bs0 + r, offset_col * bs1 + c)], where
    [bs0], [bs1] are the block sizes of the two index maps. *)
Theorem view_moves_insertions_by_scaled_offsets
    (map0 map1 : IndexMap) (offset_row offset_col : nat) (a : Form.t)
    (bcs : list DirichletBC) (ops' : list MatOp)
    (Hview : Assembler.assemble_matrix_form
               (LocalSubMatrix Parent (Assembler.block_index_set map0 offset_row)
                                      (Assembler.block_index_set map1 offset_col)) a bcs
             = Ok ops') :
  exists ops,
    Assembler.assemble_matrix_form (Mat Parent) a bcs = Ok ops
    /\ ops' = map (shift_op (offset_row * block_size map0) (offset_col * block_size map1)) ops.
Proof.
  destruct (assemble_matrix_form_view _ _ _ _ _ _ Hview) as (ops & Hops & HF).
  exists ops. split; [exact Hops|]. clear Hview Hops.
  induction HF as [|op op' ops ops' Hop _ IH]; simpl; [reflexivity|].
  f_equal; [|exact IH].
  destruct Hop as (m & r & c & v & r' & c' & -> & -> & Hr & Hc).
  apply block_index_set_lookup in Hr, Hc. subst. reflexivity.
Qed.

End CoreInsertions.

(** ** Running offsets and block attribution *)

Section Blocks.
Context {S : Scalar}.

Lemma monolithic_row_block (bcs : list DirichletBC) (offset_row offset_col : nat)
    (row : list (option Form.t)) (ops : list MatOp) (j : nat) (f : Form.t) :
  Assembler.monolithic_row bcs offset_row offset_col row = Ok ops ->
  row !! j = Some (Some f) ->
  exists col_maps map0 map1 ops_f before after,
    Forall2 column_index_map (take j row) col_maps
    /\ Assembler.form_index_map f 0 = Ok map0
    /\ Assembler.form_index_map f 1 = Ok map1
    /\ Assembler.assemble_matrix_form
         (LocalSubMatrix Parent
            (Assembler.block_index_set map0 offset_row)
            (Assembler.block_index_set map1
               (offset_col + sum_list (size_ALL <$> col_maps)))) f bcs = Ok ops_f
    /\ ops = before ++ ops_f ++ after.
Proof.
  revert offset_col ops j. induction row as [|[g|] row IH]; intros offset_col ops j H Hj.
  - discriminate.
  - simpl in H. apply bind_Ok in H as (map0 & Hmap0 & H).
    apply bind_Ok in H as (map1 & Hmap1 & H).
    apply bind_Ok in H as (ops_g & Hops_g & H).
    apply bind_Ok in H as (ops_rest & Hrest & H). injection H as <-.
    destruct j as [|j]; simpl in Hj.
    + injection Hj as <-. exists [], map0, map1, ops_g, [], ops_rest.
      simpl. rewrite Nat.add_0_r. repeat split; auto; constructor.
    + destruct (IH _ _ _ Hrest Hj)
        as (col_maps & m0 & m1 & ops_f & before & after & HF & Hm0 & Hm1 & Hcore & ->).
      exists (map1 :: col_maps), m0, m1, ops_f, (ops_g ++ before), after.
      split; [constructor; [exists g; auto | exact HF]|].
      split; [exact Hm0|]. split; [exact Hm1|]. split.
      * simpl. rewrite Nat.add_assoc. exact Hcore.
      * rewrite <- app_assoc. reflexivity.
  - discriminate.
Qed.

Lemma monolithic_rows_block (bcs : list DirichletBC) (offset_row : nat)
    (a : list (list (option Form.t))) (ops : list MatOp) (i j : nat)
    (row : list (option Form.t)) (f : Form.t) :
  Assembler.monolithic_rows bcs offset_row a = Ok ops ->
  a !! i = Some row ->
  row !! j = Some (Some f) ->
  exists row_maps col_maps map0 map1 ops_f before after,
    Forall2 row_index_map (take i a) row_maps
    /\ Forall2 column_index_map (take j row) col_maps
    /\ Assembler.form_index_map f 0 = Ok map0
    /\ Assembler.form_index_map f 1 = Ok map1
    /\ Assembler.assemble_matrix_form
         (LocalSubMatrix Parent
            (Assembler.block_index_set map0
               (offset_row + sum_list (size_ALL <$> row_maps)))
            (Assembler.block_index_set map1 (sum_list (size_ALL <$> col_maps)))) f bcs
       = Ok ops_f
    /\ ops = before ++ ops_f ++ after.
Proof.
  revert offset_row ops i. induction a as [|row0 a IH]; intros offset_row ops i H Hi Hj.
  - discriminate.
  - simpl in H. apply bind_Ok in H as (ops_row & Hrow & H).
    apply bind_Ok in H as (p & Hp & H). apply deref_Ok in Hp.
    apply bind_Ok in H as (g & Hg & H). apply deref_Ok in Hg. subst p.
    apply bind_Ok in H as (map0 & Hmap0 & H).
    apply bind_Ok in H as (ops_rest & Hrest & H). injection H as <-.
    destruct i as [|i]; simpl in Hi.
    + injection Hi as ->.
      destruct (monolithic_row_block _ _ _ _ _ _ _ Hrow Hj)
        as (col_maps & m0 & m1 & ops_f & before & after & HF & Hm0 & Hm1 & Hcore & ->).
      exists [], col_maps, m0, m1, ops_f, before, (after ++ ops_rest).
      simpl. rewrite Nat.add_0_r. simpl in Hcore.
      repeat split; auto; try constructor. rewrite <- !app_assoc. reflexivity.
    + destruct (IH _ _ _ Hrest Hi Hj)
        as (row_maps & col_maps & m0 & m1 & ops_f & before & after
            & HFr & HFc & Hm0 & Hm1 & Hcore & ->).
      exists (map0 :: row_maps), col_maps, m0, m1, ops_f, (ops_row ++ before), after.
      split; [constructor; [exists g; auto | exact HFr]|].
      split; [exact HFc|]. split; [exact Hm0|]. split; [exact Hm1|]. split.
      * simpl. rewrite Nat.add_assoc. exact Hcore.
      * rewrite <- app_assoc. reflexivity.
Qed.

(** X10: in the monolithic layout the view of block [(i, j)] is built
    at a row offset that is the sum of the owned+ghost sizes of the
    row index maps of the first blocks of the rows before [i], and at
    a column offset that is the sum of the sizes of the column index
    maps of the blocks before [j] in row [i]; the insertions of the
    block form one segment of the calls of the run. *)
Theorem monolithic_offsets_are_prefix_sums
    (asm : Assembler.t) (world_size : nat) (A : option MatType)
    (block_type : BlockType) (ops : list MatOp) (i j : nat)
    (row : list (option Form.t)) (f : Form.t)
    (Htarget : plain_target A block_type)
    (Hmulti : multi_block (Assembler._a asm))
    (Hops : Assembler.assemble_matrix asm world_size A block_type = Ok ops)
    (Hrow : Assembler._a asm !! i = Some row)
    (Hblock : row !! j = Some (Some f)) :
  exists row_maps col_maps map0 map1 ops_f before after,
    Forall2 row_index_map (take i (Assembler._a asm)) row_maps
    /\ Forall2 column_index_map (take j row) col_maps
    /\ Assembler.form_index_map f 0 = Ok map0
    /\ Assembler.form_index_map f 1 = Ok map1
    /\ Assembler.assemble_matrix_form
         (LocalSubMatrix Parent
            (Assembler.block_index_set map0 (sum_list (size_ALL <$> row_maps)))
            (Assembler.block_index_set map1 (sum_list (size_ALL <$> col_maps))))
         f (Assembler._bcs asm) = Ok ops_f
    /\ ops = before ++ ops_f ++ after.
Proof.
  destruct (assemble_matrix_dispatch _ _ _ _ _ Hops)
    as (row0 & alloc & body & Hrow0 & _ & -> & Hpath).
  destruct Hpath as [[Hn _] | [(_ & _ & blocks & Hblocks & ->) | (_ & Hn & _)]].
  { exfalso. exact (targets_exclusive _ _ Hn Htarget). }
  2:{ exfalso. exact (Hn Hmulti). }
  destruct (monolithic_rows_block _ _ _ _ _ _ _ _ Hblocks Hrow Hblock)
    as (row_maps & col_maps & m0 & m1 & ops_f & before & after
        & HFr & HFc & Hm0 & Hm1 & Hcore & ->).
  exists row_maps, col_maps, m0, m1, ops_f, (alloc ++ before),
    (after ++ [MatApply Parent FINAL; MatApply Parent FINAL]).
  repeat split; auto. rewrite <- !app_assoc. reflexivity.
Qed.

Lemma filter_all {A : Type} (P : A -> Prop) `{forall x, Decision (P x)} (l : list A) :
  Forall P l -> filter P l = l.
Proof.
  induction 1 as [|x l Hx _ IH]; [reflexivity|].
  rewrite filter_cons_True by exact Hx. rewrite IH. reflexivity.
Qed.

Lemma filter_none {A : Type} (P : A -> Prop) `{forall x, Decision (P x)} (l : list A) :
  Forall (fun x => ~ P x) l -> filter P l = [].
Proof.
  induction 1 as [|x l Hx _ IH]; [reflexivity|].
  rewrite filter_cons_False by exact Hx. exact IH.
Qed.

Lemma core_ops_on (m m' : MatId) (a : Form.t) (bcs : list DirichletBC) (ops : list MatOp) :
  Assembler.assemble_matrix_form (Mat m) a bcs = Ok ops ->
  filter (fun op => op_on m' op = true) ops = if decide (m = m') then ops else [].
Proof.
  intros H. apply assemble_matrix_form_adds in H. simpl in H.
  destruct (decide (m = m')) as [<- | Hne].
  - apply filter_all. eapply Forall_impl; [exact H|]. simpl.
    intros op (r & c & v & ->). simpl. apply bool_decide_eq_true. reflexivity.
  - apply filter_none. eapply Forall_impl; [exact H|]. simpl.
    intros op (r & c & v & ->). simpl. rewrite bool_decide_eq_false_2 by exact Hne.
    discriminate.
Qed.

Lemma nested_row_filter (bcs : list DirichletBC) (i j0 : nat) (row : list (option Form.t))
    (ops : list MatOp) (i' j' : nat) :
  Assembler.nested_row bcs i j0 row = Ok ops ->
  filter (fun op => op_on (Sub i' j') op = true) ops
  = match (if bool_decide (i' = i /\ j0 <= j') then row !! (j' - j0) else None) with
    | Some (Some f) =>
        match Assembler.assemble_matrix_form (Mat (Sub i' j')) f bcs with
        | Ok ops_f => ops_f
        | _ => []
        end
    | _ => []
    end.
Proof.
  revert j0 ops. induction row as [|[g|] row IH]; intros j0 ops H; simpl in H.
  - injection H as <-. case_bool_decide; [rewrite lookup_nil|]; reflexivity.
  - apply bind_Ok in H as (ops_g & Hg & H). apply bind_Ok in H as (ops' & Hrest & H).
    injection H as <-. rewrite filter_app, (IH _ _ Hrest), (core_ops_on _ _ _ _ _ Hg).
    destruct (decide (Sub i j0 = Sub i' j')) as [[= <- <-] | Hne].
    + rewrite (bool_decide_eq_true_2 (i = i /\ j0 <= j0)) by auto.
      rewrite (bool_decide_eq_false_2 (i = i /\ Datatypes.S j0 <= j0)) by lia.
      rewrite Nat.sub_diag. simpl. rewrite Hg, app_nil_r. reflexivity.
    + simpl. destruct (decide (i' = i /\ Datatypes.S j0 <= j')) as [[-> Hle] | Hn].
      * rewrite (bool_decide_eq_true_2 (i = i /\ Datatypes.S j0 <= j')) by auto.
        rewrite (bool_decide_eq_true_2 (i = i /\ j0 <= j')) by (split; [reflexivity | lia]).
        replace (j' - j0) with (Datatypes.S (j' - Datatypes.S j0)) by lia. reflexivity.
      * rewrite (bool_decide_eq_false_2 _ Hn).
        rewrite (bool_decide_eq_false_2 (i' = i /\ j0 <= j')); [reflexivity|].
        intros [-> Hle]. destruct (decide (j0 = j')) as [<- | Hj]; [congruence|].
        apply Hn. split; [reflexivity | lia].
  - rewrite (IH _ _ H).
    destruct (decide (i' = i /\ Datatypes.S j0 <= j')) as [[-> Hle] | Hn].
    + rewrite (bool_decide_eq_true_2 (i = i /\ Datatypes.S j0 <= j')) by auto.
      rewrite (bool_decide_eq_true_2 (i = i /\ j0 <= j')) by (split; [reflexivity | lia]).
      replace (j' - j0) with (Datatypes.S (j' - Datatypes.S j0)) by lia. reflexivity.
    + rewrite (bool_decide_eq_false_2 _ Hn).
      destruct (decide (i' = i /\ j0 <= j')) as [[-> Hle] | Hn2].
      * rewrite (bool_decide_eq_true_2 (i = i /\ j0 <= j')) by auto.
        replace (j' - j0) with 0; [reflexivity|].
        destruct (decide (j0 = j')) as [<- | Hj]; [lia|].
        exfalso. apply Hn. split; [reflexivity | lia].
      * rewrite (bool_decide_eq_false_2 _ Hn2). reflexivity.
Qed.

Lemma nested_rows_filter (bcs : list DirichletBC) (i0 : nat)
    (a : list (list (option Form.t))) (ops : list MatOp) (i' j' : nat) :
  Assembler.nested_rows bcs i0 a = Ok ops ->
  filter (fun op => op_on (Sub i' j') op = true) ops
  = match (if bool_decide (i0 <= i') then a !! (i' - i0) ≫= (.!! j') else None) with
    | Some (Some f) =>
        match Assembler.assemble_matrix_form (Mat (Sub i' j')) f bcs with
        | Ok ops_f => ops_f
        | _ => []
        end
    | _ => []
    end.
Proof.
  revert i0 ops. induction a as [|row a IH]; intros i0 ops H; simpl in H.
  - injection H as <-. case_bool_decide; [rewrite lookup_nil|]; reflexivity.
  - apply bind_Ok in H as (ops_row & Hrow & H). apply bind_Ok in H as (ops' & Hrest & H).
    injection H as <-. rewrite filter_app, (IH _ _ Hrest), (nested_row_filter _ _ _ _ _ _ _ Hrow).
    rewrite Nat.sub_0_r.
    destruct (decide (i' = i0)) as [-> | Hne].
    + rewrite (bool_decide_eq_true_2 (i0 = i0 /\ 0 <= j')) by (split; [reflexivity | lia]).
      rewrite (bool_decide_eq_false_2 (Datatypes.S i0 <= i0)) by lia.
      rewrite (bool_decide_eq_true_2 (i0 <= i0)) by lia.
      rewrite Nat.sub_diag, app_nil_r. reflexivity.
    + rewrite (bool_decide_eq_false_2 (i' = i0 /\ 0 <= j')) by tauto. simpl.
      destruct (decide (Datatypes.S i0 <= i')) as [Hle | Hn].
      * rewrite (bool_decide_eq_true_2 _ Hle).
        rewrite (bool_decide_eq_true_2 (i0 <= i')) by lia.
        replace (i' - i0) with (Datatypes.S (i' - Datatypes.S i0)) by lia. reflexivity.
      * rewrite (bool_decide_eq_false_2 _ Hn).
        rewrite (bool_decide_eq_false_2 (i0 <= i')) by lia. reflexivity.
Qed.

Lemma nested_row_block_Ok (bcs : list DirichletBC) (i j0 : nat)
    (row : list (option Form.t)) (ops : list MatOp) (j : nat) (f : Form.t) :
  Assembler.nested_row bcs i j0 row = Ok ops ->
  row !! j = Some (Some f) ->
  exists ops_f, Assembler.assemble_matrix_form (Mat (Sub i (j0 + j))) f bcs = Ok ops_f.
Proof.
  revert j0 ops j. induction row as [|[g|] row IH]; intros j0 ops j H Hj; simpl in H.
  - discriminate.
  - apply bind_Ok in H as (ops_g & Hg & H). apply bind_Ok in H as (ops' & Hrest & _).
    destruct j as [|j]; simpl in Hj.
    + injection Hj as <-. rewrite Nat.add_0_r. eauto.
    + replace (j0 + Datatypes.S j) with (Datatypes.S j0 + j) by lia. eauto.
  - destruct j as [|j]; simpl in Hj; [discriminate|].
    replace (j0 + Datatypes.S j) with (Datatypes.S j0 + j) by lia. eauto.
Qed.

Lemma nested_rows_block_Ok (bcs : list DirichletBC) (i0 : nat)
    (a : list (list (option Form.t))) (ops : list MatOp) (i j : nat)
    (row : list (option Form.t)) (f : Form.t) :
  Assembler.nested_rows bcs i0 a = Ok ops ->
  a !! i = Some row ->
  row !! j = Some (Some f) ->
  exists ops_f, Assembler.assemble_matrix_form (Mat (Sub (i0 + i) j)) f bcs = Ok ops_f.
Proof.
  revert i0 ops i. induction a as [|r a IH]; intros i0 ops i H Hi Hj; simpl in H.
  - discriminate.
  - apply bind_Ok in H as (ops_row & Hr & H). apply bind_Ok in H as (ops' & Hrest & _).
    destruct i as [|i]; simpl in Hi.
    + injection Hi as ->. rewrite Nat.add_0_r.
      exact (nested_row_block_Ok _ _ _ _ _ _ _ Hr Hj).
    + replace (i0 + Datatypes.S i) with (Datatypes.S i0 + i) by lia. eauto.
Qed.

Lemma nested_rows_block_filter (bcs : list DirichletBC)
    (a : list (list (option Form.t))) (body : list MatOp) (i j : nat)
    (row : list (option Form.t)) (f : Form.t) :
  Assembler.nested_rows bcs 0 a = Ok body ->
  a !! i = Some row ->
  row !! j = Some (Some f) ->
  Assembler.assemble_matrix_form (Mat (Sub i j)) f bcs
  = Ok (filter (fun op => op_on (Sub i j) op = true) body).
Proof.
  intros Hbody Hrow Hblock.
  rewrite (nested_rows_filter _ _ _ _ i j Hbody).
  rewrite (bool_decide_eq_true_2 (0 <= i)) by lia.
  rewrite Nat.sub_0_r, Hrow. simpl. rewrite Hblock.
  destruct (nested_rows_block_Ok _ _ _ _ _ _ _ _ Hbody Hrow Hblock) as [ops_f Hcore].
  simpl in Hcore. rewrite Hcore. reflexivity.
Qed.

(** X11: in the nested layout the storage calls that touch the
    sub-matrix [(i, j)] are, in order, exactly the insertions of the
    unblocked assembly of block [a[i][j]] into that sub-matrix. *)
Theorem nested_sub_matrix_receives_its_block
    (asm : Assembler.t) (world_size : nat) (A : option MatType)
    (block_type : BlockType) (ops : list MatOp) (i j : nat)
    (row : list (option Form.t)) (f : Form.t)
    (Htarget : nested_target A block_type)
    (Hops : Assembler.assemble_matrix asm world_size A block_type = Ok ops)
    (Hrow : Assembler._a asm !! i = Some row)
    (Hblock : row !! j = Some (Some f)) :
  Assembler.assemble_matrix_form (Mat (Sub i j)) f (Assembler._bcs asm)
  = Ok (filter (fun op => op_on (Sub i j) op = true) ops).
Proof.
  destruct (assemble_matrix_dispatch _ _ _ _ _ Hops)
    as (row0 & alloc & body & Hrow0 & Halloc & -> & Hpath).
  destruct Hpath as [[_ Hbody] | [(Hp & _) | (Hp & _)]];
    [| exfalso; exact (targets_exclusive _ _ Htarget Hp)..].
  rewrite !filter_app.
  rewrite (filter_none _ alloc).
  2:{ eapply Forall_impl; [exact Halloc|]. intros op [init ->]. simpl. discriminate. }
  simpl. rewrite app_nil_r.
  exact (nested_rows_block_filter _ _ _ _ _ _ _ Hbody Hrow Hblock).
Qed.

End Blocks.

(** ** Dirichlet rows outside the single layout, and malformed collections *)

Section OtherLayouts.
Context {S : Scalar}.

(** X12: only the single layout sets matrix entries.  A run on a
    MATNEST matrix, or on a collection of more than one block, issues
    no [set_local] call at all: no one is placed on any diagonal. *)
Theorem no_entry_is_set_outside_the_single_layout
    (asm : Assembler.t) (world_size : nat) (A : option MatType)
    (block_type : BlockType) (ops : list MatOp)
    (Hlayout : nested_target A block_type \/ multi_block (Assembler._a asm))
    (Hops : Assembler.assemble_matrix asm world_size A block_type = Ok ops) :
  Forall (fun op => forall m r c v, op <> MatSet m r c v) ops.
Proof.
  destruct (assemble_matrix_dispatch _ _ _ _ _ Hops)
    as (row0 & alloc & body & Hrow0 & Halloc & -> & Hpath).
  apply Forall_app. split.
  { eapply Forall_impl; [exact Halloc|]. intros op [init ->]. discriminate. }
  apply Forall_app. split; [|repeat constructor; discriminate].
  assert (Hadds : Forall (fun op => exists m r c v, op = MatAdd m r c v) body
                  \/ exists blocks, Forall (fun op => exists m r c v, op = MatAdd m r c v) blocks
                                    /\ body = blocks ++ [MatApply Parent FINAL]).
  { destruct Hpath as [[_ Hn] | [(_ & _ & blocks & Hb & ->) | (Hp & Hs & _)]].
    - left. exact (nested_rows_adds _ _ _ _ Hn).
    - right. exists blocks. split; [exact (monolithic_rows_adds _ _ _ _ Hb) | reflexivity].
    - exfalso. destruct Hlayout as [Hn | Hm]; [exact (targets_exclusive _ _ Hn Hp) | exact (Hs Hm)]. }
  destruct Hadds as [Hadds | (blocks & Hadds & ->)].
  - eapply Forall_impl; [exact Hadds|]. intros op (m & r & c & v & ->). discriminate.
  - apply Forall_app. split; [|repeat constructor; discriminate].
    eapply Forall_impl; [exact Hadds|]. intros op (m & r & c & v & ->). discriminate.
Qed.

Section Laws.
Context {L : ScalarLaws S}.

(** X13: in the nested layout, assembled from zero, every entry of
    sub-matrix [(i, j)] in the row of a constrained row dof or in the
    column of a constrained column dof of block [a[i][j]] is zero;
    on a diagonal block this includes the diagonal entry of every
    constrained dof. *)
Theorem nested_constrained_rows_and_columns_are_zero
    (asm : Assembler.t) (world_size : nat) (A : option MatType)
    (block_type : BlockType) (ops : list MatOp) (i j : nat)
    (row : list (option Form.t)) (f : Form.t) (mesh : Mesh) (V0 V1 : FunctionSpace)
    (r c : nat)
    (Htarget : nested_target A block_type)
    (Hops : Assembler.assemble_matrix asm world_size A block_type = Ok ops)
    (Hrow : Assembler._a asm !! i = Some row)
    (Hblock : row !! j = Some (Some f))
    (Hmesh : Form.mesh f = Ok mesh)
    (H0 : Form.function_space f 0 = Ok (Some V0))
    (H1 : Form.function_space f 1 = Ok (Some V1))
    (Hcon : constrained (Assembler.collect_axes (mesh_mpi_size mesh) V0 V1
                           (Assembler._bcs asm)).1 r = true
            \/ constrained (Assembler.collect_axes (mesh_mpi_size mesh) V0 V1
                              (Assembler._bcs asm)).2 c = true) :
  run_ops ops zero_state (Sub i j) r c = dzero.
Proof.
  destruct (assemble_matrix_dispatch _ _ _ _ _ Hops)
    as (row0 & alloc & body & Hrow0 & Halloc & -> & Hpath).
  destruct Hpath as [[_ Hbody] | [(Hp & _) | (Hp & _)]];
    [| exfalso; exact (targets_exclusive _ _ Htarget Hp)..].
  pose proof (nested_rows_block_filter _ _ _ _ _ _ _ Hbody Hrow Hblock) as Hcore.
  pose proof (assemble_matrix_form_zeroed _ _ _ _ _ _ _ Hmesh H0 H1 Hcore) as Hzero.
  simpl in Hzero. rewrite Forall_forall in Hzero.
  apply run_ops_keeps_zero; [|reflexivity].
  apply Forall_app. split.
  { eapply Forall_impl; [exact Halloc|]. intros op [init ->]. exact I. }
  apply Forall_app. split; [|repeat constructor].
  apply Forall_forall. intros op Hop.
  destruct op as [init | m' r' c' v | m' r' c' v | m' t]; try exact I.
  - intros (-> & -> & ->).
    destruct (Hzero (MatAdd (Sub i j) r c v)) as (r0 & c0 & v0 & Heq & Hv).
    { apply list_elem_of_filter. split; [|exact Hop]. simpl.
      apply bool_decide_eq_true. reflexivity. }
    injection Heq as <- <- <-. exact (Hv Hcon).
  - intros (-> & -> & ->).
    destruct (Hzero (MatSet (Sub i j) r c v)) as (r0 & c0 & v0 & Heq & _).
    { apply list_elem_of_filter. split; [|exact Hop]. simpl.
      apply bool_decide_eq_true. reflexivity. }
    discriminate.
Qed.

End Laws.

Lemma mapM_Undefined {A B : Type} (f : A -> outcome B) (l : list A) (x : A) :
  (forall y, f y = Undefined \/ exists z, f y = Ok z) ->
  x ∈ l -> f x = Undefined -> mapM f l = Undefined.
Proof.
  intros Hf. induction l as [|y l IH]; intros Hin Hx; [inversion Hin|].
  simpl. destruct (Hf y) as [Hy | [z Hy]]; rewrite Hy; simpl; [reflexivity|].
  apply elem_of_cons in Hin as [-> | Hin]; [congruence|].
  rewrite (IH Hin Hx). reflexivity.
Qed.

(** X14: allocation writes the form pointers into arrays of fixed
    shape.  A row of the block collection that is longer than the
    first row overruns the array of the matrix forms, and a list of
    linear forms that is longer than the number of rows of the
    collection overruns the array of the vector forms. *)
Theorem allocation_overruns_on_malformed_collections
    (asm : Assembler.t) (world_size : nat) (block_type : BlockType) :
  (forall row0 row,
      Assembler._a asm !! 0 = Some row0 ->
      row ∈ Assembler._a asm ->
      length row0 < length row ->
      Assembler.assemble_matrix asm world_size None block_type = Undefined)
  /\ (length (Assembler._a asm) < length (Assembler._l asm) ->
      Assembler.assemble_vector_init asm block_type = Undefined).
Proof.
  split.
  - intros row0 row Hrow0 Hin Hlen.
    unfold Assembler.assemble_matrix, Assembler.assemble_matrix_init.
    rewrite Hrow0. simpl. unfold Assembler.matrix_forms.
    rewrite (mapM_Undefined _ _ row); [reflexivity| |exact Hin|].
    + intros y. case_bool_decide; eauto.
    + rewrite (bool_decide_eq_false_2 (length row <= length row0)) by lia. reflexivity.
  - intros Hlen. unfold Assembler.assemble_vector_init.
    destruct (Assembler._l asm !! 0) as [p0|] eqn:E; simpl; [|reflexivity].
    rewrite (bool_decide_eq_false_2
               (length (Assembler._l asm) <= length (Assembler._a asm))) by lia.
    reflexivity.
Qed.

End OtherLayouts.

(** ** The linear-form core, [apply_bc] and [set_bc] *)

Section VectorCore.
Context {S : Scalar}.

Lemma add_at_Ok (k : nat) (v : double) (b b' : list double) :
  Assembler.add_at k v b = Ok b' ->
  k < length b /\ length b' = length b
  /\ forall k', k' <> k -> b' !! k' = b !! k'.
Proof.
  unfold Assembler.add_at. intros H. apply bind_Ok in H as (x & Hx & H).
  apply deref_Ok in Hx. injection H as <-.
  split; [eapply lookup_lt_Some; eassumption|]. split; [apply length_insert|].
  intros k' Hne. apply list_lookup_insert_ne. auto.
Qed.

Lemma add_at_in_range (k : nat) (v : double) (b : list double) :
  k < length b -> exists b', Assembler.add_at k v b = Ok b'.
Proof.
  intros Hk. apply lookup_lt_is_Some in Hk as [x Hx].
  unfold Assembler.add_at. rewrite Hx. simpl. eauto.
Qed.

Lemma add_at_out_of_range (k : nat) (v : double) (b : list double) :
  length b <= k -> Assembler.add_at k v b = Undefined.
Proof.
  intros Hk. unfold Assembler.add_at. rewrite lookup_ge_None_2 by exact Hk. reflexivity.
Qed.

(** The loop over the dofs of one cell. *)
Lemma add_cell_Ok (dmap : list nat) (be : list double) (l : list nat) (b b' : list double) :
  foldM (fun b i => Assembler.add_at (nth i dmap 0) (nth i be dzero) b) l b = Ok b' ->
  length b' = length b
  /\ Forall (fun i => nth i dmap 0 < length b) l
  /\ forall k, (forall i, i ∈ l -> nth i dmap 0 <> k) -> b' !! k = b !! k.
Proof.
  revert b. induction l as [|i l IH]; intros b H; simpl in H.
  - injection H as <-. repeat split; auto.
  - apply bind_Ok in H as (b1 & Hb1 & H).
    apply add_at_Ok in Hb1 as (Hi & Hlen1 & Hframe1).
    destruct (IH _ H) as (Hlen & Hall & Hframe).
    split; [congruence|]. split.
    + constructor; [exact Hi|]. rewrite Hlen1 in Hall. exact Hall.
    + intros k Hk. rewrite Hframe, Hframe1.
      * reflexivity.
      * intros ->. apply (Hk i); [left | reflexivity].
      * intros i' Hi'. apply Hk. right. exact Hi'.
Qed.

Lemma add_cell_total (dmap : list nat) (be : list double) (l : list nat) (b : list double) :
  Forall (fun i => nth i dmap 0 < length b) l ->
  exists b', foldM (fun b i => Assembler.add_at (nth i dmap 0) (nth i be dzero) b) l b
             = Ok b'.
Proof.
  revert b. induction l as [|i l IH]; intros b H; simpl; [eauto|].
  apply Forall_cons in H as [Hi Hl].
  destruct (add_at_in_range _ (nth i be dzero) _ Hi) as [b1 Hb1]. rewrite Hb1. simpl.
  apply IH. apply add_at_Ok in Hb1 as (_ & Hlen & _). rewrite Hlen. exact Hl.
Qed.

Lemma positions_Forall (P : nat -> Prop) (dmap : list nat) :
  Forall (fun i => P (nth i dmap 0)) (seq 0 (length dmap)) <-> Forall P dmap.
Proof.
  rewrite !Forall_forall. split.
  - intros H k Hk. apply list_elem_of_lookup in Hk as [i Hi].
    rewrite <- (nth_lookup_Some _ _ 0 _ Hi). apply H. apply elem_of_seq.
    apply lookup_lt_Some in Hi. lia.
  - intros H i Hi. apply elem_of_seq in Hi. apply H.
    apply list_elem_of_lookup. exists i.
    destruct (lookup_lt_is_Some_2 dmap i) as [k Hk]; [lia|].
    rewrite (nth_lookup_Some _ _ 0 _ Hk). exact Hk.
Qed.

Lemma assemble_vector_cell_Ok (L0 : Form.t) (V : FunctionSpace) (b b' : list double)
    (cell : nat) :
  Assembler.assemble_vector_cell L0 V b cell = Ok b' ->
  length b' = length b
  /\ length (Form.tabulate_tensor L0 cell) <= length (cell_dofs (fs_dofmap V) cell)
  /\ Forall (fun k => k < length b) (cell_dofs (fs_dofmap V) cell)
  /\ forall k, k ∉ cell_dofs (fs_dofmap V) cell -> b' !! k = b !! k.
Proof.
  unfold Assembler.assemble_vector_cell, tabulate_vector. intros H.
  apply bind_Ok in H as (be & Hbe & H).
  case_bool_decide as Hfit; [|discriminate]. injection Hbe as <-.
  apply add_cell_Ok in H as (Hlen & Hall & Hframe).
  split; [exact Hlen|]. split; [exact Hfit|]. split.
  - apply (positions_Forall (fun k => k < length b)). exact Hall.
  - intros k Hk. apply Hframe. intros i Hi <-. apply Hk.
    apply elem_of_seq in Hi. apply list_elem_of_lookup. exists i.
    destruct (lookup_lt_is_Some_2 (cell_dofs (fs_dofmap V) cell) i) as [k Hk']; [lia|].
    rewrite (nth_lookup_Some _ _ 0 _ Hk'). exact Hk'.
Qed.

Lemma assemble_vector_cell_total (L0 : Form.t) (V : FunctionSpace) (b : list double)
    (cell : nat) :
  length (Form.tabulate_tensor L0 cell) <= length (cell_dofs (fs_dofmap V) cell) ->
  Forall (fun k => k < length b) (cell_dofs (fs_dofmap V) cell) ->
  exists b', Assembler.assemble_vector_cell L0 V b cell = Ok b'.
Proof.
  intros Hfit Hrange. unfold Assembler.assemble_vector_cell, tabulate_vector.
  rewrite (bool_decide_eq_true_2 _ Hfit). simpl.
  apply add_cell_total. apply (positions_Forall (fun k => k < length b)). exact Hrange.
Qed.

Lemma assemble_vector_cells_Ok (L0 : Form.t) (V : FunctionSpace) (cells : list nat)
    (b b' : list double) :
  foldM (Assembler.assemble_vector_cell L0 V) cells b = Ok b' ->
  length b' = length b
  /\ Forall (fun cell => length (Form.tabulate_tensor L0 cell)
                         <= length (cell_dofs (fs_dofmap V) cell)) cells
  /\ Forall (fun cell => Forall (fun k => k < length b) (cell_dofs (fs_dofmap V) cell)) cells
  /\ forall k, (forall cell, cell ∈ cells -> k ∉ cell_dofs (fs_dofmap V) cell) ->
               b' !! k = b !! k.
Proof.
  revert b. induction cells as [|cell cells IH]; intros b H; simpl in H.
  - injection H as <-. repeat split; auto.
  - apply bind_Ok in H as (b1 & Hb1 & H).
    apply assemble_vector_cell_Ok in Hb1 as (Hlen1 & Hfit1 & Hrange1 & Hframe1).
    destruct (IH _ H) as (Hlen & Hfit & Hrange & Hframe).
    split; [congruence|]. split; [constructor; assumption|]. split.
    + constructor; [exact Hrange1|]. rewrite Hlen1 in Hrange. exact Hrange.
    + intros k Hk. rewrite Hframe, Hframe1.
      * reflexivity.
      * apply Hk. left.
      * intros cell' Hc. apply Hk. right. exact Hc.
Qed.

Lemma assemble_vector_cells_total (L0 : Form.t) (V : FunctionSpace) (cells : list nat)
    (b : list double) :
  Forall (fun cell => length (Form.tabulate_tensor L0 cell)
                      <= length (cell_dofs (fs_dofmap V) cell)) cells ->
  Forall (fun cell => Forall (fun k => k < length b) (cell_dofs (fs_dofmap V) cell)) cells ->
  exists b', foldM (Assembler.assemble_vector_cell L0 V) cells b = Ok b'.
Proof.
  revert b. induction cells as [|cell cells IH]; intros b Hfit Hrange; simpl; [eauto|].
  apply Forall_cons in Hfit as [Hfit1 Hfit]. apply Forall_cons in Hrange as [Hrange1 Hrange].
  destruct (assemble_vector_cell_total L0 V b cell Hfit1 Hrange1) as [b1 Hb1].
  rewrite Hb1. simpl. apply IH; [exact Hfit|].
  apply assemble_vector_cell_Ok in Hb1 as (Hlen & _). rewrite Hlen. exact Hrange.
Qed.

Lemma foldM_Error {A B : Type} (f : B -> A -> outcome B) (l : list A) (b : B)
    (msg : string) :
  foldM f l b = Error msg -> exists b' x, f b' x = Error msg.
Proof.
  revert b. induction l as [|x l IH]; intros b H; simpl in H; [discriminate|].
  destruct (f b x) as [b1|msg'|] eqn:Hf; simpl in H.
  - eauto.
  - injection H as ->. eauto.
  - discriminate.
Qed.

(** X15: the linear-form core returns exactly when the kernel fits
    the dofs of every cell and every cell dof is an index of the
    buffer; it never resizes the buffer, and it leaves every entry
    that is the dof of no cell as it was. *)
Theorem vector_core_bounds_and_frame
    (b : list double) (L0 : Form.t) (mesh : Mesh) (V : FunctionSpace)
    (Hmesh : Form.mesh L0 = Ok mesh)
    (HV : Form.function_space L0 0 = Ok (Some V)) :
  ((exists b', Assembler.assemble_vector_form b L0 = Ok b')
   <-> vector_kernel_fits L0 V mesh /\ dofs_in_range V mesh (length b))
  /\ (forall b', Assembler.assemble_vector_form b L0 = Ok b' ->
        length b' = length b
        /\ forall k, (forall cell, cell ∈ mesh_cells mesh ->
                        k ∉ cell_dofs (fs_dofmap V) cell) ->
                     b' !! k = b !! k).
Proof.
  unfold Assembler.assemble_vector_form, vector_kernel_fits, dofs_in_range.
  rewrite Hmesh. simpl. rewrite HV. simpl. split; [split|].
  - intros [b' H]. apply assemble_vector_cells_Ok in H as (_ & Hfit & Hrange & _). auto.
  - intros [Hfit Hrange]. apply assemble_vector_cells_total; assumption.
  - intros b' H. apply assemble_vector_cells_Ok in H as (Hlen & _ & _ & Hframe). auto.
Qed.

(** X16: a dof of a cell that lies beyond the buffer makes the
    linear-form core read out of bounds, whatever the other cells
    are. *)
Theorem vector_core_out_of_range_dof
    (b : list double) (L0 : Form.t) (mesh : Mesh) (V : FunctionSpace) (cell k : nat)
    (Hmesh : Form.mesh L0 = Ok mesh)
    (HV : Form.function_space L0 0 = Ok (Some V))
    (Hcell : cell ∈ mesh_cells mesh)
    (Hk : k ∈ cell_dofs (fs_dofmap V) cell)
    (Hout : length b <= k) :
  Assembler.assemble_vector_form b L0 = Undefined.
Proof.
  destruct (Assembler.assemble_vector_form b L0) as [b'|msg|] eqn:H; [| |reflexivity].
  - exfalso. unfold Assembler.assemble_vector_form in H.
    rewrite Hmesh in H. simpl in H. rewrite HV in H. simpl in H.
    apply assemble_vector_cells_Ok in H as (_ & _ & Hrange & _).
    rewrite Forall_forall in Hrange. specialize (Hrange cell Hcell).
    rewrite Forall_forall in Hrange. specialize (Hrange k Hk). lia.
  - exfalso. unfold Assembler.assemble_vector_form in H.
    rewrite Hmesh in H. simpl in H. rewrite HV in H. simpl in H.
    apply foldM_Error in H as (b1 & c & H).
    unfold Assembler.assemble_vector_cell, tabulate_vector in H.
    case_bool_decide; simpl in H; [|discriminate].
    apply foldM_Error in H as (b2 & i & H).
    unfold Assembler.add_at in H. destruct (b2 !! _); discriminate.
Qed.

End VectorCore.

Section Lifting.
Context {S : Scalar}.

Lemma collect_bc_not_contained (n : nat) (V : FunctionSpace) (bcs : list DirichletBC)
    (bv : gmap nat double) :
  Forall (fun bc => contains V (bc_function_space bc) = false) bcs ->
  fold_left (collect_bc n V) bcs bv = bv.
Proof.
  induction 1 as [|bc bcs Hbc _ IH]; simpl; [reflexivity|].
  unfold collect_bc at 2. rewrite Hbc. exact IH.
Qed.

Lemma collect_in_apply_bc (a : Form.t) (n : nat) (V1 : FunctionSpace)
    (bcs : list DirichletBC) (bv : gmap nat double) :
  Form.function_space a 1 = Ok (Some V1) ->
  foldM (fun bv bc =>
           p1 ← Form.function_space a 1;
           V1 ← deref p1;
           Ok (collect_bc n V1 bv bc)) bcs bv
  = Ok (fold_left (collect_bc n V1) bcs bv).
Proof.
  intros H1. rewrite H1. revert bv.
  induction bcs as [|bc bcs IH]; intros bv; simpl; [reflexivity | apply IH].
Qed.

Lemma has_bc_empty (dmap1 : list nat) : Assembler.has_bc (∅ : gmap nat double) dmap1 = false.
Proof.
  unfold Assembler.has_bc. induction dmap1 as [|k dmap1 IH]; simpl; [reflexivity|].
  rewrite IH. unfold constrained. rewrite lookup_empty.
  rewrite bool_decide_eq_false_2; [reflexivity|]. intros [x Hx]. discriminate.
Qed.

(** X17: with no boundary condition on the column space of the form
    (none at all, or none whose space that space contains),
    [apply_bc] changes no entry of the vector and finalizes it once;
    no local tensor is tabulated, so this holds for every kernel. *)
Theorem apply_bc_without_conditions_only_finalizes
    (b : PETScVector) (a : Form.t) (bcs : list DirichletBC) (mesh : Mesh)
    (V0 V1 : FunctionSpace)
    (Hmesh : Form.mesh a = Ok mesh)
    (H0 : Form.function_space a 0 = Ok (Some V0))
    (H1 : Form.function_space a 1 = Ok (Some V1))
    (Hbcs : Forall (fun bc => contains V1 (bc_function_space bc) = false) bcs) :
  Assembler.apply_bc b a bcs = Ok (vec_apply b).
Proof.
  unfold Assembler.apply_bc. rewrite Hmesh. simpl.
  rewrite (collect_in_apply_bc a _ V1 bcs ∅ H1). simpl.
  rewrite (collect_bc_not_contained _ _ _ _ Hbcs).
  rewrite H0. simpl. rewrite H1. simpl.
  assert (Hloop : forall cells b0,
            foldM (Assembler.apply_bc_cell a (fs_dofmap V0) (fs_dofmap V1) ∅) cells b0
            = Ok b0).
  { induction cells as [|cell cells IH]; intros b0; [reflexivity|].
    change (foldM (Assembler.apply_bc_cell a (fs_dofmap V0) (fs_dofmap V1) ∅)
              (cell :: cells) b0)
      with (Assembler.apply_bc_cell a (fs_dofmap V0) (fs_dofmap V1) ∅ b0 cell
            ≫= foldM (Assembler.apply_bc_cell a (fs_dofmap V0) (fs_dofmap V1) ∅) cells).
    assert (Hcell : Assembler.apply_bc_cell a (fs_dofmap V0) (fs_dofmap V1) ∅ b0 cell
                    = Ok b0).
    { unfold Assembler.apply_bc_cell. rewrite has_bc_empty. reflexivity. }
    rewrite Hcell. apply IH. }
  rewrite Hloop. reflexivity.
Qed.

Lemma vec_add_local_frame (values : list double) (rows_ : list nat) (b : PETScVector)
    (k : nat) :
  vec_applied (vec_add_local values rows_ b) = vec_applied b
  /\ (k ∉ rows_ -> vec_values (vec_add_local values rows_ b) k = vec_values b k).
Proof.
  unfold vec_add_local.
  assert (H : forall l b0,
            vec_applied (fold_left (fun b i => vec_update (fun x => dadd x (nth i values dzero))
                                                 (nth i rows_ 0) b) l b0) = vec_applied b0
            /\ ((forall i, i ∈ l -> nth i rows_ 0 <> k) ->
                vec_values (fold_left (fun b i => vec_update (fun x => dadd x (nth i values dzero))
                                                    (nth i rows_ 0) b) l b0) k
                = vec_values b0 k)).
  { induction l as [|i l IH]; intros b0; simpl; [auto|].
    destruct (IH (vec_update (fun x => dadd x (nth i values dzero)) (nth i rows_ 0) b0))
      as [IHa IHv].
    split; [exact IHa|]. intros Hk. rewrite IHv.
    - simpl. rewrite bool_decide_eq_false_2; [reflexivity|].
      intros ->. apply (Hk i); [left | reflexivity].
    - intros i' Hi'. apply Hk. right. exact Hi'. }
  destruct (H (seq 0 (length rows_)) b) as [Ha Hv]. split; [exact Ha|].
  intros Hk. apply Hv. intros i Hi <-. apply Hk.
  apply elem_of_seq in Hi. apply list_elem_of_lookup. exists i.
  destruct (lookup_lt_is_Some_2 rows_ i) as [k' Hk']; [lia|].
  rewrite (nth_lookup_Some _ _ 0 _ Hk'). exact Hk'.
Qed.

(** X18: [apply_bc] changes entries of the vector only at the dofs
    that the dof map of function space 1 gives to the cells it takes
    (the rows it adds to are read from that dof map); every other
    entry is unchanged, and the vector is finalized once. *)
Theorem apply_bc_touches_column_space_cell_dofs_only
    (b b' : PETScVector) (a : Form.t) (bcs : list DirichletBC) (mesh : Mesh)
    (V1 : FunctionSpace) (k : nat)
    (Hmesh : Form.mesh a = Ok mesh)
    (H1 : Form.function_space a 1 = Ok (Some V1))
    (Hrun : Assembler.apply_bc b a bcs = Ok b')
    (Hk : forall cell, cell ∈ mesh_cells mesh -> k ∉ cell_dofs (fs_dofmap V1) cell) :
  vec_values b' k = vec_values b k /\ vec_applied b' = Datatypes.S (vec_applied b).
Proof.
  unfold Assembler.apply_bc in Hrun. rewrite Hmesh in Hrun. simpl in Hrun.
  apply bind_Ok in Hrun as (bv & _ & Hrun).
  apply bind_Ok in Hrun as (p0 & _ & Hrun). apply bind_Ok in Hrun as (V0 & _ & Hrun).
  rewrite H1 in Hrun. simpl in Hrun.
  apply bind_Ok in Hrun as (b1 & Hloop & Hrun). injection Hrun as <-. simpl.
  assert (H : vec_values b1 k = vec_values b k /\ vec_applied b1 = vec_applied b).
  { revert b Hloop Hk. generalize (mesh_cells mesh) as cells.
    induction cells as [|cell cells IH]; intros b Hloop Hk; simpl in Hloop.
    - injection Hloop as <-. auto.
    - apply bind_Ok in Hloop as (b2 & Hcell & Hloop).
      destruct (IH b2 Hloop) as [IHv IHa].
      { intros c Hc. apply Hk. right. exact Hc. }
      rewrite IHv, IHa. unfold Assembler.apply_bc_cell in Hcell.
      destruct (Assembler.has_bc bv _) in Hcell.
      + apply bind_Ok in Hcell as (Ae & _ & Hcell). injection Hcell as <-.
        match goal with |- context [vec_add_local ?v ?r b] =>
          destruct (vec_add_local_frame v r b k) as [Ha Hv] end.
        rewrite Ha, Hv; [auto|]. apply Hk. left.
      + injection Hcell as <-. auto. }
  destruct H as [Hv Ha]. rewrite Hv, Ha. auto.
Qed.

(** X19: [set_bc] is idempotent on the values: calling it again on
    its own result changes no entry; each call finalizes once. *)
Theorem set_bc_idempotent
    (b b1 : PETScVector) (L0 : Form.t) (bcs : list DirichletBC)
    (Hfirst : Assembler.set_bc b L0 bcs = Ok b1) :
  exists b2,
    Assembler.set_bc b1 L0 bcs = Ok b2
    /\ (forall d, vec_values b2 d = vec_values b1 d)
    /\ vec_applied b2 = Datatypes.S (Datatypes.S (vec_applied b)).
Proof.
  unfold Assembler.set_bc in *.
  apply bind_Ok in Hfirst as (mesh & Hmesh & Hfirst). rewrite Hmesh. simpl.
  apply bind_Ok in Hfirst as (V & HV & Hfirst). rewrite HV. simpl.
  apply bind_Ok in Hfirst as (bv & Hbv & Hfirst). rewrite Hbv. simpl.
  injection Hfirst as <-. eexists. split; [reflexivity|].
  rewrite !vec_set_local_pairs. simpl. split.
  - intros d. destruct (bv !! d) as [v|] eqn:Hd.
    + transitivity v; [|symmetry]; apply set_pairs_key;
        try apply NoDup_fst_map_to_list; apply elem_of_map_to_list; exact Hd.
    + rewrite (set_pairs_other _ _ d); [reflexivity|].
      intros Hin. apply list_elem_of_fmap in Hin as ([k v] & -> & Hin).
      apply elem_of_map_to_list in Hin. simpl in Hd. congruence.
  - rewrite set_pairs_applied. simpl. rewrite set_pairs_applied. reflexivity.
Qed.

(** X20: [set_bc] dereferences the function space of the form once
    per boundary condition.  On a form whose function space pointer is
    null it only finalizes the vector when there is no boundary
    condition, and dereferences the null pointer as soon as there is
    one. *)
Theorem set_bc_null_function_space
    (b : PETScVector) (L0 : Form.t) (mesh : Mesh)
    (Hmesh : Form.mesh L0 = Ok mesh)
    (HV : Form.function_space L0 0 = Ok None) :
  (exists b', Assembler.set_bc b L0 [] = Ok b'
              /\ (forall d, vec_values b' d = vec_values b d)
              /\ vec_applied b' = Datatypes.S (vec_applied b))
  /\ (forall bc bcs, Assembler.set_bc b L0 (bc :: bcs) = Undefined).
Proof.
  unfold Assembler.set_bc. rewrite Hmesh. simpl. rewrite HV. simpl. split.
  - eexists. split; [reflexivity|]. rewrite map_to_list_empty. simpl. auto.
  - intros bc bcs. reflexivity.
Qed.

End Lifting.

(** ** Vector assembly over the block collection *)

Section VectorBlocks.
Context {S : Scalar}.

(** X21: in the monolithic vector path a null linear form is
    dereferenced by the loop that collects the index maps, before the
    loop that tests the forms for null is reached: with one null form
    among several, the behaviour of the call is undefined. *)
Theorem monolithic_vector_null_form_is_dereferenced
    (allocate : Assembler.VecInit -> Assembler.VecTarget)
    (local_to_global : IndexMap -> nat -> nat)
    (get_global_index : list IndexMap -> nat -> nat -> nat)
    (asm : Assembler.t) (b : option Assembler.VecTarget) (block_type : BlockType)
    (Hplain : plain_vector allocate b)
    (Hblocks : 1 < length (Assembler._l asm))
    (Hnull : None ∈ Assembler._l asm) :
  Assembler.assemble_vector allocate local_to_global get_global_index asm b block_type
  = Undefined.
Proof.
  unfold Assembler.assemble_vector.
  destruct (Assembler._l asm !! 0) as [p0|]; simpl; [|reflexivity].
  assert (Hmaps : mapM (fun p : option Form.t => L ← deref p; Assembler.form_index_map L 0)
                    (Assembler._l asm) = Undefined).
  { apply (mapM_Undefined _ _ None); [|exact Hnull|reflexivity].
    intros [L|]; simpl; [|auto]. unfold Assembler.form_index_map, Form.function_space.
    destruct (Form._function_spaces L !! 0) as [[V|]|]; simpl; eauto. }
  destruct b as [t|]; simpl in Hplain |- *.
  - rewrite Hplain. simpl. rewrite (bool_decide_eq_true_2 _ Hblocks), Hmaps. reflexivity.
  - destruct (Assembler.assemble_vector_init asm block_type) as [init|msg|] eqn:Hinit;
      simpl; try reflexivity.
    + rewrite Hplain. simpl. rewrite (bool_decide_eq_true_2 _ Hblocks), Hmaps. reflexivity.
    + exfalso. unfold Assembler.assemble_vector_init in Hinit.
      destruct (Assembler._l asm !! 0) as [[L|]|]; simpl in Hinit;
        repeat (case_bool_decide; simpl in Hinit); discriminate.
Qed.

Lemma nested_vector_Ok (i0 : nat) (l : list (option Form.t))
    (b b' : Assembler.VecTarget) (ops : list Assembler.VecOp) :
  Assembler.nested_vector i0 l b = Ok (b', ops) ->
  Assembler.vec_type b' = Assembler.vec_type b
  /\ Assembler.local_form b' Assembler.VecParent = Assembler.local_form b Assembler.VecParent
  /\ (forall i, (i < i0 \/ i0 + length l <= i \/ l !! (i - i0) = Some None) ->
        Assembler.local_form b' (Assembler.VecSub i)
        = Assembler.local_form b (Assembler.VecSub i))
  /\ (forall i L0, l !! i = Some (Some L0) ->
        exists b_local b_local',
          Assembler.local_form b (Assembler.VecSub (i0 + i)) = Some b_local
          /\ Assembler.assemble_vector_form b_local L0 = Ok b_local'
          /\ Assembler.local_form b' (Assembler.VecSub (i0 + i)) = Some b_local')
  /\ ops = imap (fun i p => nested_vector_call (i0 + i) p) l.
Proof.
  revert i0 b b' ops. induction l as [|[L|] l IH]; intros i0 b b' ops H; simpl in H.
  - injection H as <- <-. repeat split; auto. intros i L0 H. discriminate.
  - apply bind_Ok in H as (bl & Hbl & H). apply deref_Ok in Hbl.
    apply bind_Ok in H as (bl' & Hcore & H).
    apply bind_Ok in H as ([b1 ops1] & Hrest & H). injection H as <- <-.
    destruct (IH _ _ _ _ Hrest) as (Hty & Hpar & Hother & Hblock & Hops).
    split; [rewrite Hty; reflexivity|]. split; [rewrite Hpar; reflexivity|].
    split; [|split].
    + intros i Hi. rewrite Hother.
      * simpl. rewrite bool_decide_eq_false_2; [reflexivity|].
        intros ->. destruct Hi as [Hi | [Hi | Hi]]; simpl in Hi; try lia.
        rewrite Nat.sub_diag in Hi. discriminate.
      * destruct Hi as [Hi | [Hi | Hi]]; simpl in Hi; [left; lia | right; left; lia |].
        destruct (decide (i = i0)) as [-> | Hne].
        -- rewrite Nat.sub_diag in Hi. discriminate.
        -- destruct (decide (i < i0)) as [Hlt | Hge]; [left; lia|].
           right. right. replace (i - i0) with (Datatypes.S (i - Datatypes.S i0)) in Hi by lia.
           exact Hi.
    + intros [|i] L0 Hi; simpl in Hi.
      * injection Hi as <-. rewrite Nat.add_0_r. exists bl, bl'.
        split; [exact Hbl|]. split; [exact Hcore|].
        rewrite Hother by (left; lia). simpl.
        rewrite bool_decide_eq_true_2 by reflexivity. reflexivity.
      * destruct (Hblock i L0 Hi) as (c & c' & Hc & Hcc & Hc').
        replace (i0 + Datatypes.S i) with (Datatypes.S i0 + i) by lia.
        exists c, c'. split; [|auto]. rewrite <- Hc. simpl.
        rewrite bool_decide_eq_false_2 by lia. reflexivity.
    + rewrite Hops. simpl. rewrite Nat.add_0_r. f_equal.
      apply imap_ext. intros i p _. simpl. f_equal. lia.
  - apply bind_Ok in H as ([b1 ops1] & Hrest & H). injection H as <- <-.
    destruct (IH _ _ _ _ Hrest) as (Hty & Hpar & Hother & Hblock & Hops).
    split; [exact Hty|]. split; [exact Hpar|]. split; [|split].
    + intros i Hi. apply Hother.
      destruct Hi as [Hi | [Hi | Hi]]; simpl in Hi; [| right; left; lia |].
      * destruct (decide (i = i0)) as [-> | Hne]; [lia | left; lia].
      * destruct (decide (i < i0)) as [Hlt | Hge]; [left; lia|].
        destruct (decide (i = i0)) as [-> | Hne].
        -- left. lia.
        -- right. right.
           replace (i - i0) with (Datatypes.S (i - Datatypes.S i0)) in Hi by lia. exact Hi.
    + intros [|i] L0 Hi; simpl in Hi; [discriminate|].
      destruct (Hblock i L0 Hi) as (c & c' & Hc & Hcc & Hc').
      replace (i0 + Datatypes.S i) with (Datatypes.S i0 + i) by lia. eauto.
    + rewrite Hops. simpl. f_equal.
      apply imap_ext. intros i p _. simpl. f_equal. lia.
Qed.

(** X22: on a VECNEST vector, block [i] is assembled into the local
    form of sub-vector [i] and nowhere else: the sub-vector of a
    non-null form holds the result of the linear-form core on what it
    held, the sub-vector of a null form and the parent are untouched,
    and the calls made are, block by block, one accumulation of ghost
    values for a non-null form and one warning for a null form; the
    vector is never finalized with [apply]. *)
Theorem nested_vector_assembles_block_by_block
    (allocate : Assembler.VecInit -> Assembler.VecTarget)
    (local_to_global : IndexMap -> nat -> nat)
    (get_global_index : list IndexMap -> nat -> nat -> nat)
    (asm : Assembler.t) (b b' : Assembler.VecTarget) (block_type : BlockType)
    (ops : list Assembler.VecOp)
    (Hnest : Assembler.vec_type b = Assembler.VECNEST)
    (Hrun : Assembler.assemble_vector allocate local_to_global get_global_index
              asm (Some b) block_type = Ok (b', ops)) :
  (forall i L0, Assembler._l asm !! i = Some (Some L0) ->
     exists b_local b_local',
       Assembler.local_form b (Assembler.VecSub i) = Some b_local
       /\ Assembler.assemble_vector_form b_local L0 = Ok b_local'
       /\ Assembler.local_form b' (Assembler.VecSub i) = Some b_local')
  /\ (forall i, Assembler._l asm !! i = Some None ->
        Assembler.local_form b' (Assembler.VecSub i)
        = Assembler.local_form b (Assembler.VecSub i))
  /\ Assembler.local_form b' Assembler.VecParent = Assembler.local_form b Assembler.VecParent
  /\ ops = imap nested_vector_call (Assembler._l asm).
Proof.
  unfold Assembler.assemble_vector in Hrun.
  apply bind_Ok in Hrun as (p0 & _ & Hrun). simpl in Hrun.
  rewrite Hnest in Hrun. simpl in Hrun.
  apply bind_Ok in Hrun as ([b1 ops1] & Hnested & Hrun). injection Hrun as <- <-.
  destruct (nested_vector_Ok _ _ _ _ _ Hnested) as (_ & Hpar & Hother & Hblock & Hops).
  split; [exact Hblock|]. split; [|split; [exact Hpar | exact Hops]].
  intros i Hi. apply Hother. right. right. rewrite Nat.sub_0_r. exact Hi.
Qed.

Lemma monolithic_vector_Ok (local_to_global : IndexMap -> nat -> nat)
    (get_global_index : list IndexMap -> nat -> nat -> nat)
    (index_maps : list IndexMap) (i0 : nat) (l : list (option Form.t))
    (ops : list Assembler.VecOp) :
  Assembler.monolithic_vector local_to_global get_global_index index_maps i0 l = Ok ops ->
  Forall (fun op => exists k x, op = Assembler.VecAdd k x) ops
  /\ forall i L0, l !! i = Some (Some L0) ->
       exists imap0 b_local before after,
         Assembler.form_index_map L0 0 = Ok imap0
         /\ Assembler.assemble_vector_form (replicate (size_ALL imap0) dzero) L0 = Ok b_local
         /\ ops = before
                  ++ map (fun k => Assembler.VecAdd
                                     (get_global_index index_maps (i0 + i)
                                        (local_to_global imap0 k))
                                     (nth k b_local dzero))
                         (seq 0 (size_ALL imap0))
                  ++ after.
Proof.
  revert i0 ops. induction l as [|[L|] l IH]; intros i0 ops H; simpl in H.
  - injection H as <-. split; [constructor|]. intros i L0 Hi. discriminate.
  - apply bind_Ok in H as (imap0 & Hmap & H). apply bind_Ok in H as (bl & Hcore & H).
    apply bind_Ok in H as (rest & Hrest & H). injection H as <-.
    destruct (IH _ _ Hrest) as [Hadds Hblock]. split.
    + apply Forall_app. split; [|exact Hadds].
      apply Forall_forall. intros op Hop. apply list_elem_of_fmap in Hop as (k & -> & _).
      eauto.
    + intros [|i] L0 Hi; simpl in Hi.
      * injection Hi as <-. rewrite Nat.add_0_r. exists imap0, bl, [], rest. auto.
      * destruct (Hblock i L0 Hi) as (m & c & before & after & Hm & Hc & ->).
        replace (i0 + Datatypes.S i) with (Datatypes.S i0 + i) by lia.
        eexists m, c, (_ ++ before), after. split; [exact Hm|]. split; [exact Hc|].
        rewrite <- app_assoc. reflexivity.
  - destruct (IH _ _ H) as [Hadds Hblock]. split; [exact Hadds|].
    intros [|i] L0 Hi; simpl in Hi; [discriminate|].
    destruct (Hblock i L0 Hi) as (m & c & before & after & Hm & Hc & ->).
    replace (i0 + Datatypes.S i) with (Datatypes.S i0 + i) by lia. eauto 10.
Qed.

(** X23: in the monolithic vector path every block is assembled from
    zero into a buffer of its own of the owned+ghost size of its
    index map, and the whole buffer is added entry by entry at the
    combined global indices
    [get_global_index(index_maps, i, local_to_global(k))]; the local
    forms of the vector are not touched, no ghost values are
    accumulated, and [apply] is called once, as the last call. *)
Theorem monolithic_vector_adds_whole_blocks
    (allocate : Assembler.VecInit -> Assembler.VecTarget)
    (local_to_global : IndexMap -> nat -> nat)
    (get_global_index : list IndexMap -> nat -> nat -> nat)
    (asm : Assembler.t) (b b' : Assembler.VecTarget) (block_type : BlockType)
    (ops : list Assembler.VecOp)
    (Hplain : Assembler.vec_type b = Assembler.VECMPI)
    (Hblocks : 1 < length (Assembler._l asm))
    (Hrun : Assembler.assemble_vector allocate local_to_global get_global_index
              asm (Some b) block_type = Ok (b', ops)) :
  b' = b
  /\ exists index_maps adds,
       Forall2 (fun p imap0 => exists L0, p = Some L0
                                          /\ Assembler.form_index_map L0 0 = Ok imap0)
               (Assembler._l asm) index_maps
       /\ ops = adds ++ [Assembler.VecApply]
       /\ Forall (fun op => exists k x, op = Assembler.VecAdd k x) adds
       /\ forall i L0, Assembler._l asm !! i = Some (Some L0) ->
            exists imap0 b_local before after,
              index_maps !! i = Some imap0
              /\ Assembler.assemble_vector_form (replicate (size_ALL imap0) dzero) L0
                 = Ok b_local
              /\ adds = before
                        ++ map (fun k => Assembler.VecAdd
                                           (get_global_index index_maps i
                                              (local_to_global imap0 k))
                                           (nth k b_local dzero))
                               (seq 0 (size_ALL imap0))
                        ++ after.
Proof.
  unfold Assembler.assemble_vector in Hrun.
  apply bind_Ok in Hrun as (p0 & _ & Hrun). simpl in Hrun.
  rewrite Hplain in Hrun. simpl in Hrun.
  rewrite (bool_decide_eq_true_2 _ Hblocks) in Hrun.
  apply bind_Ok in Hrun as (index_maps & Hmaps & Hrun).
  apply bind_Ok in Hrun as (adds & Hadds & Hrun). injection Hrun as <- <-.
  split; [reflexivity|]. exists index_maps, adds.
  apply mapM_Ok_Forall2 in Hmaps.
  assert (HF : Forall2 (fun p imap0 => exists L0, p = Some L0
                          /\ Assembler.form_index_map L0 0 = Ok imap0)
                 (Assembler._l asm) index_maps).
  { eapply Forall2_impl; [exact Hmaps|]. simpl. intros [L|] m H; simpl in H;
      [eauto | discriminate]. }
  split; [exact HF|]. split; [reflexivity|].
  destruct (monolithic_vector_Ok _ _ _ _ _ _ Hadds) as [Hall Hblock].
  split; [exact Hall|]. intros i L0 Hi.
  destruct (Hblock i L0 Hi) as (m & c & before & after & Hm & Hc & Heq).
  exists m, c, before, after. split; [|auto].
  destruct (Forall2_lookup_l _ _ _ _ _ HF Hi) as (m' & Hm' & L1 & [= <-] & HL1).
  rewrite Hm'. congruence.
Qed.

End VectorBlocks.

(** ** Runs of the further properties *)

Section FurtherRuns.

Local Abbreviation asm_matrix := (Assembler.assemble_matrix (S := Z_Scalar)).
Local Abbreviation asm_vector :=
  (Assembler.assemble_vector (S := Z_Scalar) Ex.allocate Ex.local_to_global
     Ex.get_global_index).

Lemma Form_mesh_is_common_to_spaces_and_markers_witness :
  Form.mesh Ex.stiffness = Ok Ex.mesh4
  /\ (forall V, Some V ∈ Form._function_spaces Ex.stiffness -> fs_mesh V = Some Ex.mesh4).
Proof.
  split; [reflexivity|].
  apply (Form_mesh_is_common_to_spaces_and_markers Ex.stiffness Ex.mesh4). reflexivity.
Defined.

Lemma Form_set_mesh_conflict_witness :
  Form.mesh (Form.set_mesh Ex.stiffness (Some Ex.mesh_other)) = Error Form.non_matching_msg.
Proof.
  apply (Form_set_mesh_conflict Ex.stiffness Ex.P1 Ex.mesh4 Ex.mesh_other
           [Ex.mesh4; Ex.mesh4]).
  - reflexivity.
  - simpl. apply list_elem_of_here.
  - reflexivity.
  - discriminate.
Defined.

Lemma Form_set_coefficient_round_trip_witness :
  (exists f',
      Form.set_coefficient Ex.stiffness_foreign_coefficient 0 None = Ok f'
      /\ Form.coefficient f' 0 = Ok None)
  /\ Form.set_coefficient Ex.stiffness 0 None = Undefined.
Proof.
  split.
  - destruct (proj1 (Form_set_coefficient_round_trip Ex.stiffness_foreign_coefficient 0 None))
      as (f' & Hset & Hget & _); [simpl; lia|].
    exists f'. auto.
  - apply (proj2 (Form_set_coefficient_round_trip Ex.stiffness 0 None)). simpl. lia.
Defined.

Lemma Form_coefficient_name_injective_witness :
  Form.coefficient_name 12 = Form.coefficient_name (5 + 7) /\ 12 = 5 + 7.
Proof.
  split; [reflexivity|]. apply (Form_coefficient_name_injective 12 (5 + 7)). reflexivity.
Defined.

Lemma Form_coloring_types_witness :
  Form.coloring (fun _ => 1%Z) Ex.stiffness 2 = Error Form.coloring_msg
  /\ Form.coloring (fun _ => 0%Z) Ex.stiffness (2 ^ 64 - 1)
     = Ok [2 ^ 64 - 1; 0; 0; 0; 2 ^ 64 - 1]%Z.
Proof.
  split.
  - apply (proj1 (proj2 (Form_coloring_types (fun _ => 1%Z) Ex.stiffness Ex.mesh4 2
                           eq_refl))).
    split; vm_compute; discriminate.
  - apply (proj2 (proj2 (Form_coloring_types (fun _ => 0%Z) Ex.stiffness Ex.mesh4
                           (2 ^ 64 - 1) eq_refl))); reflexivity.
Defined.

Lemma matrix_core_inserts_kernel_values_or_zero_witness :
  Assembler.assemble_matrix_form (Mat Parent) Ex.stiffness [Ex.bc_ends]
  = Ok (flat_map (cell_insertions Parent Ex.stiffness Ex.P1 Ex.P1
                    (Assembler.collect_axes 1 Ex.P1 Ex.P1 [Ex.bc_ends]))
          [0; 1; 2; 3]).
Proof.
  apply (proj1 (matrix_core_inserts_kernel_values_or_zero Parent Ex.stiffness [Ex.bc_ends]
                  Ex.mesh4 Ex.P1 Ex.P1 eq_refl eq_refl eq_refl)).
  repeat constructor.
Defined.

Lemma view_moves_insertions_by_scaled_offsets_witness :
  exists ops ops',
    Assembler.assemble_matrix_form
      (LocalSubMatrix Parent
         (Assembler.block_index_set {| size_ALL := 8; block_size := 2 |} 4)
         (Assembler.block_index_set {| size_ALL := 8; block_size := 2 |} 4))
      Ex.mass0v [] = Ok ops'
    /\ Assembler.assemble_matrix_form (Mat Parent) Ex.mass0v [] = Ok ops
    /\ ops' = map (shift_op 8 8) ops.
Proof.
  assert (Hrun : exists ops',
             Assembler.assemble_matrix_form
               (LocalSubMatrix Parent
                  (Assembler.block_index_set {| size_ALL := 8; block_size := 2 |} 4)
                  (Assembler.block_index_set {| size_ALL := 8; block_size := 2 |} 4))
               Ex.mass0v [] = Ok ops').
  { eexists. vm_compute. reflexivity. }
  destruct Hrun as [ops' Hops'].
  destruct (view_moves_insertions_by_scaled_offsets _ _ _ _ _ _ _ Hops') as (ops & Hops & Heq).
  exists ops, ops'. auto.
Defined.

Lemma monolithic_offsets_are_prefix_sums_witness :
  exists ops ops_f before after,
    asm_matrix Ex.mixed_scalar 1 None monolithic = Ok ops
    /\ Assembler.assemble_matrix_form
         (LocalSubMatrix Parent
            (Assembler.block_index_set {| size_ALL := 4; block_size := 1 |} 5)
            (Assembler.block_index_set {| size_ALL := 4; block_size := 1 |} 5))
         Ex.mass0 [Ex.bc_ends] = Ok ops_f
    /\ ops = before ++ ops_f ++ after.
Proof.
  assert (Hrun : exists ops, asm_matrix Ex.mixed_scalar 1 None monolithic = Ok ops).
  { eexists. vm_compute. reflexivity. }
  destruct Hrun as [ops Hops]. exists ops.
  destruct (monolithic_offsets_are_prefix_sums
              Ex.mixed_scalar 1 None monolithic ops 1 1 [Some Ex.cross0P; Some Ex.mass0]
              Ex.mass0)
    as (row_maps & col_maps & map0 & map1 & ops_f & before & after
        & Hrows & Hcols & H0 & H1 & Hf & Heq).
  - right. split; [reflexivity | discriminate].
  - eexists. split; [reflexivity | left; simpl; lia].
  - exact Hops.
  - reflexivity.
  - reflexivity.
  - exists ops_f, before, after. split; [exact Hops|]. split; [|exact Heq].
    injection H0 as <-. injection H1 as <-.
    apply Forall2_cons_inv_l in Hrows as (m0 & rest & (g & Hg & Hmap) & Hnil & ->).
    apply Forall2_nil_inv_l in Hnil as ->.
    injection Hg as <-. injection Hmap as <-.
    apply Forall2_cons_inv_l in Hcols as (m1 & rest & (g & Hg & Hmap) & Hnil & ->).
    apply Forall2_nil_inv_l in Hnil as ->.
    injection Hg as <-. injection Hmap as <-.
    exact Hf.
Defined.

Lemma nested_sub_matrix_receives_its_block_witness :
  exists ops,
    asm_matrix Ex.mixed_scalar 1 None nested = Ok ops
    /\ Assembler.assemble_matrix_form (Mat (Sub 1 1)) Ex.mass0 [Ex.bc_ends]
       = Ok (filter (fun op => op_on (Sub 1 1) op = true) ops).
Proof.
  assert (Hrun : exists ops, asm_matrix Ex.mixed_scalar 1 None nested = Ok ops).
  { eexists. vm_compute. reflexivity. }
  destruct Hrun as [ops Hops]. exists ops. split; [exact Hops|].
  apply (nested_sub_matrix_receives_its_block Ex.mixed_scalar 1 None nested ops 1 1
           [Some Ex.cross0P; Some Ex.mass0] Ex.mass0).
  - right. auto.
  - exact Hops.
  - reflexivity.
  - reflexivity.
Defined.

Lemma no_entry_is_set_outside_the_single_layout_witness :
  exists ops,
    asm_matrix Ex.mixed_scalar 1 None monolithic = Ok ops
    /\ Forall (fun op => forall m r c v, op <> MatSet m r c v) ops.
Proof.
  assert (Hrun : exists ops, asm_matrix Ex.mixed_scalar 1 None monolithic = Ok ops).
  { eexists. vm_compute. reflexivity. }
  destruct Hrun as [ops Hops]. exists ops. split; [exact Hops|].
  apply (no_entry_is_set_outside_the_single_layout Ex.mixed_scalar 1 None monolithic ops).
  - right. eexists. split; [reflexivity | left; simpl; lia].
  - exact Hops.
Defined.

Lemma nested_constrained_rows_and_columns_are_zero_witness :
  exists ops,
    asm_matrix Ex.poisson 1 None nested = Ok ops
    /\ run_ops ops zero_state (Sub 0 0) 4 4 = 0%Z
    /\ run_ops ops zero_state (Sub 0 0) 3 4 = 0%Z.
Proof.
  assert (Hrun : exists ops, asm_matrix Ex.poisson 1 None nested = Ok ops).
  { eexists. vm_compute. reflexivity. }
  destruct Hrun as [ops Hops]. exists ops. split; [exact Hops|].
  split.
  - apply (nested_constrained_rows_and_columns_are_zero (L := Z_ScalarLaws)
             Ex.poisson 1 None nested ops 0 0 [Some Ex.stiffness] Ex.stiffness
             Ex.mesh4 Ex.P1 Ex.P1 4 4); try reflexivity.
    + right. auto.
    + exact Hops.
    + left. reflexivity.
  - apply (nested_constrained_rows_and_columns_are_zero (L := Z_ScalarLaws)
             Ex.poisson 1 None nested ops 0 0 [Some Ex.stiffness] Ex.stiffness
             Ex.mesh4 Ex.P1 Ex.P1 3 4); try reflexivity.
    + right. auto.
    + exact Hops.
    + right. reflexivity.
Defined.

Lemma allocation_overruns_on_malformed_collections_witness :
  asm_matrix Ex.ragged 1 None monolithic = Undefined
  /\ Assembler.assemble_vector_init Ex.surplus_load monolithic = Undefined.
Proof.
  destruct (allocation_overruns_on_malformed_collections Ex.ragged 1 monolithic)
    as [Hmat _].
  destruct (allocation_overruns_on_malformed_collections Ex.surplus_load 1 monolithic)
    as [_ Hvec].
  split.
  - apply (Hmat [Some Ex.stiffness] [Some Ex.cross0P; Some Ex.mass0]).
    + reflexivity.
    + simpl. apply list_elem_of_further, list_elem_of_here.
    + simpl. lia.
  - apply Hvec. simpl. lia.
Defined.

Lemma vector_core_bounds_and_frame_witness :
  exists b',
    Assembler.assemble_vector_form [7; 0; 0; 0; 0; 9]%Z Ex.source = Ok b'
    /\ length b' = 6 /\ b' !! 5 = Some 9%Z.
Proof.
  destruct (vector_core_bounds_and_frame (S := Z_Scalar) [7; 0; 0; 0; 0; 9]%Z Ex.source Ex.mesh4 Ex.P1
              eq_refl eq_refl) as [Hiff Hframe].
  destruct (proj2 Hiff) as [b' Hb'].
  { split; repeat constructor. }
  exists b'. split; [exact Hb'|].
  destruct (Hframe b' Hb') as [Hlen Hkeep]. split; [exact Hlen|].
  rewrite Hkeep; [reflexivity|].
  intros cell Hcell Hin. simpl in Hcell.
  repeat (apply elem_of_cons in Hcell as [-> | Hcell];
          [vm_compute in Hin; repeat (apply elem_of_cons in Hin as [Hin | Hin];
                                      [discriminate|]); inversion Hin|]).
  inversion Hcell.
Defined.

Lemma vector_core_out_of_range_dof_witness :
  Assembler.assemble_vector_form [0; 0; 0]%Z Ex.source = Undefined.
Proof.
  apply (vector_core_out_of_range_dof (S := Z_Scalar) [0; 0; 0]%Z Ex.source Ex.mesh4 Ex.P1 3 4).
  - reflexivity.
  - reflexivity.
  - simpl. do 3 apply list_elem_of_further. apply list_elem_of_here.
  - vm_compute. apply list_elem_of_further, list_elem_of_here.
  - simpl. lia.
Defined.

Lemma apply_bc_without_conditions_only_finalizes_witness :
  Assembler.apply_bc Ex.sevens Ex.stiffness [Ex.bc_cell0] = Ok (vec_apply Ex.sevens).
Proof.
  apply (apply_bc_without_conditions_only_finalizes Ex.sevens Ex.stiffness [Ex.bc_cell0]
           Ex.mesh4 Ex.P1 Ex.P1); try reflexivity.
  repeat constructor.
Defined.

Lemma apply_bc_touches_column_space_cell_dofs_only_witness :
  exists b',
    Assembler.apply_bc Ex.sevens Ex.coupling [Ex.bc_ends] = Ok b'
    /\ vec_values b' 6 = 7%Z /\ vec_applied b' = 1.
Proof.
  assert (Hrun : exists b', Assembler.apply_bc Ex.sevens Ex.coupling [Ex.bc_ends] = Ok b').
  { eexists. vm_compute. reflexivity. }
  destruct Hrun as [b' Hb']. exists b'. split; [exact Hb'|].
  apply (apply_bc_touches_column_space_cell_dofs_only Ex.sevens b' Ex.coupling [Ex.bc_ends]
           Ex.mesh4 Ex.P1 6); try reflexivity; [exact Hb'|].
  intros cell Hcell Hin. simpl in Hcell.
  repeat (apply elem_of_cons in Hcell as [-> | Hcell];
          [vm_compute in Hin; repeat (apply elem_of_cons in Hin as [Hin | Hin];
                                      [discriminate|]); inversion Hin|]).
  inversion Hcell.
Defined.

Lemma set_bc_idempotent_witness :
  exists b1 b2,
    Assembler.set_bc Ex.sevens Ex.source [Ex.bc_ends] = Ok b1
    /\ Assembler.set_bc b1 Ex.source [Ex.bc_ends] = Ok b2
    /\ vec_values b2 4 = vec_values b1 4
    /\ vec_applied b2 = 2.
Proof.
  assert (Hrun : exists b1, Assembler.set_bc Ex.sevens Ex.source [Ex.bc_ends] = Ok b1).
  { eexists. vm_compute. reflexivity. }
  destruct Hrun as [b1 Hb1]. exists b1.
  destruct (set_bc_idempotent Ex.sevens b1 Ex.source [Ex.bc_ends] Hb1)
    as (b2 & Hb2 & Hsame & Happlied).
  exists b2. auto.
Defined.

Lemma set_bc_null_function_space_witness :
  (exists b', Assembler.set_bc Ex.sevens Ex.spaceless [] = Ok b'
              /\ vec_applied b' = 1)
  /\ Assembler.set_bc Ex.sevens Ex.spaceless [Ex.bc_ends] = Undefined.
Proof.
  destruct (set_bc_null_function_space Ex.sevens Ex.spaceless Ex.mesh4 eq_refl eq_refl)
    as [(b' & Hb' & _ & Happlied) Hundef].
  split; [exists b'; auto | apply Hundef].
Defined.

Lemma monolithic_vector_null_form_is_dereferenced_witness :
  asm_vector Ex.mixed_scalar (Some Ex.plain_vector) monolithic = Undefined.
Proof.
  apply (monolithic_vector_null_form_is_dereferenced Ex.allocate Ex.local_to_global
           Ex.get_global_index Ex.mixed_scalar (Some Ex.plain_vector) monolithic).
  - reflexivity.
  - simpl. lia.
  - simpl. apply list_elem_of_further, list_elem_of_here.
Defined.

Lemma nested_vector_assembles_block_by_block_witness :
  exists b' ops,
    asm_vector Ex.mixed_scalar (Some Ex.nest_vector) monolithic = Ok (b', ops)
    /\ Assembler.local_form b' (Assembler.VecSub 1) = Some [0; 0; 0; 0]%Z
    /\ ops = [Assembler.VecGhostUpdate (Assembler.VecSub 0); Assembler.VecWarning].
Proof.
  assert (Hrun : exists res, asm_vector Ex.mixed_scalar (Some Ex.nest_vector) monolithic
                             = Ok res).
  { eexists. vm_compute. reflexivity. }
  destruct Hrun as [[b' ops] Hrun]. exists b', ops. split; [exact Hrun|].
  destruct (nested_vector_assembles_block_by_block Ex.allocate Ex.local_to_global
              Ex.get_global_index Ex.mixed_scalar Ex.nest_vector b' monolithic ops
              eq_refl Hrun)
    as (_ & Hnull & _ & Hops).
  split; [apply (Hnull 1); reflexivity | exact Hops].
Defined.

Lemma monolithic_vector_adds_whole_blocks_witness :
  exists b' adds,
    asm_vector Ex.mixed_loaded (Some Ex.plain_vector) monolithic
    = Ok (b', adds ++ [Assembler.VecApply])
    /\ b' = Ex.plain_vector
    /\ Forall (fun op => exists k x, op = Assembler.VecAdd k x) adds.
Proof.
  assert (Hrun : exists res, asm_vector Ex.mixed_loaded (Some Ex.plain_vector) monolithic
                             = Ok res).
  { eexists. vm_compute. reflexivity. }
  destruct Hrun as [[b' ops] Hrun].
  destruct (monolithic_vector_adds_whole_blocks Ex.allocate Ex.local_to_global
              Ex.get_global_index Ex.mixed_loaded Ex.plain_vector b' monolithic ops
              eq_refl)
    as (Hb & index_maps & adds & _ & Hops & Hadds & _); [simpl; lia | exact Hrun |].
  exists b', adds. rewrite <- Hops. auto.
Defined.

End FurtherRuns.
